(** * gitbrute: brute-forcing a git commit hash prefix

    A shallow embedding of [gitbrute.go] and the properties of its
    hex encoder, date codec, exploration sequencer, worker and
    coordinator.

    Conventions of the embedding:
    - a Go [byte] is a [Byte.byte]; a Go [string] and the contents of a
      [[]byte] are a [list byte];
    - a Go slice is a backing array together with a length, the
      capacity being the length of the backing array (every slice of the
      program starts at offset 0 of its array);
    - Go's [int] and [int64] are 64-bit two's complement integers,
      modelled as [Z] with the wrap-around written out ([wrap64]);
    - a run-time panic (index or slice bounds out of range) is [None]
      in the slice operations and [Panic] in an outcome; [log.Fatalf] is
      the [Fatal] outcome. *)

From Stdlib Require Import ZArith NArith Lia.
From Stdlib Require Import Strings.String Strings.Byte.
From stdpp Require Import base option list.

Local Open Scope Z_scope.

(** ** Bytes and text *)

Abbreviation bytes := (list byte).

#[global] Instance byte_eq_dec : EqDecision byte := Byte.byte_eq_dec.

Definition newline : byte := "010"%byte.
Definition space : byte := " "%byte.

(** A Go string literal. *)
Definition lit (s : string) : bytes := list_byte_of_string s.

Definition byteN (b : byte) : N := Byte.to_N b.

(** ** Slices *)

Record slice := Slice { arr : bytes; len : nat }.

Definition cap (v : slice) : nat := length (arr v).

(** The bytes a slice denotes: the first [len] cells of its array. *)
Definition contents (v : slice) : bytes := take (len v) (arr v).

(** [v[:n]]: panics unless [n <= cap(v)]. *)
Definition reslice (v : slice) (n : nat) : option slice :=
  if decide (n ≤ cap v)%nat then Some (Slice (arr v) n) else None.

(** [v[i]] as a read: panics unless [i < len(v)]. *)
Definition index (v : slice) (i : nat) : option byte :=
  if decide (i < len v)%nat then arr v !! i else None.

(** [v[i] = x]: panics unless [i < len(v)]. *)
Definition store (v : slice) (i : nat) (x : byte) : option slice :=
  if decide (i < len v)%nat then Some (Slice (<[i:=x]> (arr v)) (len v)) else None.

(** ** Hex encoder *)

Module Hex.

(** [const hex = "0123456789abcdef"] *)
Definition hex : bytes := lit "0123456789abcdef".

(** [hex[k]], with the bounds check of string indexing. *)
Definition hexAt (k : N) : option byte := hex !! N.to_nat k.

(** The loop of [hexInPlace], [n] iterations left: the next index is
    [i = n - 1].  [v] and [h] share one backing array, so the array is
    threaded through; [vlen] and [hlen] are the two lengths. *)
Fixpoint hexLoop (vlen hlen : nat) (n : nat) (a : bytes) : option bytes :=
  match n with
  | O => Some a
  | S i =>
      b ← index (Slice a vlen) i;
      c1 ← hexAt (N.shiftr (byteN b) 4);
      h1 ← store (Slice a hlen) (i * 2 + 0) c1;
      c2 ← hexAt (N.land (byteN b) 0xf);
      h2 ← store (Slice (arr h1) hlen) (i * 2 + 1) c2;
      hexLoop vlen hlen i (arr h2)
  end.

Definition hexInPlace (v : slice) : option slice :=
  h ← reslice v (len v * 2);
  a ← hexLoop (len v) (len h) (len v) (arr h);
  Some (Slice a (len h)).

(** The hex encoding as a map over the input, digit pair by digit pair. *)
Definition hexPair (b : byte) : bytes :=
  match hexAt (N.shiftr (byteN b) 4), hexAt (N.land (byteN b) 0xf) with
  | Some c1, Some c2 => [c1; c2]
  | _, _ => []
  end.

Definition hexEncode (bs : bytes) : bytes := flat_map hexPair bs.

(** Decoding, as [encoding/hex.DecodeString] does it: each pair of hex
    digits (either case) gives one byte; an odd length or any other
    character is an error. *)
Definition fromHexChar (c : byte) : option N :=
  let n := byteN c in
  if ((48 <=? n) && (n <=? 57))%N then Some (n - 48)%N
  else if ((97 <=? n) && (n <=? 102))%N then Some (n - 97 + 10)%N
  else if ((65 <=? n) && (n <=? 70))%N then Some (n - 65 + 10)%N
  else None.

Fixpoint hexDecode (s : bytes) : option bytes :=
  match s with
  | [] => Some []
  | c1 :: c2 :: rest =>
      a ← fromHexChar c1;
      b ← fromHexChar c2;
      x ← Byte.of_N (a * 16 + b);
      r ← hexDecode rest;
      Some (x :: r)
  | _ => None
  end.

(** Lowercase hexadecimal characters: ['0'..'9'] and ['a'..'f']. *)
Definition isLowerHex (c : byte) : bool :=
  let n := byteN c in
  (((48 <=? n) && (n <=? 57)) || ((97 <=? n) && (n <=? 102)))%N.

End Hex.

(** ** Machine integers *)

Definition maxInt64 : Z := 2 ^ 63 - 1.
Definition minInt64 : Z := - 2 ^ 63.
Definition maxUint64 : N := (2 ^ 64 - 1)%N.

(** Two's complement wrap-around of a mathematical integer into
    [int64] (and into [int], 64 bits wide as well). *)
Definition wrap64 (z : Z) : Z := (z + 2 ^ 63) mod 2 ^ 64 - 2 ^ 63.

(** Wrap-around into [uint64]. *)
Definition wrapU64 (n : N) : N := (n mod 2 ^ 64)%N.

Definition inInt64 (z : Z) : Prop := minInt64 <= z <= maxInt64.

(** ** strconv and strings *)

Module Strconv.

Inductive numError := ErrSyntax | ErrRange.

(** [lower(c) = c | ('x' - 'X')] *)
Definition lower (c : N) : N := N.lor c 32.

(** The digit value of a character in [ParseUint]'s loop, before the
    comparison with the base. *)
Definition digitOf (c : byte) : option N :=
  let n := byteN c in
  if ((48 <=? n) && (n <=? 57))%N then Some (n - 48)%N
  else if ((97 <=? lower n) && (lower n <=? 122))%N then Some (lower n - 97 + 10)%N
  else None.

(** The loop of [ParseUint] for a base in [2..36] and [bitSize = 64]:
    [n] is the accumulator, a [uint64]. *)
Fixpoint parseLoop (base : N) (s : bytes) (n : N) : N * option numError :=
  match s with
  | [] => (n, None)
  | c :: rest =>
      match digitOf c with
      | None => (0%N, Some ErrSyntax)
      | Some d =>
          if (base <=? d)%N then (0%N, Some ErrSyntax)
          else if (maxUint64 / base + 1 <=? n)%N then (maxUint64, Some ErrRange)
          else
            let n' := wrapU64 (n * base) in
            let n1 := wrapU64 (n' + d) in
            if ((n1 <? n') || (maxUint64 <? n1))%N then (maxUint64, Some ErrRange)
            else parseLoop base rest n1
      end
  end.

(** [strconv.ParseUint(s, base, 64)] for [2 <= base <= 36]. *)
Definition ParseUint (s : bytes) (base : N) : N * option numError :=
  match s with
  | [] => (0%N, Some ErrSyntax)
  | _ => parseLoop base s 0%N
  end.

(** [strconv.ParseInt(s, base, 64)] for [2 <= base <= 36]. *)
Definition ParseInt (s : bytes) (base : N) : Z * option numError :=
  match s with
  | [] => (0, Some ErrSyntax)
  | c :: rest =>
      let '(neg, s1) :=
        if decide (c = "+"%byte) then (false, rest)
        else if decide (c = "-"%byte) then (true, rest)
        else (false, s) in
      match ParseUint s1 base with
      | (_, Some ErrSyntax) => (0, Some ErrSyntax)
      | (un, _) =>
          let cutoff := (2 ^ 63)%N in
          if negb neg && (cutoff <=? un)%N then (Z.of_N cutoff - 1, Some ErrRange)
          else if neg && (cutoff <? un)%N then (- Z.of_N cutoff, Some ErrRange)
          else
            let n := wrap64 (Z.of_N un) in
            (if neg then wrap64 (- n) else n, None)
      end
  end.

(** The character of a decimal digit. *)
Definition dchar (k : N) : byte := default "0"%byte (Byte.of_N (48 + k)).

(** The decimal digits of [u], most significant first, prepended to
    [acc]; [fuel] bounds the number of digits. *)
Fixpoint digitsAux (fuel : nat) (u : N) (acc : bytes) : bytes :=
  match fuel with
  | O => acc
  | S f =>
      let d := dchar (u mod 10) in
      if (u <? 10)%N then d :: acc else digitsAux f (u / 10) (d :: acc)
  end.

Definition formatUint (u : N) : bytes := digitsAux (S (N.to_nat (N.log2 u))) u [].

(** The base-10 text of an [int64]: what [strconv.AppendInt(dst, i, 10)]
    appends and what [fmt]'s [%d] prints. *)
Definition formatInt (i : Z) : bytes :=
  if i <? 0 then "-"%byte :: formatUint (Z.to_N (- i)) else formatUint (Z.to_N i).

(** [strings.ToLower] on ASCII text. *)
Definition toLowerByte (c : byte) : byte :=
  let n := byteN c in
  if ((65 <=? n) && (n <=? 90))%N then default c (Byte.of_N (n + 32)) else c.

Definition ToLower (s : bytes) : bytes := toLowerByte <$> s.

(** [bytes.HasPrefix] / [strings.HasPrefix] *)
Definition HasPrefix (s p : bytes) : bool :=
  bool_decide (length p ≤ length s)%nat && bool_decide (take (length p) s = p).

(** [strings.Index(s, sep)] for a one-byte separator: the index of its
    first occurrence, or [None] for Go's [-1]. *)
Fixpoint IndexByte (s : bytes) (c : byte) : option nat :=
  match s with
  | [] => None
  | x :: rest => if decide (x = c) then Some O else S <$> IndexByte rest c
  end.

(** The number a digit string denotes in a base, continuing from [acc];
    characters that are no digits count as 0. *)
Definition valOf (base : N) (s : bytes) (acc : N) : N :=
  fold_left (λ a c, a * base + default 0 (digitOf c))%N s acc.

(** A hexadecimal digit, of either case. *)
Definition isHexDigit (c : byte) : bool :=
  let n := byteN c in
  (((48 <=? n) && (n <=? 57)) || ((97 <=? n) && (n <=? 102))
   || ((65 <=? n) && (n <=? 70)))%N.

(** A digit of the base. *)
Definition isDigit (base : N) (c : byte) : Prop :=
  ∃ d, digitOf c = Some d ∧ (d < base)%N.

(** Decimal text in the form [formatInt] writes it: digits without a
    superfluous leading zero, after an optional minus sign, and not
    minus zero. *)
Definition canonicalUint (s : bytes) : Prop :=
  s ≠ [] ∧ Forall (λ c, 48 <= byteN c <= 57)%N s ∧ (head s = Some "0"%byte → s = ["0"%byte]).

Definition canonicalInt (s : bytes) : Prop :=
  canonicalUint s
  ∨ ∃ ds, s = "-"%byte :: ds ∧ canonicalUint ds ∧ ds ≠ ["0"%byte].

End Strconv.

(** ** Exploration sequencer *)

Module Explore.

(** [try]: a pair of seconds behind now to brute force. *)
Record try := Try { commitBehind : Z; authorBehind : Z }.

(** [explore] as a machine that is stepped once per loop test: the
    control point is the test of the first inner loop ([LoopI], with
    [var] holding [i]) or of the second one ([LoopJ], with [var] holding
    [j]); [max] is the counter of the outer loop.  All three are Go
    [int]s. *)
Inductive pc := LoopI | LoopJ.

Record state := St { max : Z; at_pc : pc; var : Z }.

(** [for max := 0; ; max++ { for i := 0; ... ] *)
Definition init : state := St 0 LoopI 0.

(** One loop test: either the body runs and sends a pair on the
    channel, or the loop is left. *)
Definition step (s : state) : option try * state :=
  match at_pc s with
  | LoopI =>
      (* i <= max-1 *)
      if var s <=? wrap64 (max s - 1)
      then (Some (Try (var s) (max s)), St (max s) LoopI (wrap64 (var s + 1)))
      else (None, St (max s) LoopJ 0)
  | LoopJ =>
      (* j <= max *)
      if var s <=? max s
      then (Some (Try (max s) (var s)), St (max s) LoopJ (wrap64 (var s + 1)))
      else (None, St (wrap64 (max s + 1)) LoopI 0)
  end.

(** The pairs sent during [n] loop tests from [s], and the state reached. *)
Fixpoint run (n : nat) (s : state) : list try * state :=
  match n with
  | O => ([], s)
  | S k =>
      let '(o, s1) := step s in
      let '(tr, s2) := run k s1 in
      (option_list o ++ tr, s2)
  end.

(** The same as a relation, for runs too long to count in unary:
    [exec s tr s'] when the machine goes from [s] to [s'] sending
    exactly [tr], in this order. *)
Inductive exec : state → list try → state → Prop :=
  | exec_done s : exec s [] s
  | exec_step s o s1 tr s2 :
      step s = (o, s1) → exec s1 tr s2 → exec s (option_list o ++ tr) s2.

(** What [explore] has sent at some point of its run. *)
Definition sent (tr : list try) : Prop := ∃ s, exec init tr s.

(** The pairs of one level as the specification lists them: [(i, m)]
    for [i = 0 .. m-1], then [(m, j)] for [j = 0 .. m]. *)
Definition levelPairs (m : Z) : list try :=
  ((λ i, Try i m) <$> seqZ 0 m) ++ ((λ j, Try m j) <$> seqZ 0 (m + 1)).

(** All pairs of the levels below [m], level by level. *)
Definition below (m : Z) : list try := seqZ 0 m ≫= levelPairs.

End Explore.

(** ** Outcomes *)

(** The [log.Fatalf] calls the model covers; the last message is
    printed at two places of [getDate]. *)
Inductive fatal :=
  | PrefixNotHex      (* "Prefix %q isn't hex." *)
  | NoBlankLine       (* "No \\n\\n found in %q" *)
  | FailedToMatch     (* "Failed to match %s in %q" *)
  | UnexpectedDate.   (* "unexpected date %q" *)

(** [log.Fatalf] ends the process: nothing after it runs. *)
Inductive outcome (A : Type) :=
  | Ok (a : A)
  | Fatal (e : fatal)
  | Panic.
Arguments Ok {A} a.
Arguments Fatal {A} e.
Arguments Panic {A}.

#[global] Instance outcome_ret : MRet outcome := λ A a, Ok a.

#[global] Instance outcome_bind : MBind outcome := λ A B k m,
  match m with
  | Ok a => k a
  | Fatal e => Fatal e
  | Panic => Panic
  end.

#[global] Instance outcome_fmap : FMap outcome := λ A B f m,
  match m with
  | Ok a => Ok (f a)
  | Fatal e => Fatal e
  | Panic => Panic
  end.

(** A run-time panic of a slice operation ends the process as well. *)
Definition orPanic {A} (o : option A) : outcome A :=
  match o with
  | Some a => Ok a
  | None => Panic
  end.

(** ** Regular expressions of the date lines *)

Module Regexp.

(** Go's [regexp] returns the leftmost match, and among the matches at
    that position the one a backtracking search finds first.  The two
    patterns of the program have the shape [(?m)^LABEL.+> (.+)], so the
    matcher is written for that shape, as a backtracking search with
    continuations.  Positions are byte offsets; [.] is any character but
    a newline, and since ['>'] and the newline are ASCII the search by
    bytes finds the same offsets as the search by UTF-8 characters. *)

Definition K := bytes → nat → option (nat * nat).

(** A literal: the input must start with it. *)
Definition lit_ (l : bytes) (k : K) : K := λ s pos,
  if decide (take (length l) s = l)
  then k (drop (length l) s) (pos + length l)%nat else None.

(** [.+], greedy: the longest run is tried first. *)
Fixpoint dotPlus (k : K) (s : bytes) (pos : nat) : option (nat * nat) :=
  match s with
  | [] => None
  | c :: rest =>
      if decide (c = newline) then None
      else match dotPlus k rest (S pos) with
           | Some r => Some r
           | None => k rest (S pos)
           end
  end.

(** [(.+)] at the end of the pattern: the group is reported. *)
Definition group1 : K := λ s pos,
  dotPlus (λ _ pos', Some (pos, pos')) s pos.

(** [(?m)^]: at the start of the text or right after a newline. *)
Definition lineStart (h : bytes) (p : nat) : bool :=
  match p with
  | O => true
  | S q => bool_decide (h !! q = Some newline)
  end.

(** The pattern [(?m)^LABEL.+> (.+)] tried at offset [p]. *)
Definition matchAt (label : bytes) (h : bytes) (p : nat) : option (nat * nat) :=
  if lineStart h p
  then lit_ label (dotPlus (lit_ (lit "> ") group1)) (drop p h) p
  else None.

(** The offsets [0, 1, ..] tried in this order, [n] of them from [p] on. *)
Fixpoint findFrom (label : bytes) (h : bytes) (p : nat) (n : nat) : option (nat * nat) :=
  match n with
  | O => None
  | S n' =>
      match matchAt label h p with
      | Some r => Some r
      | None => findFrom label h (S p) n'
      end
  end.

(** [rx.FindSubmatchIndex(h)], of which the program uses [m[2]] and
    [m[3]]: the bounds of the group. *)
Definition FindSubmatchIndex (label : bytes) (h : bytes) : option (nat * nat) :=
  findFrom label h 0 (S (length h)).

(** [authorDateRx] and [committerDateRx], given by their labels. *)
Definition authorDateRx : bytes := lit "author".
Definition committerDateRx : bytes := lit "committer".

End Regexp.

(** ** Date codec *)

(** [date]: a git date. *)
Record date := Date { n : Z; tz : bytes }.

(** [func (d date) String() string] *)
Definition date_String (d : date) : bytes :=
  Strconv.formatInt (n d) ++ lit " " ++ tz d.

(** [h[i:j]] *)
Definition sub (h : bytes) (i j : nat) : bytes := take (j - i) (drop i h).

Definition getDate (h : bytes) (rx : bytes) : outcome (date * nat) :=
  match Regexp.FindSubmatchIndex rx h with
  | None => Fatal FailedToMatch
  | Some (m2, m3) =>
      let v := sub h m2 m3 in
      match Strconv.IndexByte v space with
      | None => Fatal UnexpectedDate
      | Some i =>
          match Strconv.ParseInt (take i v) 10 with
          | (n, None) => Ok (Date n (drop (i + 1) v), m2)
          | (_, Some _) => Fatal UnexpectedDate
          end
      end
  end.

(** ** SHA-1 *)

(** [crypto/sha1]: the digest of FIPS 180-4 on 32-bit words, which are
    [N]s below [2^32]. *)
Module Sha1.

Definition Size : nat := 20.

Definition w32 (x : N) : N := (x mod 2 ^ 32)%N.
Definition add32 (x y : N) : N := w32 (x + y).
Definition rotl (k : N) (x : N) : N :=
  w32 (N.lor (N.shiftl x k) (N.shiftr x (32 - k))).
Definition not32 (x : N) : N := N.lxor x 0xffffffff%N.

(** Big-endian bytes of a word and back. *)
Definition be32 (x : N) : bytes :=
  (λ k, default x00 (Byte.of_N (N.shiftr x k mod 256)%N)) <$> [24; 16; 8; 0]%N.

Definition word (bs : bytes) : N :=
  fold_left (λ a b, a * 256 + byteN b)%N bs 0%N.

Definition be64 (x : N) : bytes :=
  (λ k, default x00 (Byte.of_N (N.shiftr x k mod 256)%N))
    <$> [56; 48; 40; 32; 24; 16; 8; 0]%N.

(** The message followed by the bit 1, zeros up to 56 modulo 64 bytes,
    and the length in bits. *)
Definition pad (msg : bytes) : bytes :=
  let l := length msg in
  msg ++ [x80] ++ replicate ((119 - l mod 64) mod 64)%nat x00
      ++ be64 (8 * N.of_nat l).

(** [n] words of four bytes. *)
Fixpoint words (n : nat) (bs : bytes) : list N :=
  match n with
  | O => []
  | S n' => word (take 4 bs) :: words n' (drop 4 bs)
  end.

(** The message schedule, most recent word first: [k] more words. *)
Fixpoint schedule (k : nat) (rw : list N) : list N :=
  match k with
  | O => rw
  | S k' =>
      let x := N.lxor (N.lxor (rw !!! 2%nat) (rw !!! 7%nat))
                      (N.lxor (rw !!! 13%nat) (rw !!! 15%nat)) in
      schedule k' (rotl 1 x :: rw)
  end.

Definition state : Type := N * N * N * N * N.

Definition round (t : nat) (st : state) (w : N) : state :=
  let '(a, b, c, d, e) := st in
  let '(f, k) :=
    if decide (t < 20)%nat then (N.lor (N.land b c) (N.land (not32 b) d), 0x5A827999%N)
    else if decide (t < 40)%nat then (N.lxor (N.lxor b c) d, 0x6ED9EBA1%N)
    else if decide (t < 60)%nat
      then (N.lor (N.lor (N.land b c) (N.land b d)) (N.land c d), 0x8F1BBCDC%N)
    else (N.lxor (N.lxor b c) d, 0xCA62C1D6%N) in
  (add32 (add32 (add32 (add32 (rotl 5 a) f) e) k) w, a, rotl 30 b, c, d)%N.

Fixpoint rounds (t : nat) (ws : list N) (st : state) : state :=
  match ws with
  | [] => st
  | w :: ws' => rounds (S t) ws' (round t st w)
  end.

Definition block (h : state) (blk : bytes) : state :=
  let ws := rev (schedule 64 (rev (words 16 blk))) in
  let '(a, b, c, d, e) := rounds 0 ws h in
  let '(h0, h1, h2, h3, h4) := h in
  (add32 h0 a, add32 h1 b, add32 h2 c, add32 h3 d, add32 h4 e).

Fixpoint blocks (n : nat) (h : state) (bs : bytes) : state :=
  match n with
  | O => h
  | S n' => blocks n' (block h (take 64 bs)) (drop 64 bs)
  end.

Definition init : state :=
  (0x67452301, 0xEFCDAB89, 0x98BADCFE, 0x10325476, 0xC3D2E1F0)%N.

(** The digest of a message: what [Reset], [Write(msg)] and [Sum] leave
    to be appended. *)
Definition sum (msg : bytes) : bytes :=
  let p := pad msg in
  let '(h0, h1, h2, h3, h4) := blocks (length p / 64) init p in
  be32 h0 ++ be32 h1 ++ be32 h2 ++ be32 h3 ++ be32 h4.

End Sha1.

(** ** Worker *)

Record solution := Solution { author : date; committer : date }.

Module Worker.
Import Explore.

(** What [append(v, ds...)] does to the array [v] shares with other
    slices: with room up to the capacity the bytes are written in
    place behind [len(v)]; otherwise a new array is allocated and the
    shared one is left alone. *)
Definition appendShared (v : slice) (ds : bytes) : bytes :=
  if decide (len v + length ds ≤ cap v)%nat
  then list_inserts (len v) ds (arr v) else arr v.

(** The slice [append(v, ds...)] returns; a fresh array is modelled
    with no room to spare. *)
Definition append (v : slice) (ds : bytes) : slice :=
  if decide (len v + length ds ≤ cap v)%nat
  then Slice (list_inserts (len v) ds (arr v)) (len v + length ds)
  else Slice (contents v ++ ds) (len v + length ds).

(** The variables of [bruteForce] that live across iterations.  [blob]
    and [hexBuf] are slices whose arrays are written in place; the
    other fields are never assigned after initialisation. *)
Record worker := Worker {
  blob : slice;
  authorDate : date;
  adatei : nat;
  commitDate : date;
  cdatei : nat;
  wantHexPrefix : bytes;
  hexBuf : slice
}.

(** [fmt.Sprintf("commit %d\x00%s", len(obj), obj)] *)
Definition gitObject (obj : bytes) : bytes :=
  lit "commit " ++ Strconv.formatInt (Z.of_nat (length obj)) ++ [x00] ++ obj.

(** The statements of [bruteForce] before its loop.  [spare] is the room
    the allocator leaves behind the bytes of [blob]; the language fixes
    only that it is not negative. *)
Definition initWorker (obj : bytes) (spare : nat) (prefix : bytes) : outcome worker :=
  let text := gitObject obj in
  let blob := Slice (text ++ replicate spare x00) (length text) in
  '(authorDate, adatei) ← getDate (contents blob) Regexp.authorDateRx;
  '(commitDate, cdatei) ← getDate (contents blob) Regexp.committerDateRx;
  Ok {| blob := blob;
        authorDate := authorDate; adatei := adatei;
        commitDate := commitDate; cdatei := cdatei;
        wantHexPrefix := Strconv.ToLower prefix;
        hexBuf := Slice (replicate (Sha1.Size * 2) x00) 0 |}.

(** [ad] and [cd] of a candidate. *)
Definition candidateDates (w : worker) (t : try) : date * date :=
  (Date (wrap64 (n (authorDate w) - authorBehind t)) (tz (authorDate w)),
   Date (wrap64 (n (commitDate w) - commitBehind t)) (tz (commitDate w))).

(** The two [strconv.AppendInt] statements: each appends to a prefix of
    [blob] and drops the slice it gets back, so [blob] keeps its length
    and sees the bytes written into its array. *)
Definition rewrite (w : worker) (ad cd : date) : outcome slice :=
  d1 ← orPanic (reslice (blob w) (adatei w));
  let a1 := appendShared d1 (Strconv.formatInt (n ad)) in
  d2 ← orPanic (reslice (Slice a1 (len (blob w))) (cdatei w));
  let a2 := appendShared d2 (Strconv.formatInt (n cd)) in
  Ok (Slice a2 (len (blob w))).

(** The body of the [default] case for one candidate: the worker after
    it, the hex text that was compared, and the solution sent, if any. *)
Definition attempt (w : worker) (t : try) : outcome (worker * bytes * option solution) :=
  let '(ad, cd) := candidateDates w t in
  blob' ← rewrite w ad cd;
  h0 ← orPanic (reslice (hexBuf w) 0);
  let digest := Sha1.sum (contents blob') in
  let hexArr := appendShared h0 digest in
  hx ← orPanic (Hex.hexInPlace (append h0 digest));
  let hexArr' :=
    if decide (len h0 + length digest ≤ cap h0)%nat then arr hx else hexArr in
  let w' := {| blob := blob';
               authorDate := authorDate w; adatei := adatei w;
               commitDate := commitDate w; cdatei := cdatei w;
               wantHexPrefix := wantHexPrefix w;
               hexBuf := Slice hexArr' (len (hexBuf w)) |} in
  Ok (w', contents hx,
      if Strconv.HasPrefix (contents hx) (wantHexPrefix w)
      then Some (Solution ad cd) else None).

(** The loop on the candidates a worker receives until it sends a
    solution or the list ends, which stands for the moment it sees
    [done] closed. *)
Fixpoint workLoop (w : worker) (ts : list try) : outcome (worker * option solution) :=
  match ts with
  | [] => Ok (w, None)
  | t :: rest =>
      '(w', _, r) ← attempt w t;
      match r with
      | Some sol => Ok (w', Some sol)
      | None => workLoop w' rest
      end
  end.

(** One worker alone on the candidates [ts]. *)
Definition bruteForce (obj : bytes) (spare : nat) (prefix : bytes) (ts : list try)
  : outcome (option solution) :=
  w ← initWorker obj spare prefix;
  '(_, r) ← workLoop w ts;
  Ok r.

(** The states a worker is in when it takes a candidate: the initial
    one and those that follow an attempt without a match. *)
Inductive reaches : worker → worker → Prop :=
  | reaches_here w : reaches w w
  | reaches_next w t w1 hx w2 :
      attempt w t = Ok (w1, hx, None) → reaches w1 w2 → reaches w w2.

(** What the loop relies on without saying so. *)
Definition wf (w : worker) : Prop :=
  (adatei w ≤ len (blob w))%nat ∧ (cdatei w ≤ len (blob w))%nat
  ∧ (len (blob w) ≤ cap (blob w))%nat
  ∧ len (hexBuf w) = 0%nat ∧ cap (hexBuf w) = (Sha1.Size * 2)%nat.

(** The length of the digit run that starts at offset [i] of [b]: up to
    the next space, as [getDate] cuts it. *)
Definition digitRun (b : bytes) (i : nat) : nat :=
  default 0%nat (Strconv.IndexByte (drop i b) space).

(** [i] lies in the run of [k] bytes at [start]. *)
Definition inRun (start k i : nat) : Prop := (start ≤ i < start + k)%nat.

(** The test of the specification: the hex text of a digest starts with
    the prefix, whatever the case of the letters. *)
Definition hasHexPrefix (prefix digest : bytes) : bool :=
  Strconv.HasPrefix (Strconv.ToLower (Hex.hexEncode digest)) (Strconv.ToLower prefix).

(** The record with the date field of one line replaced by a date as
    [String] prints it. *)
Definition replaceField (rx : bytes) (obj : bytes) (d : date) : option bytes :=
  '(m2, m3) ← Regexp.FindSubmatchIndex rx obj;
  Some (take m2 obj ++ date_String d ++ drop m3 obj).

(** The record rebuilt with the dates of a solution, under the header
    of its own length: what the amended commit is hashed from when
    nothing but the two dates changes. *)
Definition rebuilt (obj : bytes) (sol : solution) : option bytes :=
  o1 ← replaceField Regexp.authorDateRx obj (author sol);
  o2 ← replaceField Regexp.committerDateRx o1 (committer sol);
  Some (gitObject o2).

End Worker.

(** ** Search coordinator *)

Module Coordinator.
Import Explore Worker.

(** What [main] is run with: the flags, and what the two [git] commands
    it first runs print ([git rev-parse HEAD] and [git cat-file -p]). *)
Record config := Config {
  prefix : bytes;
  force : bool;
  cpu : nat;
  hash : bytes;
  obj : bytes;
  spare : nat
}.

(** [if _, err := strconv.ParseInt( *prefix, 16, 64); err != nil] *)
Definition checkPrefix (p : bytes) : outcome unit :=
  match Strconv.ParseInt p 16 with
  | (_, Some _) => Fatal PrefixNotHex
  | (_, None) => Ok tt
  end.

(** [bytes.Index(obj, "\n\n") < 0] *)
Fixpoint noBlankLine (s : bytes) : bool :=
  match s with
  | a :: (b :: _) as rest =>
      if decide (a = newline ∧ b = newline) then false else noBlankLine rest
  | _ => true
  end.

(** Where a worker goroutine stands. *)
Inductive wthread :=
  | WStart                            (* not yet past the two [getDate] calls *)
  | WRecv (w : worker)                (* at [for t := range possibilities] *)
  | WSelect (w : worker) (t : try)    (* at [select], holding a candidate *)
  | WTry (w : worker) (t : try)       (* in the [default] branch, before the hash *)
  | WSend (sol : solution)            (* at [winner <- solution{ad, cd}] *)
  | WExit.                            (* returned *)

(** Where [main] stands once the goroutines are started. *)
Inductive mthread :=
  | MWait                             (* at [w := <-winner] *)
  | MGot (w : solution)               (* at [close(done)] *)
  | MClosed (w : solution).           (* past [close(done)]: amending *)

(** The goroutines and the three channels.  [possibilities] has room
    for 512 candidates; [winner] has no buffer, so it holds nothing and
    a value passes when a sender and the receiver meet; [done] is only
    ever closed. *)
Record sys := Sys {
  explorer : Explore.state;
  possibilities : list try;
  workers : list wthread;
  doneClosed : bool;
  mainAt : mthread
}.

(** The moves of the scheduler. *)
Inductive label :=
  | LExplore             (* the next loop test of [explore] *)
  | LWorker (i : nat)    (* the next step of worker [i] on its own *)
  | LDeliver (i : nat)   (* worker [i] and [main] meet on [winner] *)
  | LMain.               (* the next step of [main] on its own *)

Inductive result :=
  | Next (s : sys)
  | Blocked                       (* the move cannot be made now *)
  | Exits (e : option fatal).     (* the process ends: fatal error or panic *)

Definition ofOutcome {A} (m : outcome A) (k : A → result) : result :=
  match m with
  | Ok a => k a
  | Fatal e => Exits (Some e)
  | Panic => Exits None
  end.

Definition setWorker (s : sys) (i : nat) (th : wthread) : sys :=
  {| explorer := explorer s; possibilities := possibilities s;
     workers := <[i:=th]> (workers s);
     doneClosed := doneClosed s; mainAt := mainAt s |}.

(** One move of one goroutine.  A move ends where the goroutine next
    touches a channel, so that any other goroutine can act in between:
    the receive from [possibilities], the test of [done] in the
    [select], the body of the [default] branch up to the send (it
    touches only the worker's own buffers), the meeting on [winner],
    and [close(done)] are moves of their own. *)
Definition step (c : config) (s : sys) (l : label) : result :=
  match l with
  | LExplore =>
      match Explore.step (explorer s) with
      | (None, x') =>
          Next {| explorer := x'; possibilities := possibilities s;
                  workers := workers s;
                  doneClosed := doneClosed s; mainAt := mainAt s |}
      | (Some t, x') =>
          if decide (length (possibilities s) < 512)%nat
          then Next {| explorer := x'; possibilities := possibilities s ++ [t];
                       workers := workers s;
                       doneClosed := doneClosed s; mainAt := mainAt s |}
          else Blocked
      end
  | LWorker i =>
      match workers s !! i with
      | Some WStart =>
          ofOutcome (initWorker (obj c) (spare c) (prefix c))
                    (λ w, Next (setWorker s i (WRecv w)))
      | Some (WRecv w) =>
          match possibilities s with
          | [] => Blocked
          | t :: q =>
              Next {| explorer := explorer s; possibilities := q;
                      workers := <[i:=WSelect w t]> (workers s);
                      doneClosed := doneClosed s; mainAt := mainAt s |}
          end
      | Some (WSelect w t) =>
          if doneClosed s then Next (setWorker s i WExit)
          else Next (setWorker s i (WTry w t))
      | Some (WTry w t) =>
          ofOutcome (attempt w t) (λ '(w', _, r),
            match r with
            | None => Next (setWorker s i (WRecv w'))
            | Some sol => Next (setWorker s i (WSend sol))
            end)
      | _ => Blocked
      end
  | LDeliver i =>
      match workers s !! i, mainAt s with
      | Some (WSend sol), MWait =>
          Next {| explorer := explorer s; possibilities := possibilities s;
                  workers := <[i:=WExit]> (workers s);
                  doneClosed := doneClosed s; mainAt := MGot sol |}
      | _, _ => Blocked
      end
  | LMain =>
      match mainAt s with
      | MGot w =>
          Next {| explorer := explorer s; possibilities := possibilities s;
                  workers := workers s;
                  doneClosed := true; mainAt := MClosed w |}
      | _ => Blocked
      end
  end.

(** The goroutines right after [main] has started them. *)
Definition started (c : config) : sys :=
  {| explorer := Explore.init; possibilities := [];
     workers := replicate (cpu c) WStart;
     doneClosed := false; mainAt := MWait |}.

(** [main] up to that point: [None] when it returns without searching. *)
Definition main (c : config) : outcome (option sys) :=
  _ ← checkPrefix (prefix c);
  if Strconv.HasPrefix (hash c) (prefix c) && negb (force c) then Ok None
  else if noBlankLine (obj c) then Fatal NoBlankLine
  else Ok (Some (started c)).

(** A schedule played from a state; [None] when one of its moves cannot
    be made or ends the process. *)
Fixpoint play (c : config) (s : sys) (ls : list label) : option sys :=
  match ls with
  | [] => Some s
  | l :: rest =>
      match step c s l with
      | Next s' => play c s' rest
      | _ => None
      end
  end.

(** The solutions [main] receives along a schedule. *)
Definition isDeliver (l : label) : bool :=
  match l with LDeliver _ => true | _ => false end.

Definition deliveries (ls : list label) : nat := length (filter isDeliver ls).

(** How far [main] is, as the number of solutions it has received. *)
Definition received (m : mthread) : nat :=
  match m with MWait => 0 | _ => 1 end.

End Coordinator.

(** ** Records used in the examples *)

Module Samples.

(** A commit whose two dates are 1000000000 (2001-09-09T01:46:40Z), the
    point below which the decimal rendering loses a digit. *)
Definition commitAtBillion : bytes := lit
"tree 4b825dc642cb6eb9a060e54bf8d69288fbee4904
author A U Thor <author@example.com> 1000000000 +0000
committer C O Mitter <committer@example.com> 1000000000 +0000

msg 6
".

(** A commit as [git cat-file -p] prints it, with a committer name and
    a message line that try the patterns. *)
Definition commitPlain : bytes := lit
"tree 4b825dc642cb6eb9a060e54bf8d69288fbee4904
author A U Thor <author@example.com> 1000000000 +0000
committer C O Mitter <c> o> 1000000000 -0700

author of this message > 12 +0100
".

(** A commit with a zero-padded author date, as old importers wrote
    them ([git fsck] calls it zeroPaddedDate). *)
Definition commitZeroPadded : bytes := lit
"tree 4b825dc642cb6eb9a060e54bf8d69288fbee4904
author A U Thor <author@example.com> 0999999999 +0000
committer C O Mitter <committer@example.com> 1000000000 +0000

msg
".

(** A commit of 2014 for which the first two candidates both give a
    digest that starts with 0. *)
Definition commitTwoMatches : bytes := lit
"tree 4b825dc642cb6eb9a060e54bf8d69288fbee4904
author A U Thor <author@example.com> 1400000000 +0000
committer C O Mitter <committer@example.com> 1400000000 +0000

msg 23
".

(** A worker on that commit, right after its initialisation. *)
Definition workerTwoMatches : Worker.worker :=
  Eval vm_compute in
    match Worker.initWorker commitTwoMatches 12 (lit "0") with
    | Ok w => w
    | _ => Worker.Worker (Slice [] 0) (Date 0 []) 0 (Date 0 []) 0 [] (Slice [] 0)
    end.

Definition twoWorkers : Coordinator.config :=
  {| Coordinator.prefix := lit "0";
     Coordinator.force := true;
     Coordinator.cpu := 2;
     Coordinator.hash := lit "0ccb7d16bad98ffdcecef7b1087ca6ecbb7a9a41";
     Coordinator.obj := commitTwoMatches;
     Coordinator.spare := 12 |}.

(** A schedule on which both workers find a solution before [main]
    takes the one of worker 1. *)
Definition raceSchedule : list Coordinator.label :=
  let e := Coordinator.LExplore in
  let w := Coordinator.LWorker in
  [e; e; e; e; w 0%nat; w 1%nat; w 0%nat; w 1%nat; w 0%nat; w 1%nat;
   w 0%nat; w 1%nat; Coordinator.LDeliver 1; Coordinator.LMain].

Definition raceEnd : Coordinator.sys :=
  Eval vm_compute in
    default (Coordinator.started twoWorkers)
            (Coordinator.play twoWorkers (Coordinator.started twoWorkers) raceSchedule).

End Samples.

(** ** The calls of [git] around the search *)

Module Git.

(** [curHash], given what [git rev-parse HEAD] printed: the output up to
    its first newline, when that newline is not the first byte. *)
Definition curHash (all : bytes) : bytes :=
  match Strconv.IndexByte all newline with
  | Some (S i) => take (S i) all
  | _ => all
  end.

(** [bytes.Index(obj, []byte("\n\n"))]: the offset of the first empty
    line, or [None] for [-1]. *)
Fixpoint indexBlankLine (s : bytes) : option nat :=
  match s with
  | a :: (b :: _) as rest =>
      if decide (a = newline ∧ b = newline) then Some O
      else S <$> indexBlankLine rest
  | _ => None
  end.

(** [msg := obj[i+2:]], after the test of [i]. *)
Definition message (obj : bytes) : outcome bytes :=
  match indexBlankLine obj with
  | None => Fatal NoBlankLine
  | Some i => Ok (drop (i + 2) obj)
  end.

(** An [exec.Cmd] as [main] sets it up: the arguments, the environment
    and the standard input. *)
Record command := Command {
  args : list bytes;
  env : list bytes;
  stdin : bytes
}.

(** The amending command for a solution; [environ] is [os.Environ()]. *)
Definition amend (environ : list bytes) (w : solution) (msg : bytes) : command :=
  {| args := [lit "git"; lit "commit"; lit "--allow-empty"; lit "--amend";
              lit "--date=" ++ date_String (author w); lit "--file=-"];
     env := environ ++ [lit "GIT_COMMITTER_DATE=" ++ date_String (committer w)];
     stdin := msg |}.

End Git.

(** ** Further sample values *)

Module Cases.

(** The worker of [Samples.workerTwoMatches] after the candidate
    [(0, 0)], which matches. *)
Definition workerAfterMatch : Worker.worker :=
  Eval vm_compute in
    match Worker.workLoop Samples.workerTwoMatches [Explore.Try 0 0] with
    | Ok (w, _) => w
    | _ => Samples.workerTwoMatches
    end.

Definition unshifted : solution :=
  Solution (Date 1400000000 (lit "+0000")) (Date 1400000000 (lit "+0000")).

(** A record without dates, as [git cat-file -p] prints a tree-less
    object that is no commit. *)
Definition noDates : Coordinator.config :=
  {| Coordinator.prefix := lit "bf";
     Coordinator.force := false;
     Coordinator.cpu := 1;
     Coordinator.hash := lit "0ccb7d16bad98ffdcecef7b1087ca6ecbb7a9a41";
     Coordinator.obj := lit
"object 4b825dc642cb6eb9a060e54bf8d69288fbee4904
type commit

msg
";
     Coordinator.spare := 12 |}.

End Cases.

(** The race of [Samples.raceSchedule], three loop tests of [explore]
    later. *)
Module Later.

Definition more : list Coordinator.label :=
  [Coordinator.LExplore; Coordinator.LExplore; Coordinator.LExplore].

Definition raceLater : Coordinator.sys :=
  Eval vm_compute in
    default Samples.raceEnd
            (Coordinator.play Samples.twoWorkers Samples.raceEnd more).

(** A schedule on which worker 0 has passed its [select] and is in the
    [default] branch when [main], served by worker 1, closes [done];
    then worker 0 goes on. *)
Definition closeSchedule : list Coordinator.label :=
  let e := Coordinator.LExplore in
  let w := Coordinator.LWorker in
  [e; e; e; e; w 0%nat; w 1%nat; w 0%nat; w 1%nat; w 0%nat; w 1%nat;
   w 1%nat; Coordinator.LDeliver 1; Coordinator.LMain].

Definition closedMidway : Coordinator.sys :=
  Eval vm_compute in
    default (Coordinator.started Samples.twoWorkers)
            (Coordinator.play Samples.twoWorkers
               (Coordinator.started Samples.twoWorkers) closeSchedule).

Definition lateSend : Coordinator.sys :=
  Eval vm_compute in
    default closedMidway
            (Coordinator.play Samples.twoWorkers closedMidway [Coordinator.LWorker 0]).

End Later.

(** ** Schedules, observed *)

Module Schedule.
Import Explore Worker Coordinator.

(** The candidate a move takes out of [possibilities]: a worker at its
    [range] receives the oldest one. *)
Definition takes (s : sys) (l : label) : list try :=
  match l with
  | LWorker i =>
      match workers s !! i, possibilities s with
      | Some (WRecv _), t :: _ => [t]
      | _, _ => []
      end
  | _ => []
  end.

(** The candidates the workers receive along a schedule, in the order
    of the receptions. *)
Fixpoint taken (c : config) (s : sys) (ls : list label) : list try :=
  match ls with
  | [] => []
  | l :: rest =>
      match step c s l with
      | Next s' => takes s l ++ taken c s' rest
      | _ => []
      end
  end.

(** A solution that an attempt of a worker of this search has given. *)
Definition found (c : config) (sol : solution) : Prop :=
  ∃ w0 w t w' hx,
    initWorker (obj c) (spare c) (prefix c) = Ok w0
    ∧ reaches w0 w
    ∧ attempt w t = Ok (w', hx, Some sol)
    ∧ hasHexPrefix (prefix c) (Sha1.sum (contents (blob w'))) = true.

(** What holds of every goroutine of a search under way. *)
Definition threadOk (c : config) (th : wthread) : Prop :=
  match th with
  | WRecv w | WSelect w _ | WTry w _ =>
      ∃ w0, initWorker (obj c) (spare c) (prefix c) = Ok w0 ∧ reaches w0 w
  | WSend sol => found c sol
  | _ => True
  end.

Definition sysOk (c : config) (s : sys) : Prop :=
  (∀ i th, workers s !! i = Some th → threadOk c th)
  ∧ (∀ sol, mainAt s = MGot sol ∨ mainAt s = MClosed sol → found c sol)
  ∧ (length (possibilities s) ≤ 512)%nat.

(** The schedule that only lets [explore] run. *)
Definition onlyExplore (k : nat) : list label := replicate k LExplore.

End Schedule.

(** * Properties *)

(** ** Machine integers *)

Ltac ints :=
  unfold inInt64, maxInt64, minInt64, maxUint64, wrapU64 in *;
  change (2 ^ 63) with 9223372036854775808 in *;
  change (2 ^ 64) with 18446744073709551616 in *;
  change (2 ^ 63)%N with 9223372036854775808%N in *;
  change (2 ^ 64)%N with 18446744073709551616%N in *;
  change (18446744073709551616 - 1)%N with 18446744073709551615%N in *.

Lemma wrap64_small (z : Z) : inInt64 z → wrap64 z = z.
Proof. intros H. unfold wrap64. ints. rewrite Z.mod_small; lia. Qed.

Lemma wrap64_range (z : Z) : inInt64 (wrap64 z).
Proof.
  unfold wrap64. ints.
  pose proof (Z.mod_pos_bound (z + 9223372036854775808) 18446744073709551616). lia.
Qed.

Lemma wrapU64_small (n : N) : (n <= maxUint64)%N → wrapU64 n = n.
Proof. intros H. ints. apply N.mod_small. lia. Qed.

Lemma wrapU64_over (n : N) :
  (maxUint64 < n)%N → (n < 2 * 18446744073709551616)%N →
  wrapU64 n = (n - 18446744073709551616)%N.
Proof.
  intros H1 H2. ints. symmetry.
  apply (N.mod_unique n 18446744073709551616 1); lia.
Qed.

Example hexInPlace_ex :
  contents <$> Hex.hexInPlace (Slice [x00; xbf; x1a; xff; x00; x00; x00; x00] 3)
  = Some (lit "00bf1a").
Proof. reflexivity. Qed.

(** ** Properties of the hex encoder *)

Module HexFacts.
Import Hex.

Lemma hexAt_hi (b : byte) : is_Some (hexAt (N.shiftr (byteN b) 4)).
Proof. destruct b; vm_compute; eauto. Qed.

Lemma hexAt_lo (b : byte) : is_Some (hexAt (N.land (byteN b) 0xf)).
Proof. destruct b; vm_compute; eauto. Qed.

Lemma hexPair_eq (b : byte) c1 c2 :
  hexAt (N.shiftr (byteN b) 4) = Some c1 →
  hexAt (N.land (byteN b) 0xf) = Some c2 →
  hexPair b = [c1; c2].
Proof. intros H1 H2. unfold hexPair. by rewrite H1, H2. Qed.

Lemma hexPair_length (b : byte) : length (hexPair b) = 2%nat.
Proof.
  destruct (hexAt_hi b) as [c1 H1], (hexAt_lo b) as [c2 H2].
  by rewrite (hexPair_eq b c1 c2).
Qed.

Lemma hexEncode_length (bs : bytes) : length (hexEncode bs) = (2 * length bs)%nat.
Proof.
  induction bs as [|b bs IH]; [done|].
  unfold hexEncode in *. cbn [flat_map]. rewrite length_app, hexPair_length, IH.
  cbn [length]. lia.
Qed.

Lemma hexEncode_snoc (bs : bytes) (b : byte) :
  hexEncode (bs ++ [b]) = hexEncode bs ++ hexPair b.
Proof. unfold hexEncode. rewrite flat_map_app. cbn. by rewrite app_nil_r. Qed.

(** The loop invariant: with [n] iterations left, cells [0..n) still hold
    the input and the loop turns the array into the encoding of those
    cells followed by what was already written above [2n]. *)
Lemma hexLoop_spec (vlen hlen : nat) (n : nat) (a : bytes) :
  (n ≤ vlen)%nat → (2 * n ≤ hlen)%nat → (hlen ≤ length a)%nat →
  hexLoop vlen hlen n a = Some (hexEncode (take n a) ++ drop (2 * n) a).
Proof.
  revert a. induction n as [|i IH]; intros a Hv Hh Ha.
  - cbn. by rewrite drop_0.
  - cbn [hexLoop]. unfold index, store. cbn [len arr].
    rewrite decide_True by lia.
    destruct (lookup_lt_is_Some_2 a i) as [b Hb]; [lia|].
    rewrite Hb. cbn [mbind option_bind].
    destruct (hexAt_hi b) as [c1 H1], (hexAt_lo b) as [c2 H2].
    rewrite H1. cbn [mbind option_bind]. rewrite decide_True by lia.
    cbn [mbind option_bind arr]. rewrite H2. cbn [mbind option_bind].
    rewrite decide_True by lia. cbn [mbind option_bind arr].
    rewrite IH by (rewrite ?length_insert; lia).
    f_equal.
    rewrite !take_insert_ge by lia.
    rewrite (take_S_r a i b Hb), hexEncode_snoc, (hexPair_eq b c1 c2 H1 H2).
    rewrite <- app_assoc. f_equal. cbn [app].
    replace (i * 2 + 0)%nat with (2 * i)%nat by lia.
    replace (i * 2 + 1)%nat with (S (2 * i))%nat by lia.
    apply list_eq. intros k.
    rewrite lookup_drop.
    destruct k as [|[|k]].
    + rewrite Nat.add_0_r, list_lookup_insert_ne by lia.
      by rewrite list_lookup_insert_eq by lia.
    + replace (2 * i + 1)%nat with (S (2 * i))%nat by lia.
      by rewrite list_lookup_insert_eq by (rewrite length_insert; lia).
    + rewrite !list_lookup_insert_ne by lia.
      change (a !! (2 * i + S (S k))%nat = drop (2 * S i) a !! k).
      rewrite lookup_drop. f_equal. lia.
Qed.

Lemma hexInPlace_spec (v : slice) :
  (2 * len v ≤ cap v)%nat →
  hexInPlace v
  = Some (Slice (hexEncode (contents v) ++ drop (2 * len v) (arr v)) (2 * len v)).
Proof.
  intros Hc. unfold hexInPlace, reslice, cap in *.
  rewrite decide_True by lia. cbn [mbind option_bind len arr].
  rewrite hexLoop_spec by lia. cbn [mbind option_bind].
  unfold contents. do 2 f_equal; lia.
Qed.

Lemma hexInPlace_panics (v : slice) :
  (cap v < 2 * len v)%nat → hexInPlace v = None.
Proof.
  intros Hc. unfold hexInPlace, reslice. by rewrite decide_False by lia.
Qed.

Lemma contents_app_exact (xs ys : bytes) (n : nat) :
  length xs = n → contents (Slice (xs ++ ys) n) = xs.
Proof. intros <-. unfold contents. cbn. by rewrite take_app_length. Qed.

Lemma hexPair_lower (b : byte) : forallb isLowerHex (hexPair b) = true.
Proof. destruct b; reflexivity. Qed.

Lemma hexEncode_lower (bs : bytes) : forallb isLowerHex (hexEncode bs) = true.
Proof.
  induction bs as [|b bs IH]; [done|].
  unfold hexEncode in *. cbn [flat_map].
  by rewrite forallb_app, hexPair_lower, IH.
Qed.

Lemma hexDecode_pair (b : byte) (r : bytes) :
  hexDecode (hexPair b ++ r) = (x ← hexDecode r; Some (b :: x)).
Proof. destruct b; reflexivity. Qed.

Lemma hexDecode_encode (bs : bytes) : hexDecode (hexEncode bs) = Some bs.
Proof.
  induction bs as [|b bs IH]; [done|].
  unfold hexEncode in *. cbn [flat_map]. by rewrite hexDecode_pair, IH.
Qed.

(** The encoding depends on the bytes of the slice alone, not on what
    lies behind them in the array. *)
Lemma hexInPlace_contents (v : slice) :
  (2 * len v ≤ cap v)%nat →
  contents <$> hexInPlace v = Some (hexEncode (contents v)).
Proof.
  intros Hc. rewrite hexInPlace_spec by done.
  cbn [fmap option_fmap option_map]. f_equal.
  apply contents_app_exact. rewrite hexEncode_length.
  unfold contents, cap in *. rewrite length_take. lia.
Qed.

(** C5.  For every byte buffer [b], held by a slice with room for the
    output, the hex encoder returns text of length [2 * len(b)], made of
    lowercase hexadecimal characters only, which decodes to [b] again;
    and the text is a function of [b] alone: any other slice holding the
    same bytes gives the same text. *)
Theorem hexInPlace_roundtrip (v : slice) :
  (2 * len v ≤ cap v)%nat →
  ∃ h, hexInPlace v = Some h
       ∧ length (contents h) = (2 * length (contents v))%nat
       ∧ forallb isLowerHex (contents h) = true
       ∧ hexDecode (contents h) = Some (contents v)
       ∧ ∀ v', contents v' = contents v → (2 * len v' ≤ cap v')%nat →
               contents <$> hexInPlace v' = Some (contents h).
Proof.
  intros Hc. pose proof (hexInPlace_contents v Hc) as Hh.
  destruct (hexInPlace v) as [h|]; [|done]. injection Hh as Hh.
  exists h. rewrite Hh. split_and!.
  - done.
  - apply hexEncode_length.
  - apply hexEncode_lower.
  - apply hexDecode_encode.
  - intros v' Hv' Hc'. by rewrite hexInPlace_contents, Hv'.
Qed.

Lemma hexInPlace_roundtrip_witness :
  ∃ h, hexInPlace (Slice [x00; xbf; x1a; xff; x00; x00; x00; x00] 3) = Some h
       ∧ contents h = lit "00bf1a".
Proof.
  destruct (hexInPlace_roundtrip (Slice [x00; xbf; x1a; xff; x00; x00; x00; x00] 3))
    as (h & Hh & _); [cbn; lia|].
  exists h. split; [exact Hh|].
  vm_compute in Hh. injection Hh as <-. reflexivity.
Defined.

(** C9.  [hexInPlace] needs a slice whose capacity is at least twice
    its length.  For every such slice the re-slicing [v[:len(v)*2]] and
    all index accesses of the loop are in bounds (the call does not
    panic), and since the loop runs from the highest index down, every
    input byte is read before its cell is overwritten: the returned
    slice has twice the length and its array holds the hex encoding of
    the original bytes, followed by the untouched rest of the array. *)
Theorem hexInPlace_in_place (v : slice) :
  (2 * len v ≤ cap v)%nat →
  hexInPlace v
  = Some (Slice (hexEncode (contents v) ++ drop (2 * len v) (arr v)) (2 * len v)).
Proof. apply hexInPlace_spec. Qed.

Lemma hexInPlace_in_place_witness :
  hexInPlace (Slice (lit "AB......") 2) = Some (Slice (lit "4142....") 4).
Proof.
  rewrite (hexInPlace_in_place (Slice (lit "AB......") 2)) by (cbn; lia).
  reflexivity.
Defined.

End HexFacts.

Example ParseInt_ex1 : Strconv.ParseInt (lit "1400000000") 10 = (1400000000, None).
Proof. reflexivity. Qed.
Example ParseInt_ex2 : Strconv.ParseInt (lit "-9223372036854775808") 10 = (minInt64, None).
Proof. reflexivity. Qed.
Example ParseInt_ex3 : Strconv.ParseInt (lit "9223372036854775808") 10 = (maxInt64, Some Strconv.ErrRange).
Proof. reflexivity. Qed.
Example ParseInt_ex4 : Strconv.ParseInt (lit "bf") 16 = (191, None).
Proof. reflexivity. Qed.
Example ParseInt_ex5 : Strconv.ParseInt (lit "0x1f") 16 = (0, Some Strconv.ErrSyntax).
Proof. reflexivity. Qed.
Example formatInt_ex1 : Strconv.formatInt (-9223372036854775808) = lit "-9223372036854775808".
Proof. reflexivity. Qed.
Example formatInt_ex2 : Strconv.formatInt 0 = lit "0".
Proof. reflexivity. Qed.
Example formatInt_ex3 : Strconv.formatInt 999999999 = lit "999999999".
Proof. reflexivity. Qed.

(** ** Properties of the exploration sequencer *)

Module ExploreFacts.
Import Explore.

(** The sequence of the comment above [explore]. *)
Example explore_run_ex :
  (run 15 init).1
  = [Try 0 0;
     Try 0 1; Try 1 0; Try 1 1;
     Try 0 2; Try 1 2; Try 2 0; Try 2 1; Try 2 2].
Proof. reflexivity. Qed.

Lemma exec_app s tr1 s1 tr2 s2 :
  exec s tr1 s1 → exec s1 tr2 s2 → exec s (tr1 ++ tr2) s2.
Proof.
  induction 1 as [|s o s' tr s1 Hs _ IH]; intros H2; [done|].
  rewrite <- app_assoc. eapply exec_step; eauto.
Qed.

Lemma exec_silent s s1 tr s2 : step s = (None, s1) → exec s1 tr s2 → exec s tr s2.
Proof. intros Hs H. exact (exec_step s None s1 tr s2 Hs H). Qed.

Lemma exec_send s t s1 tr s2 :
  step s = (Some t, s1) → exec s1 tr s2 → exec s (t :: tr) s2.
Proof. intros Hs H. exact (exec_step s (Some t) s1 tr s2 Hs H). Qed.

(** [run] and [exec] agree. *)
Lemma run_exec n s : exec s (run n s).1 (run n s).2.
Proof.
  revert s. induction n as [|n IH]; intros s; cbn [run]; [constructor|].
  destruct (step s) as [o s1] eqn:Hs.
  specialize (IH s1). destruct (run n s1) as [tr s2]. cbn in *.
  eapply exec_step; eauto.
Qed.

(** The machine is deterministic: of two runs from one state, one
    extends the other. *)
Lemma exec_det s tr1 s1 tr2 s2 :
  exec s tr1 s1 → exec s tr2 s2 →
  (∃ tr, exec s1 tr s2 ∧ tr2 = tr1 ++ tr) ∨ (∃ tr, exec s2 tr s1 ∧ tr1 = tr2 ++ tr).
Proof.
  intros H1. revert tr2 s2.
  induction H1 as [s|s o s' tr s1 Hs H1 IH]; intros tr2 s2 H2.
  - left. eauto.
  - destruct H2 as [s|s o2 s2' tr2 s2 Hs2 H2].
    + right. exists (option_list o ++ tr). split; [|done].
      eapply exec_step; eauto.
    + rewrite Hs in Hs2. injection Hs2 as <- <-.
      destruct (IH _ _ H2) as [(t & Ht & ->)|(t & Ht & ->)].
      * left. exists t. by rewrite <- app_assoc.
      * right. exists t. by rewrite <- app_assoc.
Qed.

(** The first inner loop from [i] on. *)
Lemma loopI_exec (m : Z) (n : nat) (i : Z) :
  0 <= m <= maxInt64 → 0 <= i → i + Z.of_nat n = m →
  exec (St m LoopI i) ((λ i, Try i m) <$> seqZ i (Z.of_nat n)) (St m LoopJ 0).
Proof.
  intros Hm. revert i. induction n as [|n IH]; intros i Hi Hn.
  - rewrite seqZ_nil by lia. eapply exec_silent; [|constructor].
    unfold step; cbn. rewrite wrap64_small by (ints; lia).
    destruct (Z.leb_spec i (m - 1)); [lia|done].
  - rewrite seqZ_cons by lia. cbn [fmap list_fmap].
    eapply exec_send.
    + unfold step; cbn. rewrite wrap64_small by (ints; lia).
      destruct (Z.leb_spec i (m - 1)); [|lia].
      rewrite wrap64_small by (ints; lia). done.
    + replace (Z.pred (Z.of_nat (S n))) with (Z.of_nat n) by lia.
      apply IH; lia.
Qed.

(** The second inner loop from [j] on, below the largest level. *)
Lemma loopJ_exec (m : Z) (n : nat) (j : Z) :
  0 <= m < maxInt64 → 0 <= j → j + Z.of_nat n = m + 1 →
  exec (St m LoopJ j) ((λ j, Try m j) <$> seqZ j (Z.of_nat n)) (St (m + 1) LoopI 0).
Proof.
  intros Hm. revert j. induction n as [|n IH]; intros j Hj Hn.
  - rewrite seqZ_nil by lia. eapply exec_silent; [|constructor].
    unfold step; cbn.
    destruct (Z.leb_spec j m); [lia|].
    rewrite wrap64_small by (ints; lia). done.
  - rewrite seqZ_cons by lia. cbn [fmap list_fmap].
    eapply exec_send.
    + unfold step; cbn.
      destruct (Z.leb_spec j m); [|lia].
      rewrite wrap64_small by (ints; lia). done.
    + replace (Z.pred (Z.of_nat (S n))) with (Z.of_nat n) by lia.
      apply IH; lia.
Qed.

Lemma level_exec (m : Z) :
  0 <= m < maxInt64 → exec (St m LoopI 0) (levelPairs m) (St (m + 1) LoopI 0).
Proof.
  intros Hm. unfold levelPairs. eapply exec_app.
  - pose proof (loopI_exec m (Z.to_nat m) 0) as H.
    rewrite Z2Nat.id in H by lia. apply H; lia.
  - pose proof (loopJ_exec m (Z.to_nat (m + 1)) 0) as H.
    rewrite Z2Nat.id in H by lia. apply H; lia.
Qed.

Lemma below_succ (m : Z) : 0 <= m → below (m + 1) = below m ++ levelPairs m.
Proof.
  intros Hm. unfold below. rewrite seqZ_app by lia.
  rewrite bind_app. f_equal. rewrite seqZ_cons, seqZ_nil by lia. cbn.
  by rewrite app_nil_r.
Qed.

Lemma below_exec (m : Z) :
  0 <= m <= maxInt64 → exec init (below m) (St m LoopI 0).
Proof.
  intros [Hm Hle]. revert Hle. pattern m. apply natlike_ind; [| |done].
  - intros _. constructor.
  - clear m Hm. intros m Hm IH Hle.
    replace (Z.succ m) with (m + 1) by lia.
    rewrite below_succ by done. eapply exec_app; [apply IH; lia|].
    apply level_exec. lia.
Qed.

Lemma sent_below_level (m : Z) :
  0 <= m < maxInt64 → sent (below m ++ levelPairs m).
Proof.
  intros Hm. exists (St (m + 1) LoopI 0).
  eapply exec_app; [apply below_exec; lia|by apply level_exec].
Qed.

Lemma elem_of_levelPairs (m : Z) (t : try) :
  t ∈ levelPairs m ↔
  (0 <= commitBehind t < m ∧ authorBehind t = m)
  ∨ (commitBehind t = m ∧ 0 <= authorBehind t <= m).
Proof.
  unfold levelPairs. rewrite elem_of_app, !list_elem_of_fmap.
  setoid_rewrite elem_of_seqZ. destruct t as [c a]; cbn. split.
  - intros [(i & [= -> ->] & Hi)|(j & [= -> ->] & Hj)]; lia.
  - intros [[Hc ->]|[-> Ha]]; [left; exists c|right; exists a]; split; (done || lia).
Qed.

Lemma levelPairs_length (m : Z) :
  0 <= m → Z.of_nat (length (levelPairs m)) = 2 * m + 1.
Proof.
  intros Hm. unfold levelPairs.
  rewrite length_app, !length_fmap, !length_seqZ. lia.
Qed.

Lemma levelPairs_max (m : Z) (t : try) :
  t ∈ levelPairs m →
  0 <= commitBehind t ∧ 0 <= authorBehind t
  ∧ Z.max (commitBehind t) (authorBehind t) = m.
Proof. rewrite elem_of_levelPairs. lia. Qed.

Lemma levelPairs_NoDup (m : Z) : NoDup (levelPairs m).
Proof.
  unfold levelPairs. apply NoDup_app. split_and!.
  - apply NoDup_fmap_2; [|apply NoDup_seqZ]. by intros i j [= ->].
  - intros t. rewrite !list_elem_of_fmap. setoid_rewrite elem_of_seqZ.
    intros (i & -> & Hi) (j & [= -> ->] & Hj). lia.
  - apply NoDup_fmap_2; [|apply NoDup_seqZ]. by intros i j [= ->].
Qed.

Lemma below_NoDup (m : Z) : NoDup (below m).
Proof.
  unfold below. apply NoDup_bind; [| |apply NoDup_seqZ].
  - intros m1 m2 t H1 H2 Ht1 Ht2.
    apply elem_of_seqZ in H1, H2.
    apply levelPairs_max in Ht1, Ht2. lia.
  - intros. apply levelPairs_NoDup.
Qed.

Lemma elem_of_below (m : Z) (t : try) :
  t ∈ below m ↔
  0 <= commitBehind t ∧ 0 <= authorBehind t
  ∧ Z.max (commitBehind t) (authorBehind t) < m.
Proof.
  unfold below. rewrite list_elem_of_bind. setoid_rewrite elem_of_seqZ.
  setoid_rewrite elem_of_levelPairs. split.
  - intros (k & Hk & Hm). lia.
  - intros Ht. exists (Z.max (commitBehind t) (authorBehind t)). lia.
Qed.

(** The second inner loop at the largest level: [j <= max] holds for
    every [int], so once [j] has passed [max] it wraps around and the
    loop goes on with negative [j]. *)
Lemma loopJ_top_exec (n : nat) (j : Z) :
  0 <= j → j + Z.of_nat n = maxInt64 →
  exec (St maxInt64 LoopJ j)
       ((λ j, Try maxInt64 j) <$> seqZ j (Z.of_nat n))
       (St maxInt64 LoopJ maxInt64).
Proof.
  revert j. induction n as [|n IH]; intros j Hj Hn.
  - rewrite seqZ_nil by lia. replace j with maxInt64 by lia. constructor.
  - rewrite seqZ_cons by lia. cbn [fmap list_fmap].
    eapply exec_send.
    + unfold step; cbn.
      destruct (Z.leb_spec j maxInt64); [|lia].
      rewrite wrap64_small by (ints; lia). done.
    + replace (Z.pred (Z.of_nat (S n))) with (Z.of_nat n) by lia.
      apply IH; lia.
Qed.

Lemma top_level_wraps :
  exec (St maxInt64 LoopJ maxInt64)
       [Try maxInt64 maxInt64; Try maxInt64 minInt64]
       (St maxInt64 LoopJ (minInt64 + 1)).
Proof.
  eapply exec_send; [reflexivity|].
  eapply exec_send; [reflexivity|]. constructor.
Qed.

(** Whatever [explore] has sent is a prefix of any longer run. *)
Lemma sent_prefix (tr : list try) (tr' : list try) (s' : state) :
  sent tr → exec init tr' s' → (length tr ≤ length tr')%nat → tr `prefix_of` tr'.
Proof.
  intros [s Hs] Hs' Hlen.
  destruct (exec_det _ _ _ _ _ Hs Hs') as [(k & _ & ->)|(k & _ & ->)].
  - by exists k.
  - rewrite length_app in Hlen. destruct k; [|cbn in Hlen; lia].
    rewrite app_nil_r. done.
Qed.

(** C2, as the code has it.  For every level [m] below the largest
    [int] ([0 <= m < 2^63 - 1]), [explore] sends, right after all pairs
    of the levels below [m], first [(i, m)] for [i = 0 .. m-1] and then
    [(m, j)] for [j = 0 .. m]: [2m+1] pairs, each with coordinates that
    are not negative and of maximum [m]; no pair occurs twice among all
    pairs sent up to there, and every shorter run of [explore] has sent
    a prefix of them. *)
Theorem explore_levels (m : Z) :
  0 <= m < maxInt64 →
  exec init (below m) (St m LoopI 0)
  ∧ exec (St m LoopI 0) (levelPairs m) (St (m + 1) LoopI 0)
  ∧ Z.of_nat (length (levelPairs m)) = 2 * m + 1
  ∧ (∀ t, t ∈ levelPairs m →
          0 <= commitBehind t ∧ 0 <= authorBehind t
          ∧ Z.max (commitBehind t) (authorBehind t) = m)
  ∧ NoDup (below m ++ levelPairs m)
  ∧ ∀ tr, sent tr → (length tr ≤ length (below m ++ levelPairs m))%nat →
          tr `prefix_of` (below m ++ levelPairs m).
Proof.
  intros Hm. split_and!.
  - apply below_exec. lia.
  - by apply level_exec.
  - apply levelPairs_length. lia.
  - apply levelPairs_max.
  - rewrite <- below_succ by lia. apply below_NoDup.
  - intros tr Htr Hlen. destruct (sent_below_level m Hm) as [s Hs].
    by eapply sent_prefix.
Qed.

Lemma explore_levels_witness :
  exec (St 2 LoopI 0)
       [Try 0 2; Try 1 2; Try 2 0; Try 2 1; Try 2 2] (St 3 LoopI 0).
Proof.
  assert (0 <= 2 < maxInt64) as H by (unfold maxInt64; lia).
  exact (proj1 (proj2 (explore_levels 2 H))).
Defined.

(** C2 as stated fails at the largest level: [j <= max] holds for
    every [int] when [max] is [2^63 - 1], so after [(max, max)] the
    counter [j] wraps around and [explore] sends [(2^63 - 1, -2^63)], a
    pair with a negative coordinate. *)
Lemma explore_wraps_at_top_level :
  ∃ tr, sent tr ∧ ∃ t, t ∈ tr ∧ authorBehind t < 0.
Proof.
  exists (below maxInt64
          ++ ((λ i, Try i maxInt64) <$> seqZ 0 maxInt64)
          ++ ((λ j, Try maxInt64 j) <$> seqZ 0 maxInt64)
          ++ [Try maxInt64 maxInt64; Try maxInt64 minInt64]).
  split.
  - exists (St maxInt64 LoopJ (minInt64 + 1)).
    eapply exec_app; [apply below_exec; unfold maxInt64; lia|].
    eapply exec_app.
    { pose proof (loopI_exec maxInt64 (Z.to_nat maxInt64) 0) as H.
      rewrite Z2Nat.id in H by (unfold maxInt64; lia).
      apply H; unfold maxInt64; lia. }
    eapply exec_app; [|apply top_level_wraps].
    pose proof (loopJ_top_exec (Z.to_nat maxInt64) 0) as H.
    rewrite Z2Nat.id in H by (unfold maxInt64; lia).
    apply H; unfold maxInt64; lia.
  - exists (Try maxInt64 minInt64). split; [|done].
    rewrite !elem_of_app. do 3 right. apply elem_of_cons. right. apply elem_of_cons. by left.
Qed.

End ExploreFacts.


(** ** Properties of the number conversions *)

Module StrconvFacts.
Import Strconv.

Lemma valOf_cons (base : N) (c : byte) (s : bytes) (acc : N) :
  valOf base (c :: s) acc = valOf base s (acc * base + default 0 (digitOf c))%N.
Proof. reflexivity. Qed.

Lemma valOf_nil (base : N) (acc : N) : valOf base [] acc = acc.
Proof. reflexivity. Qed.

Lemma valOf_app (base : N) (s1 s2 : bytes) (acc : N) :
  valOf base (s1 ++ s2) acc = valOf base s2 (valOf base s1 acc).
Proof. unfold valOf. by rewrite fold_left_app. Qed.

Lemma valOf_ge (base : N) (s : bytes) (acc : N) :
  (1 <= base)%N → (acc <= valOf base s acc)%N.
Proof.
  intros Hb. revert acc. induction s as [|c s IH]; intros acc; [done|].
  rewrite valOf_cons. etrans; [|apply IH]. nia.
Qed.

(** The loop of [ParseUint] succeeds exactly on digit strings whose value
    fits in 64 bits, and then returns that value. *)
Lemma parseLoop_spec (base : N) (s : bytes) (n v : N) :
  (base = 10 ∨ base = 16)%N → (n <= maxUint64)%N →
  parseLoop base s n = (v, None)
  ↔ Forall (isDigit base) s ∧ (valOf base s n <= maxUint64)%N ∧ v = valOf base s n.
Proof.
  intros Hb. revert n v. induction s as [|c rest IH]; intros n v Hn.
  { cbn. split; [intros [= ->]|intros (_ & _ & ->)]; done. }
  cbn [parseLoop]. rewrite valOf_cons.
  destruct (digitOf c) as [d|] eqn:Hd.
  2: { split; [done|]. intros (HF & _).
       inversion HF as [|? ? (d & Hd' & _)]; congruence. }
  change (default 0%N (Some d)) with d.
  destruct (N.leb_spec base d) as [Hbd|Hbd].
  { split; [done|]. intros (HF & _).
    inversion HF as [|? ? (d' & Hd' & Hlt)]; subst.
    rewrite Hd in Hd'. injection Hd' as <-. lia. }
  assert (1 <= base)%N as Hb1 by lia.
  pose proof (valOf_ge base rest (n * base + d) Hb1) as Hge.
  assert (Forall (isDigit base) (c :: rest) ↔ Forall (isDigit base) rest) as HF.
  { rewrite Forall_cons. split; [tauto|]. intros ?. split; [|done]. by exists d. }
  rewrite HF. clear HF.
  destruct (N.leb_spec (maxUint64 / base + 1) n) as [Hcut|Hcut].
  { split; [done|]. intros (_ & Hle & _). exfalso.
    destruct Hb as [-> | ->]; vm_compute (_ / _ + 1)%N in Hcut; ints; lia. }
  assert (n * base <= maxUint64)%N as Hnb.
  { destruct Hb as [-> | ->]; vm_compute (_ / _ + 1)%N in Hcut; ints; lia. }
  rewrite (wrapU64_small (n * base)) by done.
  destruct (N.le_gt_cases (n * base + d) maxUint64) as [Hfit|Hover].
  - rewrite (wrapU64_small (n * base + d)) by done.
    destruct (N.ltb_spec (n * base + d) (n * base)); [lia|].
    destruct (N.ltb_spec maxUint64 (n * base + d)); [lia|].
    cbn [orb]. by apply IH.
  - rewrite (wrapU64_over (n * base + d)) by (ints; lia).
    destruct (N.ltb_spec (n * base + d - 18446744073709551616) (n * base)) as [_|Hx];
      [|ints; lia].
    cbn [orb]. split; [done|]. intros (_ & Hle & _). lia.
Qed.

Lemma parseLoop_range (base : N) (s : bytes) (n un : N) :
  parseLoop base s n = (un, Some ErrRange) → un = maxUint64.
Proof.
  revert n. induction s as [|c rest IH]; intros n; cbn [parseLoop]; [done|].
  destruct (digitOf c) as [d|]; [|done].
  repeat case_match; try done; try (by intros [= <-]). apply IH.
Qed.

Lemma ParseUint_spec (base : N) (s : bytes) (v : N) :
  (base = 10 ∨ base = 16)%N →
  ParseUint s base = (v, None)
  ↔ s ≠ [] ∧ Forall (isDigit base) s
    ∧ (valOf base s 0 <= maxUint64)%N ∧ v = valOf base s 0.
Proof.
  intros Hb. destruct s as [|c rest].
  - cbn. split; [done|]. by intros [? _].
  - unfold ParseUint. rewrite parseLoop_spec by (done || (ints; lia)).
    split; [intros ?; split; done|tauto].
Qed.

Lemma ParseUint_range (base : N) (s : bytes) (un : N) :
  ParseUint s base = (un, Some ErrRange) → un = maxUint64.
Proof. destruct s; [done|]. apply parseLoop_range. Qed.

Lemma isDigit_not_sign (base : N) (c : byte) (s : bytes) :
  Forall (isDigit base) (c :: s) → c ≠ "+"%byte ∧ c ≠ "-"%byte.
Proof.
  intros HF. inversion HF as [|? ? (d & Hd & _)]; subst.
  split; intros ->; done.
Qed.

(** What [ParseInt] accepts, and what it returns then: an optional sign
    and a nonempty digit string of a value below [2^63], or a minus sign
    and a value up to [2^63]. *)
Lemma ParseInt_spec (base : N) (s : bytes) (v : Z) :
  (base = 10 ∨ base = 16)%N →
  ParseInt s base = (v, None)
  ↔ (∃ ds, (s = ds ∨ s = "+"%byte :: ds) ∧ ds ≠ [] ∧ Forall (isDigit base) ds
           ∧ (valOf base ds 0 < 2 ^ 63)%N ∧ v = Z.of_N (valOf base ds 0))
    ∨ (∃ ds, s = "-"%byte :: ds ∧ ds ≠ [] ∧ Forall (isDigit base) ds
             ∧ (valOf base ds 0 <= 2 ^ 63)%N ∧ v = - Z.of_N (valOf base ds 0)).
Proof.
  intros Hb.
  assert (∀ neg ds,
    (let '(un, e) := ParseUint ds base in
     match e with
     | Some ErrSyntax => (0, Some ErrSyntax)
     | _ =>
       if negb neg && (2 ^ 63 <=? un)%N then (Z.of_N (2 ^ 63) - 1, Some ErrRange)
       else if neg && (2 ^ 63 <? un)%N then (- Z.of_N (2 ^ 63), Some ErrRange)
       else (if neg then wrap64 (- wrap64 (Z.of_N un)) else wrap64 (Z.of_N un), None)
     end) = (v, None)
    ↔ ds ≠ [] ∧ Forall (isDigit base) ds
      ∧ (valOf base ds 0 < 2 ^ 63 + (if neg then 1 else 0))%N
      ∧ v = (if neg then - Z.of_N (valOf base ds 0) else Z.of_N (valOf base ds 0)))
    as Hcore.
  { intros neg ds. destruct (ParseUint ds base) as [un e] eqn:HU.
    destruct e as [[|]|].
    - split; [done|]. intros (Hne & HF & Hlt & _).
      assert (ParseUint ds base = (valOf base ds 0, None)) as HU'
        by (apply ParseUint_spec; [done|]; split_and!; try done; ints; destruct neg; lia).
      congruence.
    - pose proof (ParseUint_range _ _ _ HU) as ->.
      destruct neg; cbn; (split; [done|]).
      all: intros (Hne & HF & Hlt & _).
      all: assert (ParseUint ds base = (valOf base ds 0, None)) as HU'
        by (apply ParseUint_spec; [done|]; split_and!; try done; ints; lia).
      all: congruence.
    - apply ParseUint_spec in HU as (Hne & HF & Hle & ->); [|done].
      destruct neg; cbn [negb andb].
      + destruct (N.ltb_spec (2 ^ 63) (valOf base ds 0)) as [Hlt|Hge].
        * split; [done|]. intros (_ & _ & ? & _). ints; lia.
        * split.
          -- intros [= <-]. split_and!; try done; [ints; lia|].
             destruct (decide (valOf base ds 0 = 2 ^ 63)%N) as [->|Hne2].
             ++ reflexivity.
             ++ rewrite (wrap64_small (Z.of_N _)) by (ints; lia).
                rewrite wrap64_small by (ints; lia). done.
          -- intros (_ & _ & _ & ->). f_equal.
             destruct (decide (valOf base ds 0 = 2 ^ 63)%N) as [->|Hne2].
             ++ reflexivity.
             ++ rewrite (wrap64_small (Z.of_N _)) by (ints; lia).
                rewrite wrap64_small by (ints; lia). done.
      + destruct (N.leb_spec (2 ^ 63) (valOf base ds 0)) as [Hlt|Hge].
        * split; [done|]. intros (_ & _ & ? & _). ints; lia.
        * rewrite wrap64_small by (ints; lia).
          split; [intros [= <-]|intros (_ & _ & _ & ->)]; [|done].
          split_and!; try done; ints; lia. }
  destruct s as [|c rest].
  { cbn. split; [done|]. intros [(ds & [<-|?] & ? & _)|(ds & ? & _)]; done. }
  unfold ParseInt.
  destruct (decide (c = "+"%byte)) as [->|Hplus].
  { rewrite (Hcore false rest). split.
    - intros (? & ? & ? & ->). left. exists rest.
      split_and!; try done; try (by right); ints; lia.
    - intros [(ds & [<-|[= <-]] & Hne & HF & Hlt & ->)|(ds & [=] & _)].
      + by apply isDigit_not_sign in HF as [? _].
      + split_and!; try done; ints; lia. }
  destruct (decide (c = "-"%byte)) as [->|Hminus].
  { rewrite (Hcore true rest). split.
    - intros (? & ? & ? & ->). right. exists rest.
      split_and!; try done; ints; lia.
    - intros [(ds & [<-|[=]] & Hne & HF & Hlt & ->)|(ds & [= <-] & Hne & HF & Hlt & ->)].
      + by apply isDigit_not_sign in HF as [_ ?].
      + split_and!; try done; ints; lia. }
  rewrite (Hcore false (c :: rest)). split.
  - intros (? & ? & ? & ->). left. exists (c :: rest).
    split_and!; try done; try (by left); ints; lia.
  - intros [(ds & [<-|[= ? _]] & Hne & HF & Hlt & ->)|(ds & [= ? _] & _)]; try done.
    all: split_and!; try done; ints; lia.
Qed.

(** *** Decimal text *)

Lemma digitsAux_acc (f : nat) (u : N) (acc : bytes) :
  digitsAux f u acc = digitsAux f u [] ++ acc.
Proof.
  revert u acc. induction f as [|f IH]; intros u acc; [done|].
  cbn [digitsAux]. destruct (u <? 10)%N; [done|].
  rewrite IH, (IH _ [_]), <- app_assoc. done.
Qed.

Lemma digitsAux_fuel (f1 f2 : nat) (u : N) (acc : bytes) :
  (u < 2 ^ N.of_nat f1)%N → (u < 2 ^ N.of_nat f2)%N →
  (1 ≤ f1)%nat → (1 ≤ f2)%nat →
  digitsAux f1 u acc = digitsAux f2 u acc.
Proof.
  revert f2 u acc. induction f1 as [|f1 IH]; intros f2 u acc H1 H2 Hf1 Hf2; [lia|].
  destruct f2 as [|f2]; [lia|]. cbn [digitsAux].
  destruct (N.ltb_spec u 10) as [|Hu]; [done|].
  rewrite Nat2N.inj_succ, N.pow_succ_r' in H1, H2.
  assert (u / 10 <= u / 2)%N as Hdiv.
  { apply N.div_le_compat_l. lia. }
  assert (u / 2 < 2 ^ N.of_nat f1)%N by (apply N.Div0.div_lt_upper_bound; lia).
  assert (u / 2 < 2 ^ N.of_nat f2)%N by (apply N.Div0.div_lt_upper_bound; lia).
  apply IH; try lia.
  - destruct f1; [cbn in *; lia|lia].
  - destruct f2; [cbn in *; lia|lia].
Qed.

Lemma fuel_enough (u : N) : (u < 2 ^ N.of_nat (S (N.to_nat (N.log2 u))))%N.
Proof.
  rewrite Nat2N.inj_succ, N2Nat.id.
  destruct (decide (u = 0%N)) as [->|Hu]; [done|].
  apply N.log2_spec. lia.
Qed.

Lemma formatUint_small (u : N) : (u < 10)%N → formatUint u = [dchar u].
Proof.
  intros Hu. unfold formatUint. cbn [digitsAux].
  destruct (N.ltb_spec u 10); [|lia]. by rewrite N.mod_small.
Qed.

Lemma formatUint_step (u : N) :
  (10 <= u)%N → formatUint u = formatUint (u / 10) ++ [dchar (u mod 10)].
Proof.
  intros Hu. unfold formatUint at 1. cbn [digitsAux].
  destruct (N.ltb_spec u 10); [lia|].
  rewrite digitsAux_acc. f_equal. unfold formatUint.
  pose proof (fuel_enough u) as Hf. pose proof (fuel_enough (u / 10)) as Hf'.
  rewrite Nat2N.inj_succ, N.pow_succ_r' in Hf.
  assert (u / 10 <= u / 2)%N by (apply N.div_le_compat_l; lia).
  assert (u / 2 < 2 ^ N.of_nat (N.to_nat (N.log2 u)))%N
    by (apply N.Div0.div_lt_upper_bound; lia).
  apply digitsAux_fuel; try lia.
  destruct (N.to_nat (N.log2 u)); [cbn in *; lia|lia].
Qed.

Lemma formatUint_snoc (v d : N) :
  (1 <= v)%N → (d < 10)%N → formatUint (v * 10 + d) = formatUint v ++ [dchar d].
Proof.
  intros Hv Hd. rewrite formatUint_step by lia. f_equal.
  - f_equal. symmetry. apply (N.div_unique _ 10 v d); lia.
  - do 2 f_equal. symmetry. apply (N.mod_unique _ 10 v d); lia.
Qed.

Lemma decimal_char (c : byte) :
  (48 <= byteN c <= 57)%N →
  digitOf c = Some (byteN c - 48)%N ∧ dchar (byteN c - 48) = c.
Proof. destruct c; vm_compute; (done || (intros [H1 H2]; by destruct H1 + destruct H2)). Qed.

Lemma decimal_isDigit (s : bytes) :
  Forall (λ c, 48 <= byteN c <= 57)%N s → Forall (isDigit 10) s.
Proof.
  intros H. eapply Forall_impl; [exact H|]. intros c Hc. cbn beta in Hc.
  exists (byteN c - 48)%N.
  split; [by apply decimal_char|lia].
Qed.

Lemma canonicalUint_head (c : byte) (s : bytes) :
  canonicalUint (c :: s) → c :: s ≠ ["0"%byte] → (1 <= valOf 10 (c :: s) 0)%N.
Proof.
  intros (_ & HF & Hz) Hne. rewrite valOf_cons.
  etrans; [|apply valOf_ge; lia].
  apply Forall_cons in HF as [Hc _].
  destruct (decimal_char c Hc) as [-> _]. cbn [default from_option id].
  destruct (decide (c = "0"%byte)) as [->|Hc0]; [by specialize (Hz eq_refl)|].
  assert (byteN c ≠ 48%N); [|unfold id; lia].
  intros Heq. apply Hc0. by destruct c.
Qed.

(** Formatting the value of canonical decimal text gives the text back. *)
Lemma formatUint_valOf (s : bytes) :
  canonicalUint s → formatUint (valOf 10 s 0) = s.
Proof.
  induction s as [|c s' IH] using rev_ind; [by intros [? _]|].
  intros Hcan. pose proof Hcan as (_ & HF & Hz).
  apply Forall_app in HF as [HF' Hc]. rewrite Forall_singleton in Hc.
  destruct (decimal_char c Hc) as [Hd Hdc].
  rewrite valOf_app, valOf_cons, valOf_nil, Hd.
  change (default 0%N (Some ?x)) with x.
  destruct s' as [|c0 s0].
  - rewrite valOf_nil, N.mul_0_l, N.add_0_l.
    rewrite formatUint_small by lia. by rewrite Hdc.
  - assert (canonicalUint (c0 :: s0)) as Hcan'.
    { split_and!; [done|done|]. intros [= ->].
      specialize (Hz eq_refl). by destruct s0. }
    assert (c0 :: s0 ≠ ["0"%byte]) as Hne.
    { intros [= -> ->]. by specialize (Hz eq_refl). }
    rewrite formatUint_snoc; [|by apply canonicalUint_head|lia].
    by rewrite IH, Hdc.
Qed.

(** [ParseInt] followed by [formatInt] is the identity on canonical
    decimal text. *)
Lemma formatInt_ParseInt (s : bytes) (v : Z) :
  canonicalInt s → ParseInt s 10 = (v, None) → formatInt v = s.
Proof.
  intros Hcan HP. apply ParseInt_spec in HP; [|by left].
  destruct Hcan as [Hcan|(ds & -> & Hcan & Hnz)].
  - pose proof Hcan as (Hne & HF & _).
    destruct s as [|c s']; [done|].
    pose proof (isDigit_not_sign 10 c s' (decimal_isDigit _ HF)) as [Hp Hm].
    destruct HP as [(ds & [<-|[= ? _]] & _ & _ & _ & ->)|(ds & [= ? _] & _)]; try done.
    unfold formatInt. destruct (Z.ltb_spec (Z.of_N (valOf 10 (c :: s') 0)) 0); [lia|].
    rewrite N2Z.id. by apply formatUint_valOf.
  - pose proof Hcan as (Hne & HF & _).
    destruct ds as [|c s']; [done|].
    pose proof (isDigit_not_sign 10 c s' (decimal_isDigit _ HF)) as [Hp Hm].
    pose proof (canonicalUint_head c s' Hcan Hnz) as Hpos.
    destruct HP as [(ds & [<-|[= ? _]] & _ & HF' & _ & _)|(ds & [= <-] & _ & _ & _ & ->)].
    + by apply isDigit_not_sign in HF' as [_ ?].
    + unfold formatInt. destruct (Z.ltb_spec (- Z.of_N (valOf 10 (c :: s') 0)) 0); [|lia].
      rewrite Z.opp_involutive, N2Z.id. f_equal. by apply formatUint_valOf.
Qed.

(** *** Hexadecimal text *)

Lemma isDigit_bool (base : N) (c : byte) :
  isDigit base c
  ↔ match digitOf c with Some d => (d <? base)%N | None => false end = true.
Proof.
  unfold isDigit. destruct (digitOf c) as [d|].
  - rewrite N.ltb_lt. split; [by intros (? & [= <-] & ?)|eauto].
  - split; [by intros (? & ? & _)|done].
Qed.

Lemma isDigit_hex (c : byte) : isDigit 16 c ↔ isHexDigit c = true.
Proof. rewrite isDigit_bool. by destruct c. Qed.

Lemma Forall_isDigit_hex (s : bytes) :
  Forall (isDigit 16) s ↔ forallb isHexDigit s = true.
Proof.
  rewrite forallb_forall, Forall_forall.
  setoid_rewrite isDigit_hex. by setoid_rewrite list_elem_of_In.
Qed.

Lemma valOf_lower (base : N) (s : bytes) (acc : N) :
  (acc * base ^ N.of_nat (length s) <= valOf base s acc)%N.
Proof.
  revert acc. induction s as [|c s IH]; intros acc.
  - cbn. lia.
  - rewrite valOf_cons. cbn [length]. rewrite Nat2N.inj_succ, N.pow_succ_r'.
    etrans; [|apply IH]. nia.
Qed.

(** A hex-digit string of more than 16 digits that does not start with
    [0] denotes [2^64] or more. *)
Lemma long_hex_value (c : byte) (rest : bytes) :
  isHexDigit c = true → c ≠ "0"%byte → (16 ≤ length rest)%nat →
  (2 ^ 64 <= valOf 16 (c :: rest) 0)%N.
Proof.
  intros Hc Hnz Hlen. rewrite valOf_cons.
  etrans; [|apply valOf_lower].
  assert (1 <= 0 * 16 + default 0 (digitOf c))%N as H1.
  { destruct c; try done. }
  assert (16 ^ 16 <= 16 ^ N.of_nat (length rest))%N as H2.
  { apply N.pow_le_mono_r; lia. }
  change (16 ^ 16)%N with (2 ^ 64)%N in H2. nia.
Qed.

End StrconvFacts.

(** ** SHA-1 test vectors *)

Module Sha1Facts.

Example sha1_abc :
  Hex.hexEncode (Sha1.sum (lit "abc")) = lit "a9993e364706816aba3e25717850c26c9cd0d89d".
Proof. vm_compute. reflexivity. Qed.

Example sha1_empty :
  Hex.hexEncode (Sha1.sum []) = lit "da39a3ee5e6b4b0d3255bfef95601890afd80709".
Proof. vm_compute. reflexivity. Qed.

Example sha1_two_blocks :
  Hex.hexEncode
    (Sha1.sum (lit "abcdbcdecdefdefgefghfghighijhijkijkljklmklmnlmnomnopnopq"))
  = lit "84983e441c3bd26ebaae4aa1f95129e5e54670f1".
Proof. vm_compute. reflexivity. Qed.

Lemma sum_length (msg : bytes) : length (Sha1.sum msg) = Sha1.Size.
Proof.
  unfold Sha1.sum.
  destruct (Sha1.blocks _ _ _) as [[[[h0 h1] h2] h3] h4]. reflexivity.
Qed.

End Sha1Facts.

(** ** Properties of the matcher *)

Module RegexpFacts.
Import Regexp.

(** [dotPlus] consumes at least one byte, none of them a newline, and
    hands the rest to its continuation. *)
Lemma dotPlus_inv (k : K) (s : bytes) (pos : nat) (r : nat * nat) :
  dotPlus k s pos = Some r →
  ∃ run rest,
    s = run ++ rest ∧ run ≠ [] ∧ (newline ∉ run)
    ∧ k rest (pos + length run)%nat = Some r.
Proof.
  revert pos. induction s as [|c s IH]; intros pos; cbn [dotPlus]; [done|].
  destruct (decide (c = newline)) as [|Hc]; [done|].
  destruct (dotPlus k s (S pos)) as [r'|] eqn:Hrec.
  - intros [= ->]. destruct (IH _ Hrec) as (run & rest & -> & Hne & Hnl & Hk).
    exists (c :: run), rest. split_and!; [done|done| |].
    + rewrite not_elem_of_cons. done.
    + cbn [length]. by replace (pos + S (length run))%nat with (S pos + length run)%nat by lia.
  - intros Hk. exists [c], s. split_and!; [done|done| |].
    + rewrite not_elem_of_cons. split; [done|]. apply not_elem_of_nil.
    + cbn [length]. by replace (pos + 1)%nat with (S pos) by lia.
Qed.

(** [dotPlus] is greedy: it takes the longest run after which its
    continuation succeeds. *)
Lemma dotPlus_longest (k : K) (s : bytes) (pos : nat) (r : nat * nat) :
  dotPlus k s pos = Some r →
  ∃ run rest,
    s = run ++ rest ∧ run ≠ [] ∧ (newline ∉ run)
    ∧ k rest (pos + length run)%nat = Some r
    ∧ ∀ run' rest', s = run' ++ rest' → newline ∉ run' →
        (length run < length run')%nat →
        k rest' (pos + length run')%nat = None.
Proof.
  revert pos. induction s as [|c s IH]; intros pos; cbn [dotPlus]; [done|].
  destruct (decide (c = newline)) as [|Hc]; [done|].
  destruct (dotPlus k s (S pos)) as [r'|] eqn:Hrec.
  - intros [= ->].
    destruct (IH _ Hrec) as (run & rest & -> & Hne & Hnl & Hk & Hmax).
    exists (c :: run), rest. split_and!; [done|done| | |].
    + rewrite not_elem_of_cons. done.
    + cbn [length].
      by replace (pos + S (length run))%nat with (S pos + length run)%nat by lia.
    + intros run' rest' Heq Hnl' Hlen.
      destruct run' as [|c' run']; [cbn in Hlen; lia|].
      injection Heq as <- Heq. apply not_elem_of_cons in Hnl' as [_ Hnl'].
      cbn [length] in *.
      replace (pos + S (length run'))%nat with (S pos + length run')%nat by lia.
      apply (Hmax run' rest' Heq Hnl'). lia.
  - intros Hk. exists [c], s. split_and!; [done|done| | |].
    + rewrite not_elem_of_cons. split; [done|]. apply not_elem_of_nil.
    + cbn [length]. by replace (pos + 1)%nat with (S pos) by lia.
    + intros run' rest' Heq Hnl' Hlen.
      destruct run' as [|c' [|c'' run']]; [cbn in Hlen; lia..|].
      injection Heq as <- Heq. apply not_elem_of_cons in Hnl' as [_ Hnl'].
      destruct (dotPlus k (c'' :: run' ++ rest') (S pos)) as [r'|] eqn:Hd;
        [by rewrite Heq, Hd in Hrec|].
      clear Hlen IH Hk. rewrite Heq in Hrec. clear Heq.
      assert (∀ (l t : bytes) q, newline ∉ l → l ≠ [] →
                dotPlus k (l ++ t) q = None → k t (q + length l)%nat = None) as Hgen.
      { clear. induction l as [|x l IH]; intros t q Hnl Hne; [done|].
        apply not_elem_of_cons in Hnl as [Hx Hnl].
        cbn [app dotPlus]. rewrite decide_False by done.
        destruct (dotPlus k (l ++ t) (S q)) as [?|] eqn:Hd; [done|].
        intros Hk. destruct l as [|y l].
        - cbn. by replace (q + 1)%nat with (S q) by lia.
        - change (length (x :: y :: l)) with (S (length (y :: l))).
          replace (q + S (length (y :: l)))%nat with (S q + length (y :: l))%nat by lia.
          by apply IH. }
      change (length (c :: c'' :: run')) with (S (length (c'' :: run'))).
      replace (pos + S (length (c'' :: run')))%nat
        with (S pos + length (c'' :: run'))%nat by lia.
      by apply (Hgen (c'' :: run')).
Qed.

(** The group runs up to the end of the line. *)
Lemma group1_line_end (s : bytes) (pos : nat) (r : nat * nat) :
  group1 s pos = Some r →
  ∃ grp rest,
    s = grp ++ rest ∧ grp ≠ [] ∧ (newline ∉ grp)
    ∧ r = (pos, (pos + length grp)%nat)
    ∧ (rest = [] ∨ ∃ rest', rest = newline :: rest').
Proof.
  unfold group1. intros H.
  apply dotPlus_longest in H as (grp & rest & -> & Hne & Hnl & [= <-] & Hmax).
  exists grp, rest. split_and!; try done.
  destruct rest as [|c rest']; [by left|right].
  destruct (decide (c = newline)) as [->|Hc]; [by exists rest'|].
  exfalso.
  specialize (Hmax (grp ++ [c]) rest').
  rewrite <- app_assoc in Hmax. specialize (Hmax eq_refl).
  rewrite length_app in Hmax. cbn in Hmax.
  assert (newline ∉ grp ++ [c]) as Hn.
  { rewrite not_elem_of_app, not_elem_of_cons. split_and!; try done.
    apply not_elem_of_nil. }
  by specialize (Hmax Hn ltac:(lia)).
Qed.

Lemma lit_inv (l : bytes) (k : K) (s : bytes) (pos : nat) (r : nat * nat) :
  lit_ l k s pos = Some r →
  ∃ rest, s = l ++ rest ∧ k rest (pos + length l)%nat = Some r.
Proof.
  unfold lit_. destruct (decide (take (length l) s = l)) as [Hl|]; [|done].
  intros Hk. exists (drop (length l) s). split; [|done].
  by rewrite <- Hl at 1; rewrite take_drop.
Qed.

(** The shape of a match at offset [p]: the label, a run without
    newline, ["> "], and the group, a nonempty run without newline that
    starts at [m2] and ends at [m3]. *)
Lemma matchAt_inv (label h : bytes) (p m2 m3 : nat) :
  matchAt label h p = Some (m2, m3) →
  ∃ run grp rest,
    drop p h = label ++ run ++ lit "> " ++ grp ++ rest
    ∧ run ≠ [] ∧ grp ≠ []
    ∧ (newline ∉ run) ∧ (newline ∉ grp)
    ∧ m2 = (p + length label + length run + 2)%nat
    ∧ m3 = (m2 + length grp)%nat.
Proof.
  unfold matchAt. destruct (lineStart h p); [|done].
  intros H.
  apply lit_inv in H as (s1 & Hs & H).
  apply dotPlus_inv in H as (run & s2 & -> & Hrun & Hnl & H).
  apply lit_inv in H as (s3 & -> & H).
  unfold group1 in H.
  apply dotPlus_inv in H as (grp & rest & -> & Hgrp & Hnl' & [= <- <-]).
  exists run, grp, rest. split_and!; done.
Qed.

(** A match starts at the beginning of a line and its group ends at
    the end of that line. *)
Lemma matchAt_line (label h : bytes) (p m2 m3 : nat) :
  matchAt label h p = Some (m2, m3) →
  (p = 0%nat ∨ h !! (p - 1)%nat = Some newline)
  ∧ (m3 = length h ∨ h !! m3 = Some newline).
Proof.
  unfold matchAt. destruct (lineStart h p) eqn:Hls; [|done]. intros H. split.
  - destruct p as [|q]; [by left|right]. cbn in Hls.
    apply bool_decide_eq_true in Hls. by rewrite Nat.sub_1_r.
  - apply lit_inv in H as (s1 & Hs & H).
    apply dotPlus_inv in H as (run & s2 & -> & _ & _ & H).
    apply lit_inv in H as (s3 & -> & H).
    apply group1_line_end in H as (grp & rest & -> & _ & _ & [= -> ->] & Hend).
    change (length (lit "> ")) with 2%nat.
    assert (length (take p h) = p) as Hp.
    { apply length_take_le. apply Nat.lt_le_incl, Nat.nle_gt. intros Hge.
      rewrite drop_ge in Hs by done. by destruct label, run. }
    assert (h = take p h ++ label ++ run ++ lit "> " ++ grp ++ rest) as Hh
      by (by rewrite <- Hs, take_drop).
    clear Hls Hs. remember (take p h) as pre eqn:Hpre. clear Hpre. subst h.
    assert (p + length label + length run + 2 + length grp
            = length (pre ++ label ++ run ++ lit "> " ++ grp))%nat as ->.
    { rewrite !length_app, Hp. change (length (lit "> ")) with 2%nat. lia. }
    replace (pre ++ label ++ run ++ lit "> " ++ grp ++ rest)
      with ((pre ++ label ++ run ++ lit "> " ++ grp) ++ rest)
      by (by rewrite <- !app_assoc).
    destruct Hend as [->|[rest' ->]].
    + left. by rewrite app_nil_r.
    + right. by rewrite list_lookup_middle.
Qed.

(** [findFrom] returns the match at the least offset that has one. *)
Lemma findFrom_leftmost (label h : bytes) (p k m2 m3 : nat) :
  findFrom label h p k = Some (m2, m3) →
  ∃ q, (p ≤ q < p + k)%nat ∧ matchAt label h q = Some (m2, m3)
       ∧ ∀ q', (p ≤ q' < q)%nat → matchAt label h q' = None.
Proof.
  revert p. induction k as [|k IH]; intros p; cbn [findFrom]; [done|].
  destruct (matchAt label h p) as [r|] eqn:Hm.
  - intros [= ->]. exists p. split; [lia|]. split; [done|]. intros q' ?. lia.
  - intros H. destruct (IH _ H) as (q & Hq & Hq' & Hleft).
    exists q. split; [lia|]. split; [done|].
    intros q' Hq''. destruct (decide (q' = p)) as [->|]; [done|].
    apply Hleft. lia.
Qed.

Lemma findFrom_inv (label h : bytes) (p k m2 m3 : nat) :
  findFrom label h p k = Some (m2, m3) →
  ∃ q, (p ≤ q < p + k)%nat ∧ matchAt label h q = Some (m2, m3).
Proof.
  revert p. induction k as [|k IH]; intros p; cbn [findFrom]; [done|].
  destruct (matchAt label h p) as [r|] eqn:Hm.
  - intros [= ->]. exists p. split; [lia|done].
  - intros H. destruct (IH _ H) as (q & Hq & Hq'). exists q. split; [lia|done].
Qed.

Lemma FindSubmatchIndex_inv (label h : bytes) (m2 m3 : nat) :
  FindSubmatchIndex label h = Some (m2, m3) →
  ∃ pre run grp rest,
    h = pre ++ label ++ run ++ lit "> " ++ grp ++ rest
    ∧ run ≠ [] ∧ grp ≠ []
    ∧ (newline ∉ run) ∧ (newline ∉ grp)
    ∧ m2 = (length pre + length label + length run + 2)%nat
    ∧ m3 = (m2 + length grp)%nat.
Proof.
  intros H. apply findFrom_inv in H as (p & Hp & H).
  apply matchAt_inv in H as (run & grp & rest & Hd & ? & ? & ? & ? & -> & ->).
  assert (p ≤ length h)%nat as Hle by lia.
  exists (take p h), run, grp, rest. split_and!; try done.
  - by rewrite <- Hd, take_drop.
  - rewrite length_take. lia.
Qed.

(** Completeness: where the text has the shape of the pattern, the
    matcher finds a match. *)
Lemma dotPlus_complete (k : K) (run rest : bytes) (pos : nat) :
  run ≠ [] → newline ∉ run →
  is_Some (k rest (pos + length run)%nat) →
  is_Some (dotPlus k (run ++ rest) pos).
Proof.
  revert pos. induction run as [|c run IH]; intros pos Hne Hnl Hk; [done|].
  apply not_elem_of_cons in Hnl as [Hc Hnl].
  cbn [app dotPlus]. rewrite decide_False by done.
  destruct run as [|c' run].
  - destruct (dotPlus k ([] ++ rest) (S pos)); [done|].
    cbn in *. by replace (S pos) with (pos + 1)%nat by lia.
  - destruct (IH (S pos)) as [r ->]; [done|done| |done].
    change (length (c :: c' :: run)) with (S (length (c' :: run))) in Hk.
    by replace (S pos + length (c' :: run))%nat
      with (pos + S (length (c' :: run)))%nat by lia.
Qed.

Lemma matchAt_complete (label h : bytes) (p : nat) (run grp rest : bytes) :
  lineStart h p = true →
  drop p h = label ++ run ++ lit "> " ++ grp ++ rest →
  run ≠ [] → newline ∉ run → grp ≠ [] → newline ∉ grp →
  is_Some (matchAt label h p).
Proof.
  intros Hls Hd Hrun Hnl Hgrp Hnl'. unfold matchAt. rewrite Hls, Hd.
  unfold lit_ at 1. rewrite take_app_length, decide_True by done.
  rewrite drop_app_length.
  apply dotPlus_complete; [done|done|].
  unfold lit_. change (take (length (lit "> ")) (lit "> " ++ grp ++ rest))
    with (lit "> ").
  rewrite decide_True by done.
  change (drop (length (lit "> ")) (lit "> " ++ grp ++ rest)) with (grp ++ rest).
  unfold group1. by apply dotPlus_complete.
Qed.

Lemma findFrom_complete (label h : bytes) (p k q : nat) :
  (p ≤ q < p + k)%nat → is_Some (matchAt label h q) →
  is_Some (findFrom label h p k).
Proof.
  revert p. induction k as [|k IH]; intros p Hq Hm; [lia|].
  cbn [findFrom]. destruct (matchAt label h p) as [r|] eqn:Hp; [done|].
  apply IH; [|done]. destruct (decide (q = p)) as [->|]; [|lia].
  rewrite Hp in Hm. by destruct Hm.
Qed.

(** The pattern fails exactly when no line of the text has its shape. *)
Lemma FindSubmatchIndex_None (label h : bytes) :
  FindSubmatchIndex label h = None ↔
  ¬ ∃ p run grp rest,
      lineStart h p = true
      ∧ drop p h = label ++ run ++ lit "> " ++ grp ++ rest
      ∧ run ≠ [] ∧ (newline ∉ run) ∧ grp ≠ [] ∧ (newline ∉ grp).
Proof.
  split.
  - intros Hnone (p & run & grp & rest & Hls & Hd & Hrun & Hnl & Hgrp & Hnl').
    assert (p < length h)%nat as Hp.
    { apply Nat.nle_gt. intros Hge. rewrite drop_ge in Hd by done.
      by destruct label, run. }
    assert (is_Some (FindSubmatchIndex label h)) as [r Hr]; [|congruence].
    apply (findFrom_complete _ _ _ _ p); [lia|].
    by eapply matchAt_complete.
  - intros Hno. destruct (FindSubmatchIndex label h) as [[m2 m3]|] eqn:Hf; [|done].
    exfalso. apply Hno.
    apply findFrom_inv in Hf as (p & _ & Hm).
    pose proof Hm as Hm'.
    apply matchAt_inv in Hm as (run & grp & rest & Hd & ? & ? & ? & ? & _).
    exists p, run, grp, rest. split_and!; try done.
    unfold matchAt in Hm'. by destruct (lineStart h p).
Qed.

Lemma FindSubmatchIndex_bounds (label h : bytes) (m2 m3 : nat) :
  FindSubmatchIndex label h = Some (m2, m3) → (m2 < m3 ≤ length h)%nat.
Proof.
  intros (pre & run & grp & rest & -> & _ & Hg & _ & _ & -> & ->)%FindSubmatchIndex_inv.
  rewrite !length_app. change (length (lit "> ")) with 2%nat.
  destruct grp; [done|]. cbn [length]. lia.
Qed.

(** The group is the text of [h] between [m2] and [m3]. *)
Lemma FindSubmatchIndex_sub (label h : bytes) (m2 m3 : nat) :
  FindSubmatchIndex label h = Some (m2, m3) →
  ∃ pre grp rest,
    h = pre ++ grp ++ rest ∧ length pre = m2 ∧ sub h m2 m3 = grp
    ∧ m3 = (m2 + length grp)%nat.
Proof.
  intros (pre & run & grp & rest & -> & _ & Hg & _ & _ & -> & ->)%FindSubmatchIndex_inv.
  exists (pre ++ label ++ run ++ lit "> "), grp, rest.
  assert (length (pre ++ label ++ run ++ lit "> ")
          = (length pre + length label + length run + 2)%nat) as Hlen.
  { rewrite !length_app. change (length (lit "> ")) with 2%nat. lia. }
  split_and!; [by rewrite <- !app_assoc|done| |done].
  unfold sub.
  replace (pre ++ label ++ run ++ lit "> " ++ grp ++ rest)
    with ((pre ++ label ++ run ++ lit "> ") ++ grp ++ rest) by (by rewrite <- !app_assoc).
  rewrite <- Hlen, drop_app_length.
  replace (length (pre ++ label ++ run ++ lit "> ") + length grp
           - length (pre ++ label ++ run ++ lit "> "))%nat with (length grp) by lia.
  by rewrite take_app_length.
Qed.

End RegexpFacts.

(** ** Properties of the date codec *)

Module DateFacts.
Import Regexp.

Example getDate_author_ex :
  getDate Samples.commitPlain authorDateRx = Ok (Date 1000000000 (lit "+0000"), 83%nat).
Proof. vm_compute. reflexivity. Qed.

Example getDate_committer_ex :
  getDate Samples.commitPlain committerDateRx = Ok (Date 1000000000 (lit "-0700"), 128%nat).
Proof. vm_compute. reflexivity. Qed.

Lemma IndexByte_Some (s : bytes) (c : byte) (i : nat) :
  Strconv.IndexByte s c = Some i ↔ ∃ s1 s2, s = s1 ++ c :: s2 ∧ (c ∉ s1) ∧ length s1 = i.
Proof.
  revert i. induction s as [|x s IH]; intros i; cbn [Strconv.IndexByte].
  - split; [done|]. intros (s1 & s2 & H & _). by destruct s1.
  - destruct (decide (x = c)) as [->|Hx].
    + split.
      * intros [= <-]. exists [], s. split_and!; [done|apply not_elem_of_nil|done].
      * intros (s1 & s2 & H & Hnot & <-). destruct s1 as [|y s1]; [done|].
        injection H as -> _. exfalso. apply Hnot. left.
    + destruct (Strconv.IndexByte s c) as [k|] eqn:Hrec; cbn.
      * split.
        -- intros [= <-]. destruct (proj1 (IH k) eq_refl) as (s1 & s2 & -> & Hnot & <-).
           exists (x :: s1), s2. split_and!; [done| |done].
           rewrite not_elem_of_cons. split; [congruence|done].
        -- intros (s1 & s2 & H & Hnot & <-). destruct s1 as [|y s1].
           ++ injection H as -> _. done.
           ++ injection H as -> ->. apply not_elem_of_cons in Hnot as [_ Hnot].
              f_equal. cbn [length]. f_equal.
              assert (Some k = Some (length s1)) as [= ->]; [|done].
              apply IH. eauto.
      * split; [done|].
        intros (s1 & s2 & H & Hnot & <-). destruct s1 as [|y s1].
        -- injection H as -> _. done.
        -- injection H as -> ->. apply not_elem_of_cons in Hnot as [_ Hnot].
           exfalso. assert (None = Some (length s1)) as [=]. apply IH. eauto.
Qed.

(** Text [ParseInt] accepts holds no space. *)
Lemma ParseInt_no_space (s : bytes) (v : Z) :
  Strconv.ParseInt s 10 = (v, None) → space ∉ s.
Proof.
  intros H. apply StrconvFacts.ParseInt_spec in H; [|by left].
  assert (∀ ds, Forall (Strconv.isDigit 10) ds → space ∉ ds) as Hds.
  { intros ds HF Hin. rewrite Forall_forall in HF.
    destruct (HF _ Hin) as (d & Hd & _). done. }
  destruct H as [(ds & [->| ->] & _ & HF & _)|(ds & -> & _ & HF & _)];
    rewrite ?not_elem_of_cons; auto.
Qed.

Lemma ParseInt_range (s : bytes) (v : Z) :
  Strconv.ParseInt s 10 = (v, None) → inInt64 v.
Proof.
  intros H. apply StrconvFacts.ParseInt_spec in H; [|by left].
  destruct H as [(ds & _ & _ & _ & Hlt & ->)|(ds & _ & _ & _ & Hlt & ->)]; ints; lia.
Qed.

(** [getDate] ends in a fatal error exactly when the pattern does not
    match, when the matched text holds no space, or when [ParseInt]
    rejects what stands before the space; it never panics. *)
Lemma getDate_Fatal (h rx : bytes) :
  (getDate h rx = Fatal FailedToMatch ↔ FindSubmatchIndex rx h = None)
  ∧ (getDate h rx = Fatal UnexpectedDate ↔
       ∃ m2 m3, FindSubmatchIndex rx h = Some (m2, m3)
         ∧ match Strconv.IndexByte (sub h m2 m3) space with
           | None => True
           | Some i => (Strconv.ParseInt (take i (sub h m2 m3)) 10).2 ≠ None
           end)
  ∧ getDate h rx ≠ Panic.
Proof.
  unfold getDate.
  destruct (FindSubmatchIndex rx h) as [[m2 m3]|] eqn:Hm.
  2: { split_and!; [done| |done]. split; [done|]. by intros (? & ? & ? & _). }
  destruct (Strconv.IndexByte (sub h m2 m3) space) as [i|] eqn:Hi.
  2: { split_and!; [done| |done]. split; [|done].
       intros _. exists m2, m3. by rewrite Hi. }
  destruct (Strconv.ParseInt (take i (sub h m2 m3)) 10) as [v [e|]] eqn:HP.
  - split_and!; [done| |done]. split; [|done].
    intros _. exists m2, m3. rewrite Hi, HP. done.
  - split_and!; [done| |done]. split; [done|].
    intros (? & ? & [= <- <-] & H). rewrite Hi, HP in H. done.
Qed.

(** [getDate] on a matched field made of digits, a space and a zone. *)
Lemma getDate_field (h rx : bytes) (m2 m3 : nat) (digits zone : bytes) (v : Z) :
  FindSubmatchIndex rx h = Some (m2, m3) →
  sub h m2 m3 = digits ++ lit " " ++ zone →
  Strconv.ParseInt digits 10 = (v, None) →
  getDate h rx = Ok (Date v zone, m2).
Proof.
  intros Hm Hv HP. unfold getDate. rewrite Hm, Hv.
  assert (Strconv.IndexByte (digits ++ lit " " ++ zone) space = Some (length digits))
    as ->.
  { apply IndexByte_Some. exists digits, zone.
    split_and!; [done|by eapply ParseInt_no_space|done]. }
  rewrite take_app_length, HP.
  replace (length digits + 1)%nat with (length (digits ++ lit " "))
    by (rewrite length_app; done).
  by rewrite (app_assoc digits (lit " ") zone), drop_app_length.
Qed.

(** Conversely, a date comes only from such a field. *)
Lemma getDate_Ok_inv (h rx : bytes) (d : date) (idx : nat) :
  getDate h rx = Ok (d, idx) →
  ∃ m3 digits,
    FindSubmatchIndex rx h = Some (idx, m3)
    ∧ sub h idx m3 = digits ++ lit " " ++ tz d
    ∧ Strconv.ParseInt digits 10 = (n d, None).
Proof.
  unfold getDate.
  destruct (FindSubmatchIndex rx h) as [[m2 m3]|] eqn:Hm; [|done].
  destruct (Strconv.IndexByte _ _) as [i|] eqn:Hsp; [|done].
  destruct (Strconv.ParseInt _ _) as [v [e|]] eqn:HP; [done|].
  intros [= <- <-]. cbn [n tz].
  apply IndexByte_Some in Hsp as (s1 & s2 & Hv & Hnot & <-).
  rewrite Hv in *. rewrite take_app_length in HP.
  exists m3, s1. split_and!; [done| |done].
  replace (length s1 + 1)%nat with (length (s1 ++ lit " "))
    by (rewrite length_app; done).
  replace (s1 ++ space :: s2) with ((s1 ++ lit " ") ++ s2)
    by (by rewrite <- app_assoc).
  by rewrite drop_app_length.
Qed.

Lemma sub_take (h : bytes) (i j : nat) (a b : bytes) :
  sub h i j = a ++ b → sub h i (i + length a) = a.
Proof.
  unfold sub. intros H.
  replace (i + length a - i)%nat with (length a) by lia.
  rewrite <- (take_drop (j - i) (drop i h)), H, <- app_assoc.
  by rewrite take_app_length.
Qed.

(** C6, as the code has it.  For every record text in which the
    pattern matches and the field is digits, a space and a zone, with
    digits that [ParseInt] accepts in base 10 and 64 bits, [getDate]
    returns the date made of that number, which is an [int64], and of the
    zone as it stands, together with the offset at which the digits
    begin; and when the digits are canonical decimal text (no plus sign,
    no superfluous leading zero, no minus zero), [String] gives the
    field back as it was matched. *)
Theorem getDate_roundtrip (h rx : bytes) (m2 m3 : nat) (digits zone : bytes) (v : Z) :
  FindSubmatchIndex rx h = Some (m2, m3) →
  sub h m2 m3 = digits ++ lit " " ++ zone →
  Strconv.ParseInt digits 10 = (v, None) →
  getDate h rx = Ok (Date v zone, m2)
  ∧ inInt64 v
  ∧ sub h m2 (m2 + length digits) = digits
  ∧ (Strconv.canonicalInt digits → date_String (Date v zone) = sub h m2 m3).
Proof.
  intros Hm Hv HP. split_and!.
  - by eapply getDate_field.
  - by eapply ParseInt_range.
  - by eapply sub_take.
  - intros Hcan. unfold date_String. cbn [n tz].
    by rewrite (StrconvFacts.formatInt_ParseInt digits v Hcan HP), Hv.
Qed.

Lemma getDate_roundtrip_witness :
  getDate Samples.commitPlain committerDateRx = Ok (Date 1000000000 (lit "-0700"), 128%nat)
  ∧ date_String (Date 1000000000 (lit "-0700")) = sub Samples.commitPlain 128 144.
Proof.
  destruct (getDate_roundtrip Samples.commitPlain committerDateRx 128 144
              (lit "1000000000") (lit "-0700") 1000000000)
    as (H1 & _ & _ & H4); [vm_compute; reflexivity..|].
  split; [exact H1|]. apply H4. left.
  split_and!; [done| |done].
  repeat constructor; vm_compute; done.
Defined.

(** C6 as stated fails on digits that are not canonical: the
    zero-padded author date ["0999999999 +0000"] is parsed to 999999999
    and printed back as ["999999999 +0000"]. *)
Lemma zero_padded_date_not_reproduced :
  let h := Worker.gitObject Samples.commitZeroPadded in
  FindSubmatchIndex authorDateRx h = Some (94%nat, 110%nat)
  ∧ sub h 94 110 = lit "0999999999 +0000"
  ∧ getDate h authorDateRx = Ok (Date 999999999 (lit "+0000"), 94%nat)
  ∧ date_String (Date 999999999 (lit "+0000")) = lit "999999999 +0000"
  ∧ date_String (Date 999999999 (lit "+0000")) ≠ sub h 94 110.
Proof. vm_compute. split_and!; done. Qed.

End DateFacts.

(** ** Properties of the worker *)

Module WorkerFacts.
Import Explore Worker.

Lemma appendShared_length (v : slice) (ds : bytes) :
  length (appendShared v ds) = cap v.
Proof. unfold appendShared, cap. case_decide; [apply length_inserts|done]. Qed.

(** An append writes at most the cells [len(v) .. len(v) + len(ds) - 1]. *)
Lemma appendShared_frame (v : slice) (ds : bytes) (i : nat) :
  ¬ inRun (len v) (length ds) i → appendShared v ds !! i = arr v !! i.
Proof.
  unfold inRun, appendShared. intros Hi. case_decide; [|done].
  destruct (decide (i < len v)%nat).
  - by apply list_lookup_inserts_lt.
  - apply list_lookup_inserts_ge. lia.
Qed.

Lemma rewrite_ok (w : worker) (ad cd : date) :
  wf w →
  ∃ a, rewrite w ad cd = Ok (Slice a (len (blob w)))
       ∧ length a = cap (blob w)
       ∧ ∀ i, ¬ inRun (adatei w) (length (Strconv.formatInt (n ad))) i →
              ¬ inRun (cdatei w) (length (Strconv.formatInt (n cd))) i →
              a !! i = arr (blob w) !! i.
Proof.
  intros (Ha & Hc & Hcap & _). unfold rewrite, reslice.
  destruct (decide (adatei w ≤ cap (blob w))%nat) as [_|]; [|lia].
  cbn [orPanic mbind outcome_bind].
  case_decide as Hd.
  2: { exfalso. apply Hd. unfold cap at 1. cbn [arr].
       rewrite appendShared_length. unfold cap at 1. cbn [arr].
       unfold cap in Hcap. lia. }
  cbn [orPanic].
  eexists. split; [reflexivity|]. split.
  - rewrite appendShared_length. unfold cap. cbn [arr].
    by rewrite appendShared_length.
  - intros i H1 H2. rewrite appendShared_frame by done. cbn [arr].
    by rewrite appendShared_frame.
Qed.

Lemma inserts_0_contents (ds a : bytes) :
  (length ds ≤ length a)%nat →
  contents (Slice (list_inserts 0 ds a) (length ds)) = ds.
Proof.
  intros Hle. unfold contents. cbn [len arr].
  rewrite <- (take_drop (length ds) a) at 1.
  rewrite list_inserts_0_r by (rewrite length_take; lia).
  by rewrite take_app_length.
Qed.

(** One attempt never panics; it hashes the rewritten buffer and
    compares the hex text of the digest. *)
Lemma attempt_ok (w : worker) (t : try) :
  wf w →
  ∃ b' hb,
    rewrite w (candidateDates w t).1 (candidateDates w t).2 = Ok b'
    ∧ length hb = (Sha1.Size * 2)%nat
    ∧ attempt w t
      = Ok ({| blob := b';
               authorDate := authorDate w; adatei := adatei w;
               commitDate := commitDate w; cdatei := cdatei w;
               wantHexPrefix := wantHexPrefix w;
               hexBuf := Slice hb 0 |},
            Hex.hexEncode (Sha1.sum (contents b')),
            if Strconv.HasPrefix (Hex.hexEncode (Sha1.sum (contents b')))
                 (wantHexPrefix w)
            then Some (Solution (candidateDates w t).1 (candidateDates w t).2)
            else None).
Proof.
  intros Hwf. pose proof Hwf as (_ & _ & _ & Hl & Hc).
  destruct (rewrite_ok w (candidateDates w t).1 (candidateDates w t).2 Hwf)
    as (a & Hrw & _).
  unfold attempt. destruct (candidateDates w t) as [ad cd]. cbn [fst snd] in *.
  rewrite Hrw. cbn [mbind outcome_bind].
  destruct (hexBuf w) as [harr hl] eqn:Hhb. cbn [len] in Hl. subst hl.
  unfold cap in Hc. cbn [arr] in Hc.
  set (b' := Slice a (len (blob w))).
  set (digest := Sha1.sum (contents b')).
  assert (length digest = Sha1.Size) as Hdl by apply Sha1Facts.sum_length.
  unfold Sha1.Size in *.
  unfold reslice. rewrite decide_True by lia. cbn [orPanic mbind outcome_bind].
  unfold append, appendShared, cap. cbn [len arr].
  rewrite !decide_True by lia.
  rewrite HexFacts.hexInPlace_spec
    by (unfold cap; cbn [len arr]; rewrite length_inserts; lia).
  cbn [orPanic mbind outcome_bind len arr]. rewrite Nat.add_0_l.
  rewrite !decide_True by lia.
  rewrite inserts_0_contents by lia.
  rewrite HexFacts.contents_app_exact
    by (rewrite HexFacts.hexEncode_length; lia).
  eexists b', _. split_and!; [done| |reflexivity].
  rewrite length_app, HexFacts.hexEncode_length, length_drop, length_inserts. lia.
Qed.

Lemma attempt_wf (w : worker) (t : try) (w' : worker) (hx : bytes) (r : option solution) :
  wf w → attempt w t = Ok (w', hx, r) →
  wf w'
  ∧ authorDate w' = authorDate w ∧ adatei w' = adatei w
  ∧ commitDate w' = commitDate w ∧ cdatei w' = cdatei w
  ∧ wantHexPrefix w' = wantHexPrefix w
  ∧ len (blob w') = len (blob w) ∧ cap (blob w') = cap (blob w).
Proof.
  intros Hwf Hat. pose proof Hwf as (Ha & Hc & Hcap & _).
  destruct (attempt_ok w t Hwf) as (b' & hb & Hrw & Hhb & Hat').
  destruct (rewrite_ok w (candidateDates w t).1 (candidateDates w t).2 Hwf)
    as (a & Hrw' & Hlen & _).
  rewrite Hrw in Hrw'. injection Hrw' as ->.
  rewrite Hat in Hat'. injection Hat' as -> _ _. cbn.
  unfold wf, cap in *. cbn [blob adatei cdatei hexBuf len arr].
  split_and!; try done; lia.
Qed.

Lemma reaches_wf (w0 w : worker) :
  reaches w0 w → wf w0 →
  wf w
  ∧ authorDate w = authorDate w0 ∧ adatei w = adatei w0
  ∧ commitDate w = commitDate w0 ∧ cdatei w = cdatei w0
  ∧ wantHexPrefix w = wantHexPrefix w0
  ∧ len (blob w) = len (blob w0) ∧ cap (blob w) = cap (blob w0).
Proof.
  induction 1 as [w|w t w1 hx w2 Hat _ IH]; intros Hwf; [done|].
  destruct (attempt_wf _ _ _ _ _ Hwf Hat) as (Hwf1 & H1 & H2 & H3 & H4 & H5 & H6 & H7).
  destruct (IH Hwf1) as (? & -> & -> & -> & -> & -> & -> & ->). done.
Qed.

Lemma contents_gitObject (obj : bytes) (spare : nat) :
  contents (Slice (gitObject obj ++ replicate spare x00) (length (gitObject obj)))
  = gitObject obj.
Proof. unfold contents. cbn [len arr]. by rewrite take_app_length. Qed.

(** After the statements before the loop, the worker holds the dates
    and offsets [getDate] found in the record under its header. *)
Lemma initWorker_Ok (obj : bytes) (spare : nat) (prefix : bytes) (w : worker) :
  initWorker obj spare prefix = Ok w ↔
  ∃ a ai c ci,
    getDate (gitObject obj) Regexp.authorDateRx = Ok (a, ai)
    ∧ getDate (gitObject obj) Regexp.committerDateRx = Ok (c, ci)
    ∧ w = {| blob := Slice (gitObject obj ++ replicate spare x00)
                           (length (gitObject obj));
             authorDate := a; adatei := ai; commitDate := c; cdatei := ci;
             wantHexPrefix := Strconv.ToLower prefix;
             hexBuf := Slice (replicate (Sha1.Size * 2) x00) 0 |}.
Proof.
  unfold initWorker. rewrite contents_gitObject.
  destruct (getDate (gitObject obj) Regexp.authorDateRx) as [[a ai]| |];
    cbn [mbind outcome_bind].
  2,3: split; [done|]; by intros (? & ? & ? & ? & ? & _).
  destruct (getDate (gitObject obj) Regexp.committerDateRx) as [[c ci]| |];
    cbn [mbind outcome_bind].
  2,3: split; [done|]; by intros (? & ? & ? & ? & _ & ? & _).
  split.
  - intros [= <-]. by exists a, ai, c, ci.
  - by intros (? & ? & ? & ? & [= <- <-] & [= <- <-] & ->).
Qed.

Lemma initWorker_wf (obj : bytes) (spare : nat) (prefix : bytes) (w : worker) :
  initWorker obj spare prefix = Ok w → wf w.
Proof.
  intros (a & ai & c & ci & Ha & Hc & ->)%initWorker_Ok.
  apply DateFacts.getDate_Ok_inv in Ha as (m3 & _ & Ha%RegexpFacts.FindSubmatchIndex_bounds & _).
  apply DateFacts.getDate_Ok_inv in Hc as (m3' & _ & Hc%RegexpFacts.FindSubmatchIndex_bounds & _).
  unfold wf, cap. cbn [blob adatei cdatei hexBuf len arr].
  rewrite length_app, !length_replicate. split_and!; (done || lia).
Qed.

Lemma reaches_trans (w1 w2 w3 : worker) :
  reaches w1 w2 → reaches w2 w3 → reaches w1 w3.
Proof.
  induction 1 as [|w t wa hx wb Hat _ IH]; [done|].
  intros H. eapply reaches_next; [exact Hat|by apply IH].
Qed.

(** The loop never panics, and a solution it reports is the one of an
    attempt on a candidate of the list. *)
Lemma workLoop_result (w : worker) (ts : list try) :
  wf w →
  ∃ w' r, workLoop w ts = Ok (w', r)
    ∧ match r with
      | None => reaches w w'
      | Some sol =>
          ∃ w1 t hx, reaches w w1 ∧ t ∈ ts ∧ attempt w1 t = Ok (w', hx, Some sol)
      end.
Proof.
  revert w. induction ts as [|t ts IH]; intros w Hwf; cbn [workLoop].
  - exists w, None. split; [done|constructor].
  - destruct (attempt_ok w t Hwf) as (b' & hb & _ & _ & Hat).
    destruct (attempt w t) as [[[w1 hx] r]| |] eqn:Hat'; try done. clear Hat.
    cbn [mbind outcome_bind].
    destruct r as [sol|].
    + exists w1, (Some sol). split; [done|].
      exists w, t, hx. split_and!; [constructor|left|done].
    + destruct (attempt_wf _ _ _ _ _ Hwf Hat') as (Hwf1 & _).
      destruct (IH w1 Hwf1) as (w' & r & -> & Hr).
      exists w', r. split; [done|]. destruct r as [sol|].
      * destruct Hr as (w2 & t' & hx' & Hre & Hin & Hat2).
        exists w2, t', hx'. split_and!; [|by right|done].
        eapply reaches_next; [exact Hat'|done].
      * eapply reaches_next; [exact Hat'|done].
Qed.

(** A worker whose candidates never give a digest with the prefix
    reports nothing. *)
Lemma workLoop_silent (w : worker) (ts : list try) :
  wf w →
  (∀ w1 t w2 hx r, reaches w w1 → t ∈ ts → attempt w1 t = Ok (w2, hx, r) →
                   Strconv.HasPrefix hx (wantHexPrefix w) = false) →
  ∃ w', workLoop w ts = Ok (w', None).
Proof.
  intros Hwf Hno. destruct (workLoop_result w ts Hwf) as (w' & r & Hw & Hr).
  destruct r as [sol|]; [|by exists w'].
  destruct Hr as (w1 & t & hx & Hre & Hin & Hat).
  pose proof (Hno _ _ _ _ _ Hre Hin Hat) as Hf.
  destruct (reaches_wf _ _ Hre Hwf) as (Hwf1 & _ & _ & _ & _ & Hp & _).
  destruct (attempt_ok w1 t Hwf1) as (b' & hb & _ & _ & Hat').
  rewrite Hat in Hat'. injection Hat' as _ Hhx Hsol.
  rewrite <- Hhx, Hp, Hf in Hsol. done.
Qed.

(** A fatal error of [getDate] ends the worker before any candidate is
    taken, whatever the candidates. *)
Lemma bruteForce_fatal (obj : bytes) (spare : nat) (prefix : bytes) (ts : list try) (e : fatal) :
  getDate (gitObject obj) Regexp.authorDateRx = Fatal e
  ∨ (is_Some (match getDate (gitObject obj) Regexp.authorDateRx with
              | Ok x => Some x | _ => None end)
     ∧ getDate (gitObject obj) Regexp.committerDateRx = Fatal e) →
  bruteForce obj spare prefix ts = Fatal e.
Proof.
  unfold bruteForce, initWorker. rewrite contents_gitObject.
  intros [->|[Ha ->]]; [done|].
  destruct (getDate (gitObject obj) Regexp.authorDateRx) as [[a ai]| |]; [done|..];
    by destruct Ha.
Qed.

Lemma contents_lookup_frame (a b : bytes) (k : nat) (i : nat) :
  (i < k → a !! i = b !! i)%nat →
  contents (Slice a k) !! i = contents (Slice b k) !! i.
Proof.
  intros H. unfold contents. cbn [len arr]. rewrite !lookup_take.
  case_decide; auto.
Qed.

(** C3.  For every candidate a worker takes, in whatever state the
    earlier candidates left its buffer: when the decimal renderings of
    the new author and committer seconds are as long as the digit runs
    that stand at the two offsets, the attempt goes through, the buffer
    is as long as the record was at the start, and every byte outside
    the two digit runs is what it was before the attempt. *)
Theorem rewrite_keeps_length_and_frame
    (obj : bytes) (spare : nat) (prefix : bytes) (w0 w : worker) (t : try) :
  initWorker obj spare prefix = Ok w0 →
  reaches w0 w →
  length (Strconv.formatInt (n (candidateDates w t).1))
    = digitRun (contents (blob w)) (adatei w) →
  length (Strconv.formatInt (n (candidateDates w t).2))
    = digitRun (contents (blob w)) (cdatei w) →
  ∃ w' hx r,
    attempt w t = Ok (w', hx, r)
    ∧ length (contents (blob w')) = length (gitObject obj)
    ∧ ∀ i, ¬ inRun (adatei w) (digitRun (contents (blob w)) (adatei w)) i →
           ¬ inRun (cdatei w) (digitRun (contents (blob w)) (cdatei w)) i →
           contents (blob w') !! i = contents (blob w) !! i.
Proof.
  intros Hinit Hreach Hla Hlc.
  pose proof (initWorker_wf _ _ _ _ Hinit) as Hwf0.
  destruct (reaches_wf _ _ Hreach Hwf0) as (Hwf & _ & _ & _ & _ & _ & Hlen & Hcap).
  destruct (attempt_ok w t Hwf) as (b' & hb & Hrw & _ & Hat).
  destruct (rewrite_ok w (candidateDates w t).1 (candidateDates w t).2 Hwf)
    as (a & Hrw' & Ha & Hframe).
  rewrite Hrw in Hrw'. injection Hrw' as ->.
  eexists _, _, _. split; [exact Hat|]. cbn [blob].
  apply initWorker_Ok in Hinit as (? & ? & ? & ? & _ & _ & ->).
  cbn [blob len arr] in *. unfold cap in *. cbn [arr] in *.
  rewrite length_app in Hcap.
  split.
  - unfold contents. cbn [len arr]. rewrite length_take. lia.
  - intros i H1 H2. rewrite Hla in Hframe. rewrite Hlc in Hframe.
    destruct (blob w) as [barr blen] eqn:Hb. cbn [len arr] in *.
    apply contents_lookup_frame. intros _. by apply Hframe.
Qed.

Lemma rewrite_keeps_length_and_frame_witness :
  ∃ w' hx r,
    attempt Samples.workerTwoMatches (Try 3 7) = Ok (w', hx, r)
    ∧ length (contents (blob w')) = length (gitObject Samples.commitTwoMatches)
    ∧ ∀ i, ¬ inRun (adatei Samples.workerTwoMatches)
               (digitRun (contents (blob Samples.workerTwoMatches))
                         (adatei Samples.workerTwoMatches)) i →
           ¬ inRun (cdatei Samples.workerTwoMatches)
               (digitRun (contents (blob Samples.workerTwoMatches))
                         (cdatei Samples.workerTwoMatches)) i →
           contents (blob w') !! i = contents (blob Samples.workerTwoMatches) !! i.
Proof.
  apply (rewrite_keeps_length_and_frame
           Samples.commitTwoMatches 12 (lit "0")
           Samples.workerTwoMatches Samples.workerTwoMatches (Try 3 7)).
  - vm_compute. reflexivity.
  - constructor.
  - vm_compute. reflexivity.
  - vm_compute. reflexivity.
Defined.

(** What an append leaves in the shared array, cell by cell. *)
Lemma appendShared_lookup (v : slice) (ds : bytes) (p : nat) :
  appendShared v ds !! p
  = if decide ((len v ≤ p < len v + length ds)%nat ∧ (len v + length ds ≤ cap v)%nat)
    then ds !! (p - len v)%nat else arr v !! p.
Proof.
  unfold appendShared.
  destruct (decide (len v + length ds ≤ cap v)%nat) as [Hfit|Hno].
  - case_decide as Hin.
    + apply list_lookup_inserts; [tauto|unfold cap in Hfit; lia].
    + destruct (decide (p < len v)%nat).
      * by apply list_lookup_inserts_lt.
      * apply list_lookup_inserts_ge. lia.
  - rewrite decide_False; [done|tauto].
Qed.

(** The array after the two [AppendInt] statements, cell by cell: the
    committer rendering, written last, where it was written; else the
    author rendering where it was written; else the old byte. *)
Lemma rewrite_lookup (w : worker) (ad cd : date) :
  wf w →
  ∃ a, rewrite w ad cd = Ok (Slice a (len (blob w)))
       ∧ length a = cap (blob w)
       ∧ ∀ p,
           a !! p
           = if decide ((cdatei w ≤ p < cdatei w + length (Strconv.formatInt (n cd)))%nat
                        ∧ (cdatei w + length (Strconv.formatInt (n cd)) ≤ cap (blob w))%nat)
             then Strconv.formatInt (n cd) !! (p - cdatei w)%nat
             else if decide ((adatei w ≤ p < adatei w + length (Strconv.formatInt (n ad)))%nat
                             ∧ (adatei w + length (Strconv.formatInt (n ad))
                                ≤ cap (blob w))%nat)
             then Strconv.formatInt (n ad) !! (p - adatei w)%nat
             else arr (blob w) !! p.
Proof.
  intros Hwf. destruct (rewrite_ok w ad cd Hwf) as (a & Hrw & Hlen & _).
  exists a. split; [done|]. split; [done|]. intros p.
  destruct Hwf as (Ha & Hc & Hcap & _). unfold rewrite, reslice in Hrw.
  rewrite decide_True in Hrw by lia. cbn [orPanic mbind outcome_bind] in Hrw.
  assert (cap (Slice (appendShared (Slice (arr (blob w)) (adatei w))
                        (Strconv.formatInt (n ad))) (len (blob w)))
          = cap (blob w)) as Hcap'.
  { unfold cap at 1. cbn [arr]. by rewrite appendShared_length. }
  rewrite decide_True in Hrw by (rewrite Hcap'; lia).
  cbn [orPanic mbind outcome_bind] in Hrw. injection Hrw as <-.
  rewrite appendShared_lookup. cbn [len arr].
  replace (cap (Slice (appendShared (Slice (arr (blob w)) (adatei w))
                         (Strconv.formatInt (n ad))) (cdatei w)))
    with (cap (blob w)) by (unfold cap; cbn [arr]; by rewrite appendShared_length).
  case_decide; [done|].
  by rewrite appendShared_lookup.
Qed.

(** C4.  For every candidate a worker takes, the dates of the attempt
    are the parsed author seconds minus [authorBehind] and the parsed
    committer seconds minus [commitBehind], each wrapped to 64 bits, with
    the two zones as [getDate] found them in the record.  Their decimal
    renderings are what reaches the bytes that are hashed: the buffer
    hashed has the length of the old one and holds, cell by cell, the
    committer rendering at the offset [getDate] gave for it, the author
    rendering at its offset where the committer one does not cover it,
    and the old byte everywhere else (an append that does not fit the
    capacity goes to a new array and leaves the buffer alone).  The hex
    text compared is that of the SHA-1 of this buffer, and the two dates
    are the solution reported on a match. *)
Theorem candidate_timestamps
    (obj : bytes) (spare : nat) (prefix : bytes) (w0 w : worker) (t : try) :
  initWorker obj spare prefix = Ok w0 →
  reaches w0 w →
  ∃ a ai c ci w',
    getDate (gitObject obj) Regexp.authorDateRx = Ok (a, ai)
    ∧ getDate (gitObject obj) Regexp.committerDateRx = Ok (c, ci)
    ∧ let ad := Date (wrap64 (n a - authorBehind t)) (tz a) in
      let cd := Date (wrap64 (n c - commitBehind t)) (tz c) in
      let ra := Strconv.formatInt (n ad) in
      let rc := Strconv.formatInt (n cd) in
      let hx := Hex.hexEncode (Sha1.sum (contents (blob w'))) in
      rewrite w ad cd = Ok (blob w')
      ∧ attempt w t
        = Ok (w', hx,
              if Strconv.HasPrefix hx (Strconv.ToLower prefix)
              then Some (Solution ad cd) else None)
      ∧ length (contents (blob w')) = length (contents (blob w))
      ∧ ∀ p, (p < length (contents (blob w)))%nat →
          contents (blob w') !! p
          = if decide ((ci ≤ p < ci + length rc)%nat
                       ∧ (ci + length rc ≤ cap (blob w))%nat)
            then rc !! (p - ci)%nat
            else if decide ((ai ≤ p < ai + length ra)%nat
                            ∧ (ai + length ra ≤ cap (blob w))%nat)
            then ra !! (p - ai)%nat
            else contents (blob w) !! p.
Proof.
  intros Hinit Hreach.
  pose proof (initWorker_wf _ _ _ _ Hinit) as Hwf0.
  destruct (reaches_wf _ _ Hreach Hwf0) as (Hwf & Ha & Hai & Hc & Hci & Hp & _).
  destruct (attempt_ok w t Hwf) as (b' & hb & Hrw & _ & Hat).
  apply initWorker_Ok in Hinit as (a & ai & c & ci & Hga & Hgc & ->).
  cbn [authorDate commitDate wantHexPrefix adatei cdatei] in *.
  unfold candidateDates in *. rewrite Ha, Hc in *. cbn [fst snd] in *.
  rewrite Hp in Hat.
  exists a, ai, c, ci,
    {| blob := b'; authorDate := a; adatei := adatei w;
       commitDate := c; cdatei := cdatei w;
       wantHexPrefix := Strconv.ToLower prefix; hexBuf := Slice hb 0 |}.
  split; [done|]. split; [done|]. cbn zeta. cbn [blob].
  split; [exact Hrw|]. split; [exact Hat|].
  destruct (rewrite_lookup w (Date (wrap64 (n a - authorBehind t)) (tz a))
              (Date (wrap64 (n c - commitBehind t)) (tz c)) Hwf)
    as (arr' & Hrw' & Hlen & Hcells).
  rewrite Hrw in Hrw'. injection Hrw' as ->.
  destruct Hwf as (_ & _ & Hcap & _).
  assert (length (contents (Slice arr' (len (blob w)))) = len (blob w)) as Hl'.
  { unfold contents. cbn [len arr]. rewrite length_take. lia. }
  assert (length (contents (blob w)) = len (blob w)) as Hl.
  { unfold contents. rewrite length_take. unfold cap in Hcap. lia. }
  split; [by rewrite Hl, Hl'|].
  intros p Hlt. rewrite Hl in Hlt. unfold contents. cbn [len arr].
  rewrite !lookup_take_lt by done.
  rewrite Hcells. cbn [n]. by rewrite Hai, Hci.
Qed.

Lemma candidate_timestamps_witness :
  ∃ a ai c ci w',
    getDate (gitObject Samples.commitTwoMatches) Regexp.authorDateRx = Ok (a, ai)
    ∧ getDate (gitObject Samples.commitTwoMatches) Regexp.committerDateRx = Ok (c, ci)
    ∧ let ad := Date (wrap64 (n a - authorBehind (Try 0 1))) (tz a) in
      let cd := Date (wrap64 (n c - commitBehind (Try 0 1))) (tz c) in
      let ra := Strconv.formatInt (n ad) in
      let rc := Strconv.formatInt (n cd) in
      let hx := Hex.hexEncode (Sha1.sum (contents (blob w'))) in
      rewrite Samples.workerTwoMatches ad cd = Ok (blob w')
      ∧ attempt Samples.workerTwoMatches (Try 0 1)
        = Ok (w', hx,
              if Strconv.HasPrefix hx (Strconv.ToLower (lit "0"))
              then Some (Solution ad cd) else None)
      ∧ length (contents (blob w')) = length (contents (blob Samples.workerTwoMatches))
      ∧ ∀ p, (p < length (contents (blob Samples.workerTwoMatches)))%nat →
          contents (blob w') !! p
          = if decide ((ci ≤ p < ci + length rc)%nat
                       ∧ (ci + length rc ≤ cap (blob Samples.workerTwoMatches))%nat)
            then rc !! (p - ci)%nat
            else if decide ((ai ≤ p < ai + length ra)%nat
                            ∧ (ai + length ra ≤ cap (blob Samples.workerTwoMatches))%nat)
            then ra !! (p - ai)%nat
            else contents (blob Samples.workerTwoMatches) !! p.
Proof.
  apply (candidate_timestamps
           Samples.commitTwoMatches 12 (lit "0")
           Samples.workerTwoMatches Samples.workerTwoMatches (Try 0 1)).
  - vm_compute. reflexivity.
  - constructor.
Defined.

(** The same attempt, evaluated. *)
Example attempt_ex :
  (λ '(_, hx, r), (hx, r)) <$> attempt Samples.workerTwoMatches (Try 0 1)
  = Ok (lit "04d42cdba6dae5a2cbc006c30fc12e16e2861a55",
        Some (Solution (Date 1399999999 (lit "+0000")) (Date 1400000000 (lit "+0000")))).
Proof. vm_compute. reflexivity. Qed.

(** C1 on the code.  The record has both dates at 1000000000 and the
    prefix is 0.  The second candidate puts the author one second back:
    the nine digits of 999999999 overwrite the first nine of the ten
    digits in the buffer, the digest of that buffer starts with 0, and
    the worker reports 999999999.  The record rebuilt with the reported
    dates has a digest that does not start with 0. *)
Theorem digit_count_change_breaks_solution :
  let sol := Solution (Date 999999999 (lit "+0000")) (Date 1000000000 (lit "+0000")) in
  (Explore.run 4 Explore.init).1 = [Try 0 0; Try 0 1]
  ∧ bruteForce Samples.commitAtBillion 12 (lit "0") [Try 0 0; Try 0 1] = Ok (Some sol)
  ∧ ∃ r, rebuilt Samples.commitAtBillion sol = Some r
         ∧ Hex.hexEncode (Sha1.sum r) = lit "e76e0fe52a012467f07d152bdc675d196508b452"
         ∧ hasHexPrefix (lit "0") (Sha1.sum r) = false.
Proof.
  cbn zeta. split_and!.
  - reflexivity.
  - vm_compute. reflexivity.
  - eexists. split; [vm_compute; reflexivity|]. split; vm_compute; reflexivity.
Qed.

End WorkerFacts.

(** ** Properties of the coordinator *)

Module CoordinatorFacts.
Import Explore Worker Coordinator.

Lemma deliveries_cons (l : label) (ls : list label) :
  deliveries (l :: ls) = ((if isDeliver l then 1 else 0) + deliveries ls)%nat.
Proof. unfold deliveries. rewrite filter_cons. by destruct l. Qed.

(** One move: [main] receives exactly on a delivery, which needs it to
    wait; [done] is closed exactly when [main] is past [close(done)]. *)
Lemma step_received (c : config) (s s' : sys) (l : label) :
  step c s l = Next s' →
  received (mainAt s') = ((if isDeliver l then 1 else 0) + received (mainAt s))%nat
  ∧ (isDeliver l = true → mainAt s = MWait)
  ∧ ((∀ w, mainAt s = MClosed w → doneClosed s = true) →
     ∀ w, mainAt s' = MClosed w → doneClosed s' = true)
  ∧ ((doneClosed s = true → ∃ w, mainAt s = MClosed w) →
     doneClosed s' = true → ∃ w, mainAt s' = MClosed w).
Proof.
  destruct l as [|i|i|]; cbn [step isDeliver].
  - destruct (Explore.step (explorer s)) as [[t|] x'].
    + case_decide; [|done]. intros [= <-]. cbn. split_and!; [done|done|auto|auto].
    + intros [= <-]. cbn. split_and!; [done|done|auto|auto].
  - destruct (workers s !! i) as [[|w|w t|w t| |]|]; try done.
    + destruct (initWorker _ _ _); cbn; try done.
      intros [= <-]. cbn. split_and!; [done|done|auto|auto].
    + destruct (possibilities s); [done|].
      intros [= <-]. cbn. split_and!; [done|done|auto|auto].
    + destruct (doneClosed s) eqn:Hd.
      all: intros [= <-]; cbn; rewrite ?Hd; split_and!; [done|done|auto|auto].
    + destruct (attempt w t) as [[[w' hx] [sol|]]| |]; cbn; try done.
      all: intros [= <-]; cbn; split_and!; [done|done|auto|auto].
  - destruct (workers s !! i) as [[| | | |sol|]|]; try done.
    destruct (mainAt s) eqn:Hm; try done.
    intros [= <-]. cbn. split_and!; [done|done| |].
    + intros _ w [=].
    + intros H Hd. by destruct (H Hd).
  - destruct (mainAt s) eqn:Hm; try done.
    intros [= <-]. cbn. split_and!; [done|done|auto|eauto].
Qed.

Lemma play_received (c : config) (ls : list label) (s s' : sys) :
  play c s ls = Some s' →
  received (mainAt s') = (deliveries ls + received (mainAt s))%nat
  ∧ ((∀ w, mainAt s = MClosed w → doneClosed s = true) →
     ∀ w, mainAt s' = MClosed w → doneClosed s' = true)
  ∧ ((doneClosed s = true → ∃ w, mainAt s = MClosed w) →
     doneClosed s' = true → ∃ w, mainAt s' = MClosed w).
Proof.
  revert s. induction ls as [|l ls IH]; intros s; cbn [play].
  - intros [= <-]. split_and!; [done|auto|auto].
  - destruct (step c s l) as [s1| |] eqn:Hs; try done.
    intros Hp. destruct (step_received _ _ _ _ Hs) as (H1 & _ & H3 & H3').
    destruct (IH _ Hp) as (H4 & H5 & H5').
    rewrite deliveries_cons. split_and!; [lia| |].
    + intros H. apply H5, H3, H.
    + intros H. apply H5', H3', H.
Qed.

(** No delivery can be made once [main] has a solution. *)
Lemma deliver_blocked (c : config) (s : sys) (i : nat) :
  mainAt s ≠ MWait → step c s (LDeliver i) = Blocked.
Proof.
  intros Hm. cbn [step]. destruct (workers s !! i) as [[| | | |sol|]|]; try done.
  by destruct (mainAt s).
Qed.

(** A delivery hands [main] the solution the worker was sending. *)
Lemma deliver_solution (c : config) (s s' : sys) (i : nat) :
  step c s (LDeliver i) = Next s' →
  ∃ sol, workers s !! i = Some (WSend sol) ∧ mainAt s' = MGot sol
         ∧ workers s' !! i = Some WExit.
Proof.
  cbn [step]. destruct (workers s !! i) as [[| | | |sol|]|] eqn:Hw; try done.
  destruct (mainAt s); try done. intros [= <-]. exists sol. cbn.
  split_and!; [done|done|].
  apply list_lookup_insert_eq. by eapply lookup_lt_Some.
Qed.

(** Once [main] holds a solution it keeps it. *)
Lemma step_keeps (c : config) (s s' : sys) (l : label) (sol : solution) :
  step c s l = Next s' →
  mainAt s = MGot sol ∨ mainAt s = MClosed sol →
  mainAt s' = MGot sol ∨ mainAt s' = MClosed sol.
Proof.
  intros Hs Hm.
  destruct l as [|i|i|]; cbn [step] in Hs.
  - destruct (Explore.step (explorer s)) as [[t|] x'].
    + case_decide; [|done]. by injection Hs as <-.
    + by injection Hs as <-.
  - destruct (workers s !! i) as [[|w|w t|w t| |]|]; try done.
    + destruct (initWorker _ _ _); cbn in Hs; try done. by injection Hs as <-.
    + destruct (possibilities s); [done|]. by injection Hs as <-.
    + destruct (doneClosed s); by injection Hs as <-.
    + destruct (attempt w t) as [[[w' hx] [sol'|]]| |]; cbn in Hs; try done.
      all: by injection Hs as <-.
  - destruct (workers s !! i) as [[| | | |sol'|]|]; try done.
    destruct (mainAt s); try done. by destruct Hm.
  - destruct (mainAt s) as [|w|w] eqn:Hw; try done. injection Hs as <-. cbn.
    right. destruct Hm as [[= ->]|[=]]. done.
Qed.

Lemma play_keeps (c : config) (ls : list label) (s s' : sys) (sol : solution) :
  play c s ls = Some s' →
  mainAt s = MGot sol ∨ mainAt s = MClosed sol →
  mainAt s' = MGot sol ∨ mainAt s' = MClosed sol.
Proof.
  revert s. induction ls as [|l ls IH]; intros s; cbn [play].
  - by intros [= <-].
  - destruct (step c s l) as [s1| |] eqn:Hs; try done.
    intros Hp Hm. eapply IH; [done|]. by eapply step_keeps.
Qed.

Lemma play_app (c : config) (l1 l2 : list label) (s : sys) :
  play c s (l1 ++ l2) = (s1 ← play c s l1; play c s1 l2).
Proof.
  revert s. induction l1 as [|l l1 IH]; intros s; [done|].
  cbn [app play]. by destruct (step c s l).
Qed.

(** What [main] does with a solution in hand: it closes [done], which
    never blocks, and no worker is touched or waited for. *)
Lemma main_closes (c : config) (s : sys) (sol : solution) :
  mainAt s = MGot sol →
  ∃ s', step c s LMain = Next s' ∧ mainAt s' = MClosed sol
        ∧ doneClosed s' = true ∧ workers s' = workers s.
Proof. intros Hm. cbn [step]. rewrite Hm. eauto. Qed.

(** A worker that tests [done] after it was closed returns. *)
Lemma select_sees_done (c : config) (s : sys) (i : nat) (w : worker) (t : try) :
  doneClosed s = true → workers s !! i = Some (WSelect w t) →
  ∃ s', step c s (LWorker i) = Next s' ∧ workers s' !! i = Some WExit.
Proof.
  intros Hd Hi. cbn [step]. rewrite Hi, Hd. eexists. split; [done|]. cbn.
  apply list_lookup_insert_eq. by eapply lookup_lt_Some.
Qed.

(** C8.  For every number of workers and along every schedule of the
    goroutines, [main] receives at most one solution: the deliveries on
    [winner] number 0 while [main] still waits and 1 from then on; the
    solution [main] holds is the one of the worker it met, which has
    returned; from the moment [main] holds a solution no further
    delivery can be made, so what the other workers found is neither
    awaited nor looked at.  The cancellation follows the delivery:
    [done] is closed exactly when [main] is past [close(done)], never
    before it has a solution; [main], holding a solution, can always
    make its next move, which closes [done] and touches no worker; and
    once [done] is closed every worker that comes to test it in its
    [select] returns. *)
Theorem at_most_one_solution (c : config) (ls : list label) (s : sys) :
  play c (started c) ls = Some s →
  (deliveries ls ≤ 1)%nat
  ∧ deliveries ls = received (mainAt s)
  ∧ (∀ w, mainAt s = MClosed w → doneClosed s = true)
  ∧ (mainAt s ≠ MWait → ∀ i, step c s (LDeliver i) = Blocked)
  ∧ (∀ l1 i l2, ls = l1 ++ LDeliver i :: l2 →
       ∃ s1 sol, play c (started c) l1 = Some s1
                 ∧ workers s1 !! i = Some (WSend sol)
                 ∧ (mainAt s = MGot sol ∨ mainAt s = MClosed sol))
  ∧ (doneClosed s = true → ∃ w, mainAt s = MClosed w)
  ∧ (∀ sol, mainAt s = MGot sol →
       ∃ s', step c s LMain = Next s' ∧ mainAt s' = MClosed sol
             ∧ doneClosed s' = true ∧ workers s' = workers s)
  ∧ (doneClosed s = true → ∀ i w t, workers s !! i = Some (WSelect w t) →
       ∃ s', step c s (LWorker i) = Next s' ∧ workers s' !! i = Some WExit).
Proof.
  intros Hp. destruct (play_received _ _ _ _ Hp) as (Hr & Hd & Hd').
  cbn [started mainAt received] in Hr. rewrite Nat.add_0_r in Hr.
  split_and!.
  - rewrite <- Hr. destruct (mainAt s); cbn; lia.
  - done.
  - apply Hd. by cbn.
  - intros Hm i. by apply deliver_blocked.
  - intros l1 i l2 ->. rewrite play_app in Hp.
    destruct (play c (started c) l1) as [s1|] eqn:H1; [|done].
    cbn [mbind option_bind play] in Hp.
    destruct (step c s1 (LDeliver i)) as [s2| |] eqn:H2; try done.
    destruct (deliver_solution _ _ _ _ H2) as (sol & Hw & Hm & _).
    exists s1, sol. split_and!; [done|done|].
    eapply play_keeps; [done|by left].
  - apply Hd'. by cbn.
  - intros sol. apply main_closes.
  - intros Hc i w t. by apply select_sees_done.
Qed.

(** Two workers on a record whose first two candidates both match:
    each finds a solution, [main] takes the one of worker 1, and
    worker 0 stays at its send for good. *)
Lemma at_most_one_solution_witness :
  (deliveries Samples.raceSchedule ≤ 1)%nat
  ∧ deliveries Samples.raceSchedule = received (mainAt Samples.raceEnd)
  ∧ (∀ w, mainAt Samples.raceEnd = MClosed w → doneClosed Samples.raceEnd = true)
  ∧ (mainAt Samples.raceEnd ≠ MWait →
     ∀ i, step Samples.twoWorkers Samples.raceEnd (LDeliver i) = Blocked)
  ∧ (∀ l1 i l2, Samples.raceSchedule = l1 ++ LDeliver i :: l2 →
       ∃ s1 sol, play Samples.twoWorkers (started Samples.twoWorkers) l1 = Some s1
                 ∧ workers s1 !! i = Some (WSend sol)
                 ∧ (mainAt Samples.raceEnd = MGot sol
                    ∨ mainAt Samples.raceEnd = MClosed sol))
  ∧ (doneClosed Samples.raceEnd = true → ∃ w, mainAt Samples.raceEnd = MClosed w)
  ∧ (∀ sol, mainAt Samples.raceEnd = MGot sol →
       ∃ s', step Samples.twoWorkers Samples.raceEnd LMain = Next s'
             ∧ mainAt s' = MClosed sol
             ∧ doneClosed s' = true ∧ workers s' = workers Samples.raceEnd)
  ∧ (doneClosed Samples.raceEnd = true →
     ∀ i w t, workers Samples.raceEnd !! i = Some (WSelect w t) →
       ∃ s', step Samples.twoWorkers Samples.raceEnd (LWorker i) = Next s'
             ∧ workers s' !! i = Some WExit).
Proof.
  apply (at_most_one_solution Samples.twoWorkers Samples.raceSchedule Samples.raceEnd).
  vm_compute. reflexivity.
Defined.

Example race_end :
  main Samples.twoWorkers = Ok (Some (started Samples.twoWorkers))
  ∧ workers Samples.raceEnd
    = [WSend (Solution (Date 1400000000 (lit "+0000")) (Date 1400000000 (lit "+0000")));
       WExit]
  ∧ mainAt Samples.raceEnd
    = MClosed (Solution (Date 1399999999 (lit "+0000")) (Date 1400000000 (lit "+0000")))
  ∧ doneClosed Samples.raceEnd = true.
Proof. vm_compute. done. Qed.

(** *** The prefix check of [main] *)

Lemma checkPrefix_cases (p : bytes) :
  checkPrefix p = Ok tt ∨ checkPrefix p = Fatal PrefixNotHex.
Proof. unfold checkPrefix. destruct (Strconv.ParseInt p 16) as [v [e|]]; auto. Qed.

Lemma checkPrefix_Ok (p : bytes) :
  checkPrefix p = Ok tt ↔ (Strconv.ParseInt p 16).2 = None.
Proof. unfold checkPrefix. by destruct (Strconv.ParseInt p 16) as [v [e|]]. Qed.

(** C10, as the code has it.  The prefix check ends in the fatal error
    or lets the prefix pass, and it lets it pass exactly when
    [strconv.ParseInt(prefix, 16, 64)] succeeds: for at least one
    hexadecimal digit, of a value below [2^63], after an optional plus
    sign, or of a value up to [2^63] after a minus sign.  So the empty
    string is rejected, and so is every string of more than 16
    hexadecimal digits that does not start with [0], although it is
    hexadecimal text; leading zeros do not count; and a sign is accepted
    although it is no hexadecimal digit. *)
Theorem checkPrefix_accepts (p : bytes) :
  (checkPrefix p = Ok tt ∨ checkPrefix p = Fatal PrefixNotHex)
  ∧ (checkPrefix p = Ok tt ↔ (Strconv.ParseInt p 16).2 = None)
  ∧ (checkPrefix p = Ok tt ↔
       (∃ ds, (p = ds ∨ p = "+"%byte :: ds) ∧ ds ≠ []
              ∧ forallb Strconv.isHexDigit ds = true
              ∧ (Strconv.valOf 16 ds 0 < 2 ^ 63)%N)
       ∨ (∃ ds, p = "-"%byte :: ds ∧ ds ≠ []
                ∧ forallb Strconv.isHexDigit ds = true
                ∧ (Strconv.valOf 16 ds 0 <= 2 ^ 63)%N))
  ∧ checkPrefix [] = Fatal PrefixNotHex
  ∧ (∀ c rest, forallb Strconv.isHexDigit (c :: rest) = true → c ≠ "0"%byte →
               (16 ≤ length rest)%nat →
               checkPrefix (c :: rest) = Fatal PrefixNotHex).
Proof.
  assert (checkPrefix p = Ok tt ↔
       (∃ ds, (p = ds ∨ p = "+"%byte :: ds) ∧ ds ≠ []
              ∧ forallb Strconv.isHexDigit ds = true
              ∧ (Strconv.valOf 16 ds 0 < 2 ^ 63)%N)
       ∨ (∃ ds, p = "-"%byte :: ds ∧ ds ≠ []
                ∧ forallb Strconv.isHexDigit ds = true
                ∧ (Strconv.valOf 16 ds 0 <= 2 ^ 63)%N)) as Hchar.
  { rewrite checkPrefix_Ok. setoid_rewrite <- StrconvFacts.Forall_isDigit_hex.
    destruct (Strconv.ParseInt p 16) as [v e] eqn:HP. cbn [snd]. split.
    - intros ->. apply StrconvFacts.ParseInt_spec in HP; [|by right].
      destruct HP as [(ds & ? & ? & ? & ? & _)|(ds & ? & ? & ? & ? & _)];
        [left|right]; exists ds; done.
    - intros H.
      assert (∃ v', Strconv.ParseInt p 16 = (v', None)) as [v' Hv'];
        [|rewrite HP in Hv'; by injection Hv'].
      destruct H as [(ds & ? & ? & ? & ?)|(ds & ? & ? & ? & ?)].
      + exists (Z.of_N (Strconv.valOf 16 ds 0)).
        apply StrconvFacts.ParseInt_spec; [by right|]. left. by exists ds.
      + exists (- Z.of_N (Strconv.valOf 16 ds 0)).
        apply StrconvFacts.ParseInt_spec; [by right|]. right. by exists ds. }
  split_and!.
  - apply checkPrefix_cases.
  - apply checkPrefix_Ok.
  - exact Hchar.
  - reflexivity.
  - intros c rest Hhex Hnz Hlen.
    destruct (checkPrefix_cases (c :: rest)) as [Hok|]; [exfalso|done].
    clear Hchar. pose proof Hhex as Hhex'. cbn [forallb] in Hhex'.
    apply andb_true_iff in Hhex' as [Hc _].
    pose proof (StrconvFacts.long_hex_value c rest Hc Hnz Hlen) as Hbig.
    apply checkPrefix_Ok in Hok.
    destruct (Strconv.ParseInt (c :: rest) 16) as [v e] eqn:HP. cbn in Hok. subst e.
    apply StrconvFacts.ParseInt_spec in HP; [|by right].
    destruct HP as [(ds & [<-|[= -> _]] & _ & _ & Hlt & _)|(ds & [= -> _] & _)];
      try done.
    change (2 ^ 64)%N with 18446744073709551616%N in Hbig.
    change (2 ^ 63)%N with 9223372036854775808%N in Hlt. lia.
Qed.

(** C10 as stated fails on leading zeros: 17 hexadecimal digits, all
    [0], pass the check. *)
Lemma seventeen_zeros_accepted :
  length (lit "00000000000000000") = 17%nat
  ∧ forallb Strconv.isHexDigit (lit "00000000000000000") = true
  ∧ checkPrefix (lit "00000000000000000") = Ok tt.
Proof. vm_compute. done. Qed.

(** No hex text of a digest starts with a prefix that begins with a
    sign. *)
Lemma signed_prefix_never_matches (digest rest : bytes) :
  Strconv.HasPrefix (Hex.hexEncode digest) (Strconv.ToLower ("-"%byte :: rest)) = false.
Proof.
  unfold Strconv.HasPrefix. apply andb_false_iff. right.
  apply bool_decide_eq_false. intros Heq.
  pose proof (HexFacts.hexEncode_lower digest) as Hlow.
  destruct (Hex.hexEncode digest) as [|x xs]; [done|].
  cbn in Heq. injection Heq as -> _. done.
Qed.

(** C7 on the code: the check of [main] is [ParseInt] in base 16, not a
    test for hexadecimal text.  It lets ["-1"] pass, which no digest can
    ever match, and it ends the program with "isn't hex" on sixteen
    [f]s, which are hexadecimal text. *)
Theorem prefix_check_is_not_a_hex_check :
  forallb Strconv.isHexDigit (lit "-1") = false
  ∧ checkPrefix (lit "-1") = Ok tt
  ∧ (∀ digest, Strconv.HasPrefix (Hex.hexEncode digest) (Strconv.ToLower (lit "-1")) = false)
  ∧ forallb Strconv.isHexDigit (lit "ffffffffffffffff") = true
  ∧ checkPrefix (lit "ffffffffffffffff") = Fatal PrefixNotHex.
Proof.
  split_and!; try (vm_compute; reflexivity).
  intros digest. apply signed_prefix_never_matches.
Qed.

End CoordinatorFacts.

(** * Further properties *)

(** ** Number and date text *)

Module CodecProps.
Import Strconv.

Lemma dchar_digit (u : N) :
  (u < 10)%N → digitOf (dchar u) = Some u ∧ (48 <= byteN (dchar u) <= 57)%N.
Proof.
  intros Hu.
  assert (u = 0 ∨ u = 1 ∨ u = 2 ∨ u = 3 ∨ u = 4 ∨ u = 5 ∨ u = 6 ∨ u = 7
          ∨ u = 8 ∨ u = 9)%N as H by lia.
  repeat destruct H as [->|H]; try subst u; vm_compute; split_and!; done.
Qed.

(** [formatUint] writes canonical decimal text of the value it is
    given. *)
Lemma formatUint_spec (u : N) :
  canonicalUint (formatUint u) ∧ valOf 10 (formatUint u) 0 = u.
Proof.
  induction (N.lt_wf_0 u) as [u _ IH].
  destruct (N.lt_ge_cases u 10) as [Hu|Hu].
  - rewrite StrconvFacts.formatUint_small by done.
    destruct (dchar_digit u Hu) as [Hd Hr].
    split; [split_and!|].
    + done.
    + by apply Forall_singleton.
    + cbn. by intros [= ->].
    + rewrite StrconvFacts.valOf_cons, StrconvFacts.valOf_nil, Hd. done.
  - rewrite StrconvFacts.formatUint_step by done.
    assert (u / 10 < u)%N as Hlt by (apply N.div_lt; lia).
    assert (1 <= u / 10)%N as Hpos by (apply N.div_le_lower_bound; lia).
    assert (u mod 10 < 10)%N as Hm by (apply N.mod_lt; lia).
    destruct (IH _ Hlt) as ((Hne & HF & Hz) & Hv).
    destruct (dchar_digit _ Hm) as [Hd Hr].
    split; [split_and!|].
    + by destruct (formatUint (u / 10)).
    + apply Forall_app. split; [done|]. by apply Forall_singleton.
    + intros Hh. exfalso.
      destruct (formatUint (u / 10)) as [|c ds] eqn:Hf; [done|].
      cbn in Hh. injection Hh as ->.
      rewrite (Hz eq_refl) in Hv.
      change (valOf 10 ["0"%byte] 0) with 0%N in Hv. lia.
    + rewrite StrconvFacts.valOf_app, Hv, StrconvFacts.valOf_cons,
        StrconvFacts.valOf_nil, Hd.
      change (default 0%N (Some ?x)) with x.
      pose proof (N.div_mod u 10). lia.
Qed.

(** What [formatInt] prints for an [int64], [ParseInt] reads back in
    base 10 as the same number, without error. *)
Lemma ParseInt_formatInt (i : Z) :
  inInt64 i → ParseInt (formatInt i) 10 = (i, None).
Proof.
  intros Hi. apply StrconvFacts.ParseInt_spec; [by left|].
  unfold formatInt. destruct (Z.ltb_spec i 0) as [Hneg|Hpos].
  - right. exists (formatUint (Z.to_N (- i))).
    destruct (formatUint_spec (Z.to_N (- i))) as ((Hne & HF & _) & Hv).
    rewrite Hv. split_and!; try done.
    + by apply StrconvFacts.decimal_isDigit.
    + ints. lia.
    + lia.
  - left. exists (formatUint (Z.to_N i)).
    destruct (formatUint_spec (Z.to_N i)) as ((Hne & HF & _) & Hv).
    rewrite Hv. split_and!; try done.
    + by left.
    + by apply StrconvFacts.decimal_isDigit.
    + ints. lia.
    + lia.
Qed.

Lemma ParseInt_formatInt_witness :
  ParseInt (formatInt (-9223372036854775808)) 10 = (-9223372036854775808, None).
Proof. apply ParseInt_formatInt. ints. lia. Defined.

Lemma formatInt_no_space (i : Z) : space ∉ formatInt i.
Proof.
  assert (∀ u, space ∉ formatUint u) as Hu.
  { intros u Hin. destruct (formatUint_spec u) as ((_ & HF & _) & _).
    rewrite Forall_forall in HF. specialize (HF _ Hin). vm_compute in HF.
    destruct HF as [H _]. by apply H. }
  unfold formatInt. destruct (i <? 0); [|done].
  rewrite not_elem_of_cons. split; [done|apply Hu].
Qed.

(** X1: [getDate] undoes [String]: where the pattern matches a field
    that is a date as [String] prints it, [getDate] returns that date and
    the offset of the field. *)
Theorem getDate_String (h rx : bytes) (m2 m3 : nat) (d : date) :
  Regexp.FindSubmatchIndex rx h = Some (m2, m3) →
  sub h m2 m3 = date_String d →
  inInt64 (n d) →
  getDate h rx = Ok (d, m2).
Proof.
  intros Hm Hv Hn. destruct d as [v zone].
  eapply DateFacts.getDate_field; [done|exact Hv|].
  by apply ParseInt_formatInt.
Qed.

Lemma getDate_String_witness :
  getDate Samples.commitPlain Regexp.committerDateRx
  = Ok (Date 1000000000 (lit "-0700"), 128%nat).
Proof.
  apply (getDate_String Samples.commitPlain Regexp.committerDateRx 128 144
           (Date 1000000000 (lit "-0700"))).
  - vm_compute. reflexivity.
  - vm_compute. reflexivity.
  - cbn. ints. lia.
Defined.

End CodecProps.

(** ** Hex text and prefixes *)

Module HexProps.
Import Hex.

(** X4: [hexInPlace] returns exactly when the capacity of its slice is
    at least twice the length; below that, the re-slicing panics. *)
Theorem hexInPlace_returns_iff (v : slice) :
  is_Some (hexInPlace v) ↔ (2 * len v ≤ cap v)%nat.
Proof.
  split.
  - intros [h Hh]. apply Nat.nlt_ge. intros Hlt.
    by rewrite HexFacts.hexInPlace_panics in Hh.
  - intros Hc. rewrite HexFacts.hexInPlace_spec by done. eauto.
Qed.

Lemma toLowerByte_lower (c : byte) : isLowerHex c = true → Strconv.toLowerByte c = c.
Proof. by destruct c. Qed.

Lemma toLowerByte_idem (c : byte) :
  Strconv.toLowerByte (Strconv.toLowerByte c) = Strconv.toLowerByte c.
Proof. by destruct c. Qed.

Lemma ToLower_idem (s : bytes) : Strconv.ToLower (Strconv.ToLower s) = Strconv.ToLower s.
Proof.
  unfold Strconv.ToLower. rewrite <- list_fmap_compose.
  apply list_fmap_ext. intros _ c _. apply toLowerByte_idem.
Qed.

(** Lowering the hex text of a digest changes nothing. *)
Lemma ToLower_hexEncode (d : bytes) : Strconv.ToLower (hexEncode d) = hexEncode d.
Proof.
  pose proof (HexFacts.hexEncode_lower d) as H.
  induction (hexEncode d) as [|c s IH]; [done|].
  cbn in H. apply andb_true_iff in H as [Hc Hs].
  unfold Strconv.ToLower in *. cbn. by rewrite toLowerByte_lower, IH.
Qed.

(** A prefix of lowercase hex text is lowercase hex text. *)
Lemma HasPrefix_lower (s p : bytes) :
  Strconv.HasPrefix s p = true → forallb isLowerHex s = true →
  forallb isLowerHex p = true.
Proof.
  unfold Strconv.HasPrefix. intros [_ Hp%bool_decide_eq_true]%andb_true_iff Hs.
  rewrite <- Hp. rewrite forallb_forall in *. intros c Hc. apply Hs.
  apply list_elem_of_In. apply list_elem_of_In in Hc.
  apply elem_of_take in Hc as (i & Hi & _). by eapply list_elem_of_lookup_2.
Qed.

End HexProps.

(** ** The worker, further *)

Module WorkerProps.
Import Explore Worker.

(** What a matching attempt tells. *)
Lemma attempt_Some (w : worker) (t : try) (w' : worker) (hx : bytes) (sol : solution) :
  wf w → attempt w t = Ok (w', hx, Some sol) →
  hx = Hex.hexEncode (Sha1.sum (contents (blob w')))
  ∧ Strconv.HasPrefix hx (wantHexPrefix w) = true
  ∧ sol = Solution (candidateDates w t).1 (candidateDates w t).2.
Proof.
  intros Hwf Hat.
  destruct (WorkerFacts.attempt_ok w t Hwf) as (b' & hb & _ & _ & Hat').
  rewrite Hat in Hat'. injection Hat' as -> -> Hsol. cbn [blob].
  destruct (Strconv.HasPrefix _ _); [|done]. by injection Hsol as ->.
Qed.

(** The buffer of a matching attempt has a digest with the prefix. *)
Lemma attempt_matches
    (obj : bytes) (spare : nat) (prefix : bytes) (w0 w w' : worker)
    (t : try) (hx : bytes) (sol : solution) :
  initWorker obj spare prefix = Ok w0 → reaches w0 w →
  attempt w t = Ok (w', hx, Some sol) →
  hasHexPrefix prefix (Sha1.sum (contents (blob w'))) = true
  ∧ sol = Solution
            (Date (wrap64 (n (authorDate w0) - authorBehind t)) (tz (authorDate w0)))
            (Date (wrap64 (n (commitDate w0) - commitBehind t)) (tz (commitDate w0))).
Proof.
  intros Hinit Hre Hat.
  pose proof (WorkerFacts.initWorker_wf _ _ _ _ Hinit) as Hwf.
  destruct (WorkerFacts.reaches_wf _ _ Hre Hwf) as (Hwf1 & Ha & _ & Hc & _ & Hp & _).
  destruct (attempt_Some _ _ _ _ _ Hwf1 Hat) as (-> & Hpre & ->).
  apply WorkerFacts.initWorker_Ok in Hinit as (a & ai & c & ci & _ & _ & Hw0).
  split.
  - unfold hasHexPrefix. rewrite HexProps.ToLower_hexEncode.
    rewrite Hp, Hw0 in Hpre. exact Hpre.
  - unfold candidateDates. cbn [fst snd]. by rewrite Ha, Hc.
Qed.

Lemma workLoop_Some_inv (w0 w' : worker) (ts : list try) (sol : solution) :
  wf w0 → workLoop w0 ts = Ok (w', Some sol) →
  ∃ w t hx, reaches w0 w ∧ t ∈ ts ∧ attempt w t = Ok (w', hx, Some sol).
Proof.
  intros Hwf Hloop.
  destruct (WorkerFacts.workLoop_result w0 ts Hwf) as (w2 & r & Hloop' & Hr).
  rewrite Hloop in Hloop'. by injection Hloop' as <- <-.
Qed.

(** X5: a solution the loop reports comes with a buffer whose digest,
    in hex, starts with the prefix, letters compared without case; and
    its dates are those of one of the candidates. *)
Theorem reported_buffer_matches
    (obj : bytes) (spare : nat) (prefix : bytes) (w0 w' : worker)
    (ts : list try) (sol : solution) :
  initWorker obj spare prefix = Ok w0 →
  workLoop w0 ts = Ok (w', Some sol) →
  hasHexPrefix prefix (Sha1.sum (contents (blob w'))) = true
  ∧ ∃ t, t ∈ ts
      ∧ sol = Solution
                (Date (wrap64 (n (authorDate w0) - authorBehind t)) (tz (authorDate w0)))
                (Date (wrap64 (n (commitDate w0) - commitBehind t)) (tz (commitDate w0))).
Proof.
  intros Hinit Hloop.
  pose proof (WorkerFacts.initWorker_wf _ _ _ _ Hinit) as Hwf.
  destruct (workLoop_Some_inv _ _ _ _ Hwf Hloop) as (w & t & hx & Hre & Hin & Hat).
  destruct (attempt_matches _ _ _ _ _ _ _ _ _ Hinit Hre Hat) as [Hm Hsol].
  split; [done|]. by exists t.
Qed.

Lemma reported_buffer_matches_witness :
  hasHexPrefix (lit "0") (Sha1.sum (contents (blob Cases.workerAfterMatch))) = true
  ∧ ∃ t, t ∈ [Try 0 0]
      ∧ Cases.unshifted
        = Solution
            (Date (wrap64 (n (authorDate Samples.workerTwoMatches) - authorBehind t))
                  (tz (authorDate Samples.workerTwoMatches)))
            (Date (wrap64 (n (commitDate Samples.workerTwoMatches) - commitBehind t))
                  (tz (commitDate Samples.workerTwoMatches))).
Proof.
  apply (reported_buffer_matches Samples.commitTwoMatches 12 (lit "0")
           Samples.workerTwoMatches Cases.workerAfterMatch [Try 0 0] Cases.unshifted).
  - vm_compute. reflexivity.
  - vm_compute. reflexivity.
Defined.

(** The loop on a list in two parts. *)
Lemma workLoop_app (w : worker) (ts1 ts2 : list try) :
  workLoop w (ts1 ++ ts2)
  = match workLoop w ts1 with
    | Ok (w1, None) => workLoop w1 ts2
    | r => r
    end.
Proof.
  revert w. induction ts1 as [|t ts1 IH]; intros w; [done|].
  cbn [app workLoop]. destruct (attempt w t) as [[[w1 hx] [sol|]]| |]; try done.
  cbn [mbind outcome_bind]. apply IH.
Qed.

(** X6: the first match ends the loop: once a list of candidates gives
    a solution, candidates that follow are never looked at, and neither
    the solution nor the buffer depends on them. *)
Theorem first_match_wins (w w' : worker) (ts1 ts2 : list try) (sol : solution) :
  workLoop w ts1 = Ok (w', Some sol) →
  workLoop w (ts1 ++ ts2) = Ok (w', Some sol).
Proof. intros H. by rewrite workLoop_app, H. Qed.

Lemma first_match_wins_witness :
  workLoop Samples.workerTwoMatches ([Try 0 0] ++ [Try 0 1; Try 5 5])
  = Ok (Cases.workerAfterMatch, Some Cases.unshifted).
Proof. apply first_match_wins. vm_compute. reflexivity. Defined.

(** X7: [bruteForce] never panics, and it ends in a fatal error exactly
    when [getDate] fails on the author line, or succeeds there and fails
    on the committer line: whatever the candidates, none is taken
    then. *)
Theorem bruteForce_errors (obj : bytes) (spare : nat) (prefix : bytes) (ts : list try) :
  bruteForce obj spare prefix ts ≠ Panic
  ∧ ∀ e, bruteForce obj spare prefix ts = Fatal e ↔
         getDate (gitObject obj) Regexp.authorDateRx = Fatal e
         ∨ ((∃ x, getDate (gitObject obj) Regexp.authorDateRx = Ok x)
            ∧ getDate (gitObject obj) Regexp.committerDateRx = Fatal e).
Proof.
  destruct (initWorker obj spare prefix) as [w0| |] eqn:Hinit.
  - pose proof (WorkerFacts.initWorker_wf _ _ _ _ Hinit) as Hwf.
    destruct (WorkerFacts.workLoop_result w0 ts Hwf) as (w' & r & Hl & _).
    apply WorkerFacts.initWorker_Ok in Hinit as Hi.
    destruct Hi as (a & ai & c & ci & Ha & Hc & _).
    unfold bruteForce. rewrite Hinit. cbn [mbind outcome_bind]. rewrite Hl.
    cbn [mbind outcome_bind]. split; [done|]. intros e. split; [done|].
    rewrite Ha, Hc. by intros [|[_ ?]].
  - unfold bruteForce. rewrite Hinit. cbn [mbind outcome_bind].
    unfold initWorker in Hinit. rewrite WorkerFacts.contents_gitObject in Hinit.
    destruct (getDate (gitObject obj) Regexp.authorDateRx) as [[a ai]| |] eqn:Ha;
      cbn [mbind outcome_bind] in Hinit.
    + destruct (getDate (gitObject obj) Regexp.committerDateRx) as [[c ci]| |] eqn:Hc;
        cbn [mbind outcome_bind] in Hinit; try done.
      injection Hinit as ->. split; [done|]. intros e'. split.
      * intros [= ->]. right. eauto.
      * intros [|[_ [= ->]]]; done.
    + injection Hinit as ->. split; [done|]. intros e'. split.
      * intros [= ->]. by left.
      * intros [[= ->]|[[x ?] _]]; done.
    + by destruct (DateFacts.getDate_Fatal (gitObject obj) Regexp.authorDateRx) as (_ & _ & ?).
  - exfalso. unfold initWorker in Hinit.
    rewrite WorkerFacts.contents_gitObject in Hinit.
    destruct (getDate (gitObject obj) Regexp.authorDateRx) as [[a ai]| |] eqn:Ha;
      cbn [mbind outcome_bind] in Hinit; try done.
    + destruct (getDate (gitObject obj) Regexp.committerDateRx) as [[c ci]| |] eqn:Hc;
        cbn [mbind outcome_bind] in Hinit; try done.
      by destruct (DateFacts.getDate_Fatal (gitObject obj) Regexp.committerDateRx)
        as (_ & _ & ?).
    + by destruct (DateFacts.getDate_Fatal (gitObject obj) Regexp.authorDateRx) as (_ & _ & ?).
Qed.

(** X8: a prefix that, lowered, holds a byte other than [0-9a-f] is
    never matched: whatever the record and the candidates, the worker
    reports no solution. *)
Theorem non_hex_prefix_never_reported
    (obj : bytes) (spare : nat) (prefix : bytes) (ts : list try) (sol : solution) :
  forallb Hex.isLowerHex (Strconv.ToLower prefix) = false →
  bruteForce obj spare prefix ts ≠ Ok (Some sol).
Proof.
  intros Hbad Hbf. unfold bruteForce in Hbf.
  destruct (initWorker obj spare prefix) as [w0| |] eqn:Hinit; try done.
  cbn [mbind outcome_bind] in Hbf.
  destruct (workLoop w0 ts) as [[w' r]| |] eqn:Hl; try done.
  cbn [mbind outcome_bind] in Hbf. injection Hbf as ->.
  pose proof (WorkerFacts.initWorker_wf _ _ _ _ Hinit) as Hwf.
  destruct (workLoop_Some_inv _ _ _ _ Hwf Hl) as (w & t & hx & Hre & Hin & Hat).
  destruct (attempt_matches _ _ _ _ _ _ _ _ _ Hinit Hre Hat) as [Hm _].
  unfold hasHexPrefix in Hm. rewrite HexProps.ToLower_hexEncode in Hm.
  apply HexProps.HasPrefix_lower in Hm; [congruence|].
  apply HexFacts.hexEncode_lower.
Qed.

Lemma non_hex_prefix_never_reported_witness :
  bruteForce Samples.commitTwoMatches 12 (lit "-1") [Try 0 0; Try 0 1]
  ≠ Ok (Some Cases.unshifted).
Proof. apply non_hex_prefix_never_reported. vm_compute. reflexivity. Defined.

(** The case of the letters of the prefix does not matter to a
    worker: it searches for the lowered prefix. *)
Lemma prefix_case_ignored (obj : bytes) (spare : nat) (prefix : bytes) (ts : list try) :
  bruteForce obj spare prefix ts = bruteForce obj spare (Strconv.ToLower prefix) ts.
Proof. unfold bruteForce, initWorker. by rewrite HexProps.ToLower_idem. Qed.

Lemma appendShared_splice (l1 old new l3 : bytes) :
  length old = length new →
  appendShared (Slice (l1 ++ old ++ l3) (length l1)) new = l1 ++ new ++ l3.
Proof.
  intros Hlen. unfold appendShared, cap. cbn [arr len].
  rewrite decide_True by (rewrite !length_app; lia).
  replace (length l1) with (length l1 + 0)%nat by lia.
  rewrite list_inserts_app_r. f_equal. by apply list_inserts_0_r.
Qed.

(** X9: the two [AppendInt] statements replace, in the buffer, the bytes
    at the author offset and at the committer offset by the renderings
    of the two numbers, as many bytes as each rendering has, and leave
    all other bytes and the length alone. *)
Theorem rewrite_writes
    (w : worker) (ad cd : date) (l1 ra mid rc rest : bytes) :
  wf w →
  contents (blob w) = l1 ++ ra ++ mid ++ rc ++ rest →
  length l1 = adatei w →
  length ra = length (Strconv.formatInt (n ad)) →
  length (l1 ++ ra ++ mid) = cdatei w →
  length rc = length (Strconv.formatInt (n cd)) →
  ∃ b', rewrite w ad cd = Ok b'
        ∧ contents b'
          = l1 ++ Strconv.formatInt (n ad) ++ mid ++ Strconv.formatInt (n cd) ++ rest.
Proof.
  intros (_ & _ & Hcap & _) Hc H1 Ha H2 Hcd.
  destruct (blob w) as [a k] eqn:Hb. unfold contents, cap in *. cbn [arr len] in *.
  assert (a = (l1 ++ ra ++ mid ++ rc ++ rest) ++ drop k a) as Ha'
    by (by rewrite <- Hc, take_drop).
  assert (k = length (l1 ++ ra ++ mid ++ rc ++ rest)) as Hk
    by (rewrite <- Hc, length_take; lia).
  remember (Strconv.formatInt (n ad)) as fa eqn:Hfa.
  remember (Strconv.formatInt (n cd)) as fc eqn:Hfc.
  remember (drop k a) as sp eqn:Hsp. clear Hsp Hc.
  unfold rewrite, reslice, cap. rewrite Hb, <- Hfa, <- Hfc. cbn [arr len].
  clear Hb Hfa Hfc. subst a k. rewrite !length_app in *.
  rewrite decide_True by lia.
  cbn [orPanic mbind outcome_bind].
  rewrite <- H1.
  replace ((l1 ++ ra ++ mid ++ rc ++ rest) ++ sp)
    with (l1 ++ ra ++ (mid ++ rc ++ rest ++ sp)) by (by rewrite <- !app_assoc).
  rewrite appendShared_splice by done. cbn [arr].
  rewrite decide_True by (rewrite !length_app; lia).
  cbn [orPanic].
  replace (l1 ++ fa ++ mid ++ rc ++ rest ++ sp)
    with ((l1 ++ fa ++ mid) ++ rc ++ (rest ++ sp)) by (by rewrite <- !app_assoc).
  replace (cdatei w) with (length (l1 ++ fa ++ mid))
    by (rewrite !length_app; lia).
  cbn [mbind outcome_bind].
  rewrite appendShared_splice by done.
  eexists. split; [reflexivity|]. cbn [len arr].
  replace ((l1 ++ fa ++ mid) ++ fc ++ rest ++ sp)
    with ((l1 ++ fa ++ mid ++ fc ++ rest) ++ sp) by (by rewrite <- !app_assoc).
  apply take_app_length'. rewrite !length_app. lia.
Qed.

Lemma rewrite_writes_witness :
  let w := Samples.workerTwoMatches in
  let c := contents (blob w) in
  ∃ b', rewrite w (Date 7 []) (Date (-12) []) = Ok b'
        ∧ contents b'
          = take (adatei w) c ++ Strconv.formatInt 7
            ++ sub c (adatei w + 1) (cdatei w) ++ Strconv.formatInt (-12)
            ++ drop (cdatei w + 3) c.
Proof.
  cbn zeta.
  apply (rewrite_writes Samples.workerTwoMatches (Date 7 []) (Date (-12) [])
           _ (lit "1") _ (lit "140") _).
  - vm_compute. split_and!; (lia || reflexivity).
  - vm_compute. reflexivity.
  - vm_compute. reflexivity.
  - vm_compute. reflexivity.
  - vm_compute. reflexivity.
  - vm_compute. reflexivity.
Defined.

End WorkerProps.

(** ** The sequencer, further *)

Module ExploreProps.
Import Explore.

Lemma below_length (m : Z) : 0 <= m → Z.of_nat (length (below m)) = m * m.
Proof.
  intros Hm. pattern m. apply natlike_ind; [done| |done].
  clear m Hm. intros m Hm IH.
  replace (Z.succ m) with (m + 1) by lia.
  rewrite ExploreFacts.below_succ, length_app by done.
  pose proof (ExploreFacts.levelPairs_length m Hm). lia.
Qed.

Lemma levelPairs_lookup_first (m i : Z) :
  0 <= i < m → levelPairs m !! Z.to_nat i = Some (Try i m).
Proof.
  intros Hi. unfold levelPairs.
  rewrite lookup_app_l by (rewrite length_fmap, length_seqZ; lia).
  rewrite list_lookup_fmap, lookup_seqZ_lt by lia. cbn. do 2 f_equal. lia.
Qed.

Lemma levelPairs_lookup_second (m j : Z) :
  0 <= j <= m → levelPairs m !! Z.to_nat (m + j) = Some (Try m j).
Proof.
  intros Hj. unfold levelPairs.
  rewrite lookup_app_r by (rewrite length_fmap, length_seqZ; lia).
  rewrite length_fmap, length_seqZ.
  replace (Z.to_nat (m + j) - Z.to_nat m)%nat with (Z.to_nat j) by lia.
  rewrite list_lookup_fmap, lookup_seqZ_lt by lia. cbn. do 2 f_equal. lia.
Qed.

(** X10: where a pair stands in the sequence.  For every [m] below the
    largest [int], [explore] has sent exactly [m * m] pairs when it
    starts level [m]; then [(i, m)] is pair number [m * m + i] for
    [i < m], and [(m, j)] is pair number [m * m + m + j] for [j <= m],
    counting from 0: every pair of numbers from 0 up to [2^63 - 2] is
    sent. *)
Theorem explore_position (m k : Z) :
  0 <= m < maxInt64 → 0 <= k <= m →
  ∃ tr, sent tr
    ∧ Z.of_nat (length (below m)) = m * m
    ∧ below m `prefix_of` tr
    ∧ (k < m → tr !! Z.to_nat (m * m + k) = Some (Try k m))
    ∧ tr !! Z.to_nat (m * m + m + k) = Some (Try m k).
Proof.
  intros Hm Hk. exists (below m ++ levelPairs m).
  pose proof (below_length m ltac:(lia)) as Hlen.
  split_and!.
  - by apply ExploreFacts.sent_below_level.
  - done.
  - by exists (levelPairs m).
  - intros Hlt. rewrite lookup_app_r by lia.
    replace (Z.to_nat (m * m + k) - length (below m))%nat with (Z.to_nat k) by lia.
    apply levelPairs_lookup_first. lia.
  - rewrite lookup_app_r by lia.
    replace (Z.to_nat (m * m + m + k) - length (below m))%nat
      with (Z.to_nat (m + k)) by lia.
    by apply levelPairs_lookup_second.
Qed.

Lemma explore_position_witness :
  ∃ tr, sent tr
    ∧ Z.of_nat (length (below 2)) = 2 * 2
    ∧ below 2 `prefix_of` tr
    ∧ (1 < 2 → tr !! Z.to_nat (2 * 2 + 1) = Some (Try 1 2))
    ∧ tr !! Z.to_nat (2 * 2 + 2 + 1) = Some (Try 2 1).
Proof. apply (explore_position 2 1); unfold maxInt64; lia. Defined.

(** X11: the pairs come in the order of their larger coordinate: of two
    pairs among those of the levels below [m], the one sent first has a
    maximum that is not larger. *)
Theorem explore_order (m : Z) (i j : nat) (t1 t2 : try) :
  0 <= m <= maxInt64 → (i ≤ j)%nat →
  below m !! i = Some t1 → below m !! j = Some t2 →
  sent (below m)
  ∧ Z.max (commitBehind t1) (authorBehind t1)
    <= Z.max (commitBehind t2) (authorBehind t2).
Proof.
  intros Hm Hij H1 H2. split.
  { exists (St m LoopI 0). by apply ExploreFacts.below_exec. }
  destruct Hm as [Hm _]. revert i j t1 t2 Hij H1 H2. pattern m.
  apply natlike_ind; [| |done]; clear m Hm.
  - intros i j t1 t2 _ H1 _. unfold below in H1.
    rewrite seqZ_nil in H1 by lia. done.
  - intros m Hm IH i j t1 t2 Hij.
    replace (Z.succ m) with (m + 1) by lia.
    rewrite ExploreFacts.below_succ by done.
    rewrite !lookup_app. 
    destruct (below m !! i) as [x|] eqn:Hi; destruct (below m !! j) as [y|] eqn:Hj.
    + intros [= <-] [= <-]. by eapply IH.
    + intros [= <-] H2%list_elem_of_lookup_2.
      apply list_elem_of_lookup_2, ExploreFacts.elem_of_below in Hi.
      apply ExploreFacts.levelPairs_max in H2. lia.
    + apply lookup_ge_None in Hi. apply lookup_lt_Some in Hj. lia.
    + intros H1%list_elem_of_lookup_2 H2%list_elem_of_lookup_2.
      apply ExploreFacts.levelPairs_max in H1, H2. lia.
Qed.

Lemma explore_order_witness :
  sent (below 3)
  ∧ Z.max (commitBehind (Try 1 1)) (authorBehind (Try 1 1))
    <= Z.max (commitBehind (Try 0 2)) (authorBehind (Try 0 2)).
Proof.
  apply (explore_order 3 3 4); [unfold maxInt64; lia|lia|reflexivity|reflexivity].
Defined.

End ExploreProps.

(** ** The coordinator, further *)

Module CoordinatorProps.
Import Explore Worker Coordinator Schedule.

Lemma exec_snoc (s s1 s2 : Explore.state) (tr : list try) (o : option try) :
  exec s tr s1 → Explore.step s1 = (o, s2) → exec s (tr ++ option_list o) s2.
Proof.
  intros H Hs. eapply ExploreFacts.exec_app; [exact H|].
  rewrite <- (app_nil_r (option_list o)). eapply exec_step; [exact Hs|constructor].
Qed.

Lemma step_taken (c : config) (s s' : sys) (l : label) (pre : list try) :
  step c s l = Next s' →
  exec Explore.init (pre ++ possibilities s) (explorer s) →
  exec Explore.init (pre ++ takes s l ++ possibilities s') (explorer s').
Proof.
  intros Hs Hex. destruct l as [|i|i|]; cbn [step takes] in *.
  - destruct (Explore.step (explorer s)) as [[t|] x'] eqn:Hx.
    + case_decide; [|done]. injection Hs as <-. cbn.
      rewrite app_assoc. by apply (exec_snoc _ _ _ _ (Some t) Hex).
    + injection Hs as <-. cbn.
      rewrite <- (app_nil_r (pre ++ _)). by apply (exec_snoc _ _ _ _ None Hex).
  - destruct (workers s !! i) as [[|w|w t|w t| |]|]; try done.
    + destruct (initWorker _ _ _); cbn in Hs; try done. by injection Hs as <-.
    + destruct (possibilities s) as [|t q]; [done|]. by injection Hs as <-.
    + destruct (doneClosed s); by injection Hs as <-.
    + destruct (attempt w t) as [[[w' hx] [sol|]]| |]; cbn in Hs; try done.
      all: by injection Hs as <-.
  - destruct (workers s !! i) as [[| | | |sol|]|]; try done.
    destruct (mainAt s); try done. by injection Hs as <-.
  - destruct (mainAt s); try done. by injection Hs as <-.
Qed.

Lemma play_taken (c : config) (ls : list label) (s s' : sys) (pre : list try) :
  play c s ls = Some s' →
  exec Explore.init (pre ++ possibilities s) (explorer s) →
  exec Explore.init (pre ++ taken c s ls ++ possibilities s') (explorer s').
Proof.
  revert s pre. induction ls as [|l ls IH]; intros s pre; cbn [play taken].
  - by intros [= <-].
  - destruct (step c s l) as [s1| |] eqn:Hs; try done.
    intros Hp Hex. rewrite <- app_assoc, app_assoc.
    apply IH; [done|]. rewrite <- app_assoc. by eapply step_taken.
Qed.

(** The invariant of a search under way. *)
Lemma started_ok (c : config) : sysOk c (started c).
Proof.
  split_and!.
  - intros i th Hth. cbn in Hth. apply lookup_replicate in Hth as [-> _]. done.
  - by intros sol [|].
  - cbn. lia.
Qed.

Lemma reaches_snoc (w0 w w' : worker) (t : try) (hx : bytes) :
  reaches w0 w → attempt w t = Ok (w', hx, None) → reaches w0 w'.
Proof.
  intros Hre Hat. eapply WorkerFacts.reaches_trans; [exact Hre|].
  eapply reaches_next; [exact Hat|constructor].
Qed.

Lemma threadOk_insert (c : config) (ws : list wthread) (i : nat) (th : wthread) :
  (∀ j x, ws !! j = Some x → threadOk c x) → threadOk c th →
  ∀ j x, <[i:=th]> ws !! j = Some x → threadOk c x.
Proof.
  intros Hall Hth j x Hj.
  destruct (decide (i = j)) as [->|Hne].
  - destruct (decide (j < length ws)%nat).
    + rewrite list_lookup_insert_eq in Hj by done. by injection Hj as <-.
    + rewrite list_insert_ge in Hj by lia. eauto.
  - rewrite list_lookup_insert_ne in Hj by done. eauto.
Qed.

Lemma step_ok (c : config) (s s' : sys) (l : label) :
  step c s l = Next s' → sysOk c s → sysOk c s'.
Proof.
  intros Hs (Hw & Hm & Hq). destruct l as [|i|i|]; cbn [step] in Hs.
  - destruct (Explore.step (explorer s)) as [[t|] x'].
    + case_decide; [|done]. injection Hs as <-. split_and!; try done.
      cbn. rewrite length_app. cbn. lia.
    + by injection Hs as <-.
  - destruct (workers s !! i) as [[|w|w t|w t| |]|] eqn:Hi; try done.
    + destruct (initWorker _ _ _) as [w0| |] eqn:Hinit; cbn in Hs; try done.
      injection Hs as <-. split_and!; try done. cbn.
      apply threadOk_insert; [done|]. exists w0. split; [done|constructor].
    + destruct (possibilities s) as [|t q] eqn:Hp; [done|]. injection Hs as <-.
      split_and!; try done; cbn.
      * apply threadOk_insert; [done|]. apply (Hw _ _ Hi).
      * cbn in Hq. lia.
    + destruct (doneClosed s).
      * injection Hs as <-. split_and!; try done. cbn.
        by apply threadOk_insert.
      * injection Hs as <-. split_and!; try done. cbn.
        apply threadOk_insert; [done|]. apply (Hw _ _ Hi).
    + destruct (Hw _ _ Hi) as (w0 & Hinit & Hre).
      pose proof (WorkerFacts.initWorker_wf _ _ _ _ Hinit) as Hwf0.
      destruct (WorkerFacts.reaches_wf _ _ Hre Hwf0) as (Hwf & _).
      destruct (attempt w t) as [[[w' hx] [sol|]]| |] eqn:Hat; cbn in Hs; try done.
      * injection Hs as <-. split_and!; try done. cbn.
        apply threadOk_insert; [done|]. cbn.
        exists w0, w, t, w', hx. split_and!; try done.
        by destruct (WorkerProps.attempt_matches _ _ _ _ _ _ _ _ _ Hinit Hre Hat).
      * injection Hs as <-. split_and!; try done. cbn.
        apply threadOk_insert; [done|]. exists w0. split; [done|].
        by eapply reaches_snoc.
  - destruct (workers s !! i) as [[| | | |sol|]|] eqn:Hi; try done.
    destruct (mainAt s) eqn:Hma; try done. injection Hs as <-.
    split_and!; try done; cbn.
    + by apply threadOk_insert.
    + intros sol' [[= <-]|[=]]. apply (Hw _ _ Hi).
  - destruct (mainAt s) eqn:Hma; try done. injection Hs as <-.
    split_and!; try done; cbn.
    intros sol' [[=]|[= <-]]. apply Hm. by left.
Qed.

Lemma play_ok (c : config) (ls : list label) (s s' : sys) :
  play c s ls = Some s' → sysOk c s → sysOk c s'.
Proof.
  revert s. induction ls as [|l ls IH]; intros s; cbn [play].
  - by intros [= <-].
  - destruct (step c s l) as [s1| |] eqn:Hs; try done.
    intros Hp Hok. eapply IH; [done|]. by eapply step_ok.
Qed.

Lemma initWorker_not_panic (obj : bytes) (spare : nat) (prefix : bytes) :
  initWorker obj spare prefix ≠ Panic.
Proof.
  unfold initWorker. rewrite WorkerFacts.contents_gitObject.
  destruct (getDate (gitObject obj) Regexp.authorDateRx) as [[a ai]| |] eqn:Ha;
    cbn [mbind outcome_bind]; try done.
  - destruct (getDate (gitObject obj) Regexp.committerDateRx) as [[c ci]| |] eqn:Hc;
      cbn [mbind outcome_bind]; try done.
    by destruct (DateFacts.getDate_Fatal (gitObject obj) Regexp.committerDateRx)
      as (_ & _ & ?).
  - by destruct (DateFacts.getDate_Fatal (gitObject obj) Regexp.authorDateRx) as (_ & _ & ?).
Qed.

(** X12: what the workers have taken, in the order they took it,
    followed by what waits in [possibilities], is what [explore] has
    sent, in the order it sent it: no candidate is lost, none is handed
    out twice, and never more than 512 wait. *)
Theorem candidates_in_order (c : config) (ls : list label) (s : sys) :
  play c (started c) ls = Some s →
  exec Explore.init (taken c (started c) ls ++ possibilities s) (explorer s)
  ∧ (length (possibilities s) ≤ 512)%nat.
Proof.
  intros Hp. split.
  - apply (play_taken c ls (started c) s [] Hp). constructor.
  - by destruct (play_ok _ _ _ _ Hp (started_ok c)) as (_ & _ & ?).
Qed.

Lemma candidates_in_order_witness :
  exec Explore.init
       (taken Samples.twoWorkers (started Samples.twoWorkers) Samples.raceSchedule
        ++ possibilities Samples.raceEnd)
       (explorer Samples.raceEnd)
  ∧ (length (possibilities Samples.raceEnd) ≤ 512)%nat.
Proof.
  apply (candidates_in_order Samples.twoWorkers Samples.raceSchedule Samples.raceEnd).
  vm_compute. reflexivity.
Defined.

(** X13: a search under way never panics, and the only way it ends the
    process is the fatal error of [getDate] in a worker that starts. *)
Theorem search_never_panics (c : config) (ls : list label) (s : sys) (l : label)
    (e : option fatal) :
  play c (started c) ls = Some s →
  step c s l = Exits e →
  ∃ i e', l = LWorker i ∧ workers s !! i = Some WStart
          ∧ initWorker (obj c) (spare c) (prefix c) = Fatal e' ∧ e = Some e'.
Proof.
  intros Hp Hs.
  destruct (play_ok _ _ _ _ Hp (started_ok c)) as (Hw & _ & _).
  destruct l as [|i|i|]; cbn [step] in Hs.
  - destruct (Explore.step (explorer s)) as [[t|] x']; [case_decide|]; done.
  - destruct (workers s !! i) as [[|w|w t|w t| |]|] eqn:Hi; try done.
    + destruct (initWorker _ _ _) as [w0|e'|] eqn:Hinit; cbn in Hs; try done.
      * injection Hs as <-. by exists i, e'.
      * by apply initWorker_not_panic in Hinit.
    + by destruct (possibilities s).
    + by destruct (doneClosed s).
    + destruct (Hw _ _ Hi) as (w0 & Hinit & Hre).
      pose proof (WorkerFacts.initWorker_wf _ _ _ _ Hinit) as Hwf0.
      destruct (WorkerFacts.reaches_wf _ _ Hre Hwf0) as (Hwf & _).
      destruct (WorkerFacts.attempt_ok w t Hwf) as (b' & hb & _ & _ & Hat).
      rewrite Hat in Hs. cbn in Hs. by destruct (Strconv.HasPrefix _ _).
  - destruct (workers s !! i) as [[| | | |sol|]|]; try done. by destruct (mainAt s).
  - by destruct (mainAt s).
Qed.

Lemma search_never_panics_witness :
  ∃ i e', LWorker 0 = LWorker i
          ∧ workers (started Cases.noDates) !! i = Some WStart
          ∧ initWorker (obj Cases.noDates) (spare Cases.noDates) (prefix Cases.noDates)
            = Fatal e'
          ∧ Some FailedToMatch = Some e'.
Proof.
  apply (search_never_panics Cases.noDates [] (started Cases.noDates) (LWorker 0)
           (Some FailedToMatch)); vm_compute; reflexivity.
Defined.

(** X14: the solution [main] holds was given by an attempt of a worker
    of this search, and the buffer of that attempt has a digest that, in
    hex, starts with the prefix. *)
Theorem main_solution_was_found (c : config) (ls : list label) (s : sys) (sol : solution) :
  play c (started c) ls = Some s →
  mainAt s = MGot sol ∨ mainAt s = MClosed sol →
  found c sol.
Proof.
  intros Hp Hm.
  destruct (play_ok _ _ _ _ Hp (started_ok c)) as (_ & Hf & _). by apply Hf.
Qed.

Lemma main_solution_was_found_witness :
  found Samples.twoWorkers
    (Solution (Date 1399999999 (lit "+0000")) (Date 1400000000 (lit "+0000"))).
Proof.
  apply (main_solution_was_found Samples.twoWorkers Samples.raceSchedule Samples.raceEnd).
  - vm_compute. reflexivity.
  - right. vm_compute. reflexivity.
Defined.

Lemma step_loser (c : config) (s s' : sys) (l : label) (i : nat) (sol : solution) :
  step c s l = Next s' → mainAt s ≠ MWait → workers s !! i = Some (WSend sol) →
  workers s' !! i = Some (WSend sol) ∧ mainAt s' ≠ MWait.
Proof.
  intros Hs Hm Hi. destruct l as [|j|j|]; cbn [step] in Hs.
  - destruct (Explore.step (explorer s)) as [[t|] x'].
    + case_decide; [|done]. by injection Hs as <-.
    + by injection Hs as <-.
  - destruct (decide (j = i)) as [->|Hne].
    { by rewrite Hi in Hs. }
    destruct (workers s !! j) as [[|w|w t|w t| |]|]; try done.
    + destruct (initWorker _ _ _); cbn in Hs; try done. injection Hs as <-.
      cbn. by rewrite list_lookup_insert_ne.
    + destruct (possibilities s); [done|]. injection Hs as <-.
      cbn. by rewrite list_lookup_insert_ne.
    + destruct (doneClosed s).
      all: injection Hs as <-; cbn; by rewrite list_lookup_insert_ne.
    + destruct (attempt w t) as [[[w' hx] [sol'|]]| |]; cbn in Hs; try done.
      all: injection Hs as <-; cbn; by rewrite list_lookup_insert_ne.
  - destruct (workers s !! j) as [[| | | |sol'|]|]; try done.
    by destruct (mainAt s).
  - destruct (mainAt s); try done. by injection Hs as <-.
Qed.

(** X15: once [main] has a solution, a worker that stands at its send on
    [winner] stands there for good: whatever the schedule does next, it
    neither delivers nor returns. *)
Theorem loser_stays_at_send (c : config) (ls : list label) (s s' : sys)
    (i : nat) (sol : solution) :
  play c s ls = Some s' → mainAt s ≠ MWait → workers s !! i = Some (WSend sol) →
  workers s' !! i = Some (WSend sol)
  ∧ step c s' (LWorker i) = Blocked ∧ step c s' (LDeliver i) = Blocked.
Proof.
  revert s. induction ls as [|l ls IH]; intros s; cbn [play].
  - intros [= <-] Hm Hi. split_and!; [done| |].
    + cbn [step]. by rewrite Hi.
    + by apply CoordinatorFacts.deliver_blocked.
  - destruct (step c s l) as [s1| |] eqn:Hs; try done.
    intros Hp Hm Hi. destruct (step_loser _ _ _ _ _ _ Hs Hm Hi) as [Hi1 Hm1].
    by apply (IH s1).
Qed.

Lemma loser_stays_at_send_witness :
  workers Later.raceLater !! 0%nat = Some (WSend Cases.unshifted)
  ∧ step Samples.twoWorkers Later.raceLater (LWorker 0) = Blocked
  ∧ step Samples.twoWorkers Later.raceLater (LDeliver 0) = Blocked.
Proof.
  apply (loser_stays_at_send Samples.twoWorkers Later.more Samples.raceEnd Later.raceLater).
  - vm_compute. reflexivity.
  - vm_compute. discriminate.
  - vm_compute. reflexivity.
Defined.

Lemma step_cancelled (c : config) (s s' : sys) (l : label) :
  step c s l = Next s' → doneClosed s = true →
  doneClosed s' = true
  ∧ ∀ i, match workers s' !! i with
         | Some (WTry w t) => workers s !! i = Some (WTry w t)
         | Some (WSend sol) =>
             workers s !! i = Some (WSend sol)
             ∨ ∃ w t w' hx, workers s !! i = Some (WTry w t)
                            ∧ attempt w t = Ok (w', hx, Some sol)
         | _ => True
         end.
Proof.
  intros Hs Hd.
  assert (∀ i, match workers s !! i with
               | Some (WTry w t) => workers s !! i = Some (WTry w t)
               | Some (WSend sol) =>
                   workers s !! i = Some (WSend sol)
                   ∨ ∃ w t w' hx, workers s !! i = Some (WTry w t)
                                  ∧ attempt w t = Ok (w', hx, Some sol)
               | _ => True
               end) as Hsame.
  { intros i. destruct (workers s !! i) as [[| | | | |]|]; auto. }
  assert (∀ j th,
            workers s' = <[j:=th]> (workers s) →
            match th with
            | WTry w t => workers s !! j = Some (WTry w t)
            | WSend sol =>
                workers s !! j = Some (WSend sol)
                ∨ ∃ w t w' hx, workers s !! j = Some (WTry w t)
                               ∧ attempt w t = Ok (w', hx, Some sol)
            | _ => True
            end →
            ∀ i, match workers s' !! i with
                 | Some (WTry w t) => workers s !! i = Some (WTry w t)
                 | Some (WSend sol) =>
                     workers s !! i = Some (WSend sol)
                     ∨ ∃ w t w' hx, workers s !! i = Some (WTry w t)
                                    ∧ attempt w t = Ok (w', hx, Some sol)
                 | _ => True
                 end) as Hins.
  { intros j th -> Hth i. destruct (decide (j = i)) as [->|Hne].
    - destruct (decide (i < length (workers s))%nat).
      + rewrite list_lookup_insert_eq by done. exact Hth.
      + rewrite list_insert_ge by lia. apply Hsame.
    - rewrite list_lookup_insert_ne by done. apply Hsame. }
  destruct l as [|j|j|]; cbn [step] in Hs.
  - destruct (Explore.step (explorer s)) as [[t|] x'].
    + case_decide; [|done]. by injection Hs as <-.
    + by injection Hs as <-.
  - destruct (workers s !! j) as [[|w|w t|w t| |]|] eqn:Hj; try done.
    + destruct (initWorker _ _ _) as [w0| |]; cbn in Hs; try done. injection Hs as <-.
      split; [done|]. by apply (Hins j (WRecv w0)).
    + destruct (possibilities s) as [|t q]; [done|]. injection Hs as <-.
      split; [done|]. by apply (Hins j (WSelect w t)).
    + rewrite Hd in Hs. injection Hs as <-.
      split; [done|]. by apply (Hins j WExit).
    + destruct (attempt w t) as [[[w' hx] [sol|]]| |] eqn:Hat; cbn in Hs; try done.
      * injection Hs as <-. split; [done|].
        apply (Hins j (WSend sol)); [done|]. right. by exists w, t, w', hx.
      * injection Hs as <-. split; [done|]. by apply (Hins j (WRecv w')).
  - destruct (workers s !! j) as [[| | | |sol'|]|]; try done.
    destruct (mainAt s); try done. injection Hs as <-.
    split; [done|]. by apply (Hins j WExit).
  - destruct (mainAt s); try done. by injection Hs as <-.
Qed.

(** X16: after [close(done)], [done] stays closed and no worker enters
    the [default] branch again: a worker found in that branch
    afterwards was in it, with the same candidate, when [done] was
    closed, and a worker found at its send either stood there already
    or was in that branch then and has finished the attempt it had
    begun.  Every worker that tests [done] after the close returns, so
    each worker makes at most the one attempt it was in. *)
Theorem no_solution_after_cancel (c : config) (ls : list label) (s s' : sys) :
  play c s ls = Some s' → doneClosed s = true →
  doneClosed s' = true
  ∧ ∀ i, match workers s' !! i with
         | Some (WTry w t) => workers s !! i = Some (WTry w t)
         | Some (WSend sol) =>
             workers s !! i = Some (WSend sol)
             ∨ ∃ w t w' hx, workers s !! i = Some (WTry w t)
                            ∧ attempt w t = Ok (w', hx, Some sol)
         | _ => True
         end.
Proof.
  revert s. induction ls as [|l ls IH]; intros s; cbn [play].
  - intros [= <-] Hd. split; [done|]. intros i.
    destruct (workers s !! i) as [[| | | | |]|]; auto.
  - destruct (step c s l) as [s1| |] eqn:Hs; try done.
    intros Hp Hd. destruct (step_cancelled _ _ _ _ Hs Hd) as [Hd1 Hw1].
    destruct (IH _ Hp Hd1) as [Hd' Hw']. split; [done|]. intros i.
    specialize (Hw1 i). specialize (Hw' i).
    destruct (workers s' !! i) as [[|w|w t|w t|sol|]|]; try done.
    + by rewrite Hw' in Hw1.
    + destruct Hw' as [Hw'|(w & t & w' & hx & Hw' & Hat)].
      * by rewrite Hw' in Hw1.
      * rewrite Hw' in Hw1. right. by exists w, t, w', hx.
Qed.

Lemma no_solution_after_cancel_witness :
  doneClosed Later.lateSend = true
  ∧ ∀ i, match workers Later.lateSend !! i with
         | Some (WTry w t) => workers Later.closedMidway !! i = Some (WTry w t)
         | Some (WSend sol) =>
             workers Later.closedMidway !! i = Some (WSend sol)
             ∨ ∃ w t w' hx, workers Later.closedMidway !! i = Some (WTry w t)
                            ∧ attempt w t = Ok (w', hx, Some sol)
         | _ => True
         end.
Proof.
  apply (no_solution_after_cancel Samples.twoWorkers [LWorker 0]
           Later.closedMidway Later.lateSend).
  - vm_compute. reflexivity.
  - vm_compute. reflexivity.
Defined.

(** The schedule of [Later.closeSchedule]: worker 0 had passed its
    [select] when [done] was closed, and it comes to its send after
    the close. *)
Example late_send :
  doneClosed Later.closedMidway = true
  ∧ (∃ w, workers Later.closedMidway !! 0%nat = Some (WTry w (Try 0 0)))
  ∧ workers Later.lateSend !! 0%nat = Some (WSend Cases.unshifted).
Proof. split_and!; [done|eexists; reflexivity|vm_compute; reflexivity]. Qed.

Lemma step_no_workers (c : config) (s s' : sys) (l : label) :
  workers s = [] → mainAt s = MWait → step c s l = Next s' →
  workers s' = [] ∧ mainAt s' = MWait.
Proof.
  intros Hw Hm Hs. destruct l as [|i|i|]; cbn [step] in Hs.
  - destruct (Explore.step (explorer s)) as [[t|] x']; [case_decide|]; try done.
    all: by injection Hs as <-.
  - by rewrite Hw in Hs.
  - by rewrite Hw in Hs.
  - by rewrite Hm in Hs.
Qed.

Lemma play_no_workers (c : config) (ls : list label) (s s' : sys) :
  workers s = [] → mainAt s = MWait → play c s ls = Some s' →
  workers s' = [] ∧ mainAt s' = MWait.
Proof.
  revert s. induction ls as [|l ls IH]; intros s Hw Hm Hp; cbn [play] in Hp.
  - by injection Hp as <-.
  - destruct (step c s l) as [s1| |] eqn:Hs; try done.
    destruct (step_no_workers _ _ _ _ Hw Hm Hs) as [Hw1 Hm1]. eauto.
Qed.

(** X17: with no worker ([-cpus=0]) [main] never gets a solution,
    whatever the schedule; and once [explore] has filled [possibilities]
    with its first 512 pairs, no goroutine can make a move. *)
Theorem no_workers_deadlock (c : config) :
  cpu c = 0%nat →
  (∀ ls s, play c (started c) ls = Some s → mainAt s = MWait)
  ∧ ∃ s, play c (started c) (onlyExplore 557) = Some s
         ∧ length (possibilities s) = 512%nat
         ∧ ∀ l, step c s l = Blocked.
Proof.
  intros Hc. split.
  - intros ls s Hp. eapply play_no_workers; [| |exact Hp]; [|done].
    unfold started. cbn [workers]. by rewrite Hc.
  - destruct c as [p f n h o sp]. cbn in Hc. subst n.
    eexists. split; [vm_compute; reflexivity|].
    split; [reflexivity|].
    intros [|i|i|]; vm_compute; try reflexivity.
    all: by destruct i.
Qed.

Lemma no_workers_deadlock_witness :
  (∀ ls s, play (Config (lit "bf") false 0 [] [] 0)
                (started (Config (lit "bf") false 0 [] [] 0)) ls = Some s →
           mainAt s = MWait)
  ∧ ∃ s, play (Config (lit "bf") false 0 [] [] 0)
              (started (Config (lit "bf") false 0 [] [] 0)) (onlyExplore 557) = Some s
         ∧ length (possibilities s) = 512%nat
         ∧ ∀ l, step (Config (lit "bf") false 0 [] [] 0) s l = Blocked.
Proof. apply no_workers_deadlock. reflexivity. Defined.

End CoordinatorProps.

(** ** The date pattern, further *)

Module PatternProps.
Import Regexp.

(** The first run of a match is the longest possible: the group holds
    no ["> "] with something behind it. *)
Lemma matchAt_greedy (label h : bytes) (p m2 m3 : nat) (g1 g2 : bytes) :
  matchAt label h p = Some (m2, m3) →
  sub h m2 m3 = g1 ++ lit "> " ++ g2 → g2 = [].
Proof.
  unfold matchAt. destruct (lineStart h p); [|done]. intros H Hsub.
  apply RegexpFacts.lit_inv in H as (s1 & Hs & H).
  pose proof H as H'.
  apply RegexpFacts.dotPlus_longest in H as (run & s2 & -> & Hrun & Hnl & H & Hmax).
  apply RegexpFacts.lit_inv in H as (s3 & -> & H).
  apply RegexpFacts.group1_line_end in H as (grp & rest & -> & Hgrp & Hnl' & [= Hm2 Hm3] & _).
  change (length (lit "> ")) with 2%nat in *.
  assert (length (label ++ run ++ lit "> ") = (length label + length run + 2)%nat)
    as Hlen by (rewrite !length_app; cbn; lia).
  assert (sub h m2 m3 = grp) as Hg.
  { unfold sub.
    replace m2 with (p + length (label ++ run ++ lit "> "))%nat by lia.
    rewrite <- drop_drop, Hs.
    replace (label ++ run ++ lit "> " ++ grp ++ rest)
      with ((label ++ run ++ lit "> ") ++ grp ++ rest) by (by rewrite <- !app_assoc).
    rewrite drop_app_length.
    replace (m3 - (p + length (label ++ run ++ lit "> ")))%nat with (length grp) by lia.
    by rewrite take_app_length. }
  rewrite Hg in Hsub. subst grp.
  destruct g2 as [|c g2]; [done|exfalso].
  assert ((newline ∉ g1) ∧ (newline ∉ c :: g2)) as [Hn1 Hn2].
  { rewrite !not_elem_of_app in Hnl'. tauto. }
  specialize (Hmax (run ++ lit "> " ++ g1) (lit "> " ++ (c :: g2) ++ rest)).
  rewrite <- !app_assoc in Hmax. specialize (Hmax eq_refl).
  assert (newline ∉ run ++ lit "> " ++ g1) as Hn.
  { rewrite !not_elem_of_app. split_and!; try done.
    by intros [?|[?|?%not_elem_of_nil]%elem_of_cons]%elem_of_cons. }
  specialize (Hmax Hn). rewrite !length_app in Hmax.
  specialize (Hmax ltac:(cbn; lia)).
  unfold lit_ in Hmax.
  change (take (length (lit "> ")) (lit "> " ++ (c :: g2) ++ rest)) with (lit "> ") in Hmax.
  rewrite decide_True in Hmax by done.
  change (drop (length (lit "> ")) (lit "> " ++ (c :: g2) ++ rest))
    with ((c :: g2) ++ rest) in Hmax.
  unfold group1 in Hmax.
  match type of Hmax with
  | dotPlus ?k _ ?pos = None =>
      destruct (RegexpFacts.dotPlus_complete k (c :: g2) rest pos) as [r Hr];
      [done|done|eauto|]
  end.
  rewrite Hr in Hmax. done.
Qed.

(** X3: what a match of [(?m)^LABEL.+> (.+)] is.  The text found is at
    the start of a line, the first line from the top that has the shape:
    the label, at least one byte, ["> "], and the group, which is not
    empty, runs to the end of the line, and starts behind the last
    ["> "] of the line that has something behind it. *)
Theorem date_pattern_match (label h : bytes) (m2 m3 : nat) :
  FindSubmatchIndex label h = Some (m2, m3) →
  ∃ p run,
    (p = 0%nat ∨ h !! (p - 1)%nat = Some newline)
    ∧ sub h p m2 = label ++ run ++ lit "> "
    ∧ run ≠ [] ∧ (newline ∉ run)
    ∧ (m2 < m3 ≤ length h)%nat ∧ (newline ∉ sub h m2 m3)
    ∧ (m3 = length h ∨ h !! m3 = Some newline)
    ∧ (∀ g1 g2, sub h m2 m3 = g1 ++ lit "> " ++ g2 → g2 = [])
    ∧ (∀ q, (q < p)%nat → matchAt label h q = None).
Proof.
  intros Hf. pose proof (RegexpFacts.FindSubmatchIndex_bounds _ _ _ _ Hf) as Hb.
  apply RegexpFacts.findFrom_leftmost in Hf as (p & _ & Hm & Hleft).
  pose proof (RegexpFacts.matchAt_line _ _ _ _ _ Hm) as [Hstart Hend].
  pose proof (λ g1 g2, matchAt_greedy _ _ _ _ _ g1 g2 Hm) as Hgreedy.
  pose proof Hm as Hm'.
  apply RegexpFacts.matchAt_inv in Hm' as (run & grp & rest & Hd & Hrun & Hgrp & Hnl & Hnl' & -> & ->).
  exists p, run. split_and!; try done; try lia.
  - unfold sub.
    replace (p + length label + length run + 2 - p)%nat
      with (length (label ++ run ++ lit "> ")) by (rewrite !length_app; cbn; lia).
    rewrite Hd.
    replace (label ++ run ++ lit "> " ++ grp ++ rest)
      with ((label ++ run ++ lit "> ") ++ grp ++ rest) by (by rewrite <- !app_assoc).
    by rewrite take_app_length.
  - unfold sub.
    replace (p + length label + length run + 2)%nat
      with (p + length (label ++ run ++ lit "> "))%nat by (rewrite !length_app; cbn; lia).
    rewrite <- drop_drop, Hd.
    replace (label ++ run ++ lit "> " ++ grp ++ rest)
      with ((label ++ run ++ lit "> ") ++ grp ++ rest) by (by rewrite <- !app_assoc).
    rewrite drop_app_length.
    replace (p + length (label ++ run ++ lit "> ") + length grp
             - (p + length (label ++ run ++ lit "> ")))%nat with (length grp) by lia.
    by rewrite take_app_length.
  - intros q Hq. apply Hleft. lia.
Qed.

Lemma date_pattern_match_witness :
  ∃ p run,
    (p = 0%nat ∨ Samples.commitPlain !! (p - 1)%nat = Some newline)
    ∧ sub Samples.commitPlain p 128 = lit "committer" ++ run ++ lit "> "
    ∧ run ≠ [] ∧ (newline ∉ run)
    ∧ (128 < 144 ≤ length Samples.commitPlain)%nat
    ∧ (newline ∉ sub Samples.commitPlain 128 144)
    ∧ (144%nat = length Samples.commitPlain
       ∨ Samples.commitPlain !! 144%nat = Some newline)
    ∧ (∀ g1 g2, sub Samples.commitPlain 128 144 = g1 ++ lit "> " ++ g2 → g2 = [])
    ∧ (∀ q, (q < p)%nat → matchAt (lit "committer") Samples.commitPlain q = None).
Proof.
  apply (date_pattern_match (lit "committer") Samples.commitPlain 128 144).
  vm_compute. reflexivity.
Defined.

(** X2: [getDate] ends in "Failed to match" exactly when no line of the
    text has the shape of the pattern, in "unexpected date" exactly when
    the text matched holds no space or [ParseInt] rejects what stands
    before its first space, and it never panics. *)
Theorem getDate_failures (h rx : bytes) :
  (getDate h rx = Fatal FailedToMatch ↔
     ¬ ∃ p run grp rest,
         lineStart h p = true
         ∧ drop p h = rx ++ run ++ lit "> " ++ grp ++ rest
         ∧ run ≠ [] ∧ (newline ∉ run) ∧ grp ≠ [] ∧ (newline ∉ grp))
  ∧ (getDate h rx = Fatal UnexpectedDate ↔
       ∃ m2 m3, FindSubmatchIndex rx h = Some (m2, m3)
         ∧ match Strconv.IndexByte (sub h m2 m3) space with
           | None => True
           | Some i => (Strconv.ParseInt (take i (sub h m2 m3)) 10).2 ≠ None
           end)
  ∧ getDate h rx ≠ Panic
  ∧ getDate h rx ≠ Fatal PrefixNotHex ∧ getDate h rx ≠ Fatal NoBlankLine.
Proof.
  destruct (DateFacts.getDate_Fatal h rx) as (H1 & H2 & H3).
  split_and!; try done.
  - by rewrite H1, RegexpFacts.FindSubmatchIndex_None.
  - unfold getDate. repeat case_match; done.
  - unfold getDate. repeat case_match; done.
Qed.

End PatternProps.

(** ** The calls of [git], further *)

Module GitProps.
Import Coordinator Git.

(** X18: [curHash] returns the first line of what [git rev-parse] prints,
    without its newline; output that holds no newline, or that starts
    with one, is returned as it is. *)
Theorem curHash_first_line (all : bytes) :
  (∀ line rest, all = line ++ newline :: rest → line ≠ [] → newline ∉ line →
                curHash all = line)
  ∧ (∀ rest, all = newline :: rest → curHash all = all)
  ∧ (newline ∉ all → curHash all = all).
Proof.
  unfold curHash. split_and!.
  - intros line rest -> Hne Hnl.
    assert (Strconv.IndexByte (line ++ newline :: rest) newline = Some (length line))
      as -> by (apply DateFacts.IndexByte_Some; eauto).
    destruct line as [|c line]; [done|]. cbn [length].
    change (S (length line)) with (length (c :: line)). by rewrite take_app_length.
  - intros rest ->. cbn. by rewrite decide_True.
  - intros Hnl. destruct (Strconv.IndexByte all newline) as [i|] eqn:Hi; [|done].
    apply DateFacts.IndexByte_Some in Hi as (s1 & s2 & -> & _).
    exfalso. apply Hnl. rewrite elem_of_app. right. left.
Qed.

Lemma indexBlankLine_cons (a b : byte) (s : bytes) :
  indexBlankLine (a :: b :: s)
  = if decide (a = newline ∧ b = newline) then Some O
    else S <$> indexBlankLine (b :: s).
Proof. reflexivity. Qed.

Lemma noBlankLine_cons (a b : byte) (s : bytes) :
  noBlankLine (a :: b :: s)
  = if decide (a = newline ∧ b = newline) then false else noBlankLine (b :: s).
Proof. reflexivity. Qed.

Lemma indexBlankLine_None (s : bytes) : indexBlankLine s = None ↔ noBlankLine s = true.
Proof.
  induction s as [|a s IH]; [done|].
  destruct s as [|b s]; [done|].
  rewrite indexBlankLine_cons, noBlankLine_cons.
  case_decide; [done|].
  rewrite <- IH. destruct (indexBlankLine (b :: s)); cbn; split; done.
Qed.

Lemma indexBlankLine_Some (s : bytes) (i : nat) :
  indexBlankLine s = Some i ↔
  ∃ head rest, s = head ++ newline :: newline :: rest ∧ length head = i
               ∧ noBlankLine (head ++ [newline]) = true.
Proof.
  revert i. induction s as [|a s IH]; intros i.
  { split; [done|]. intros (head & rest & H & _). by destruct head. }
  destruct s as [|b s].
  { split; [done|]. intros (head & rest & H & _). by destruct head as [|? [|? ?]]. }
  rewrite indexBlankLine_cons.
  destruct (decide (a = newline ∧ b = newline)) as [[-> ->]|Hab].
  - split.
    + intros [= <-]. by exists [], s.
    + intros (head & rest & H & <- & Hno). destruct head as [|x head]; [done|exfalso].
      injection H as <- H. destruct head as [|y head].
      * cbn in Hno. by rewrite decide_True in Hno.
      * injection H as <- _. cbn [app] in Hno. rewrite noBlankLine_cons in Hno.
        by rewrite decide_True in Hno.
  - assert (∀ head rest, a :: b :: s = head ++ newline :: newline :: rest →
            noBlankLine (head ++ [newline]) = true →
            ∃ head', head = a :: head' ∧ b :: s = head' ++ newline :: newline :: rest
                     ∧ noBlankLine (head' ++ [newline]) = true) as Hstep.
    { intros head rest H Hno. destruct head as [|x head].
      { injection H as -> -> _. tauto. }
      injection H as <- H. exists head. split_and!; [done|done|].
      destruct head as [|y head]; [done|].
      cbn [app] in Hno. rewrite noBlankLine_cons in Hno.
      by destruct (decide (a = newline ∧ y = newline)). }
    destruct (indexBlankLine (b :: s)) as [k|] eqn:Hk; cbn.
    + split.
      * intros [= <-]. destruct (proj1 (IH k) eq_refl) as (head & rest & H & <- & Hno).
        exists (a :: head), rest. split_and!; [by rewrite H|done|].
        destruct head as [|y head].
        -- injection H as -> _. cbn. rewrite decide_False; [done|]. tauto.
        -- injection H as -> _. cbn [app]. rewrite noBlankLine_cons.
           rewrite decide_False by tauto. exact Hno.
      * intros (head & rest & H & <- & Hno).
        destruct (Hstep _ _ H Hno) as (head' & -> & H' & Hno').
        cbn [length]. do 2 f_equal.
        assert (Some k = Some (length head')) as [= ->]; [|done].
        apply IH. eauto.
    + split; [done|].
      intros (head & rest & H & <- & Hno). exfalso.
      destruct (Hstep _ _ H Hno) as (head' & -> & H' & Hno').
      assert (None = Some (length head')) as [=].
      apply IH. eauto.
Qed.

(** X19: the message [main] hands to the amending command is the record
    behind its first empty line, byte for byte; without an empty line
    [main] ends in the fatal error. *)
Theorem message_after_first_blank_line (obj : bytes) :
  (message obj = Fatal NoBlankLine ↔ noBlankLine obj = true)
  ∧ (∀ msg, message obj = Ok msg ↔
       ∃ head, obj = head ++ newline :: newline :: msg
               ∧ noBlankLine (head ++ [newline]) = true)
  ∧ message obj ≠ Panic.
Proof.
  unfold message. destruct (indexBlankLine obj) as [i|] eqn:Hi.
  - pose proof Hi as Hi'.
    apply indexBlankLine_Some in Hi' as (head & rest & -> & <- & Hno).
    assert (drop (length head + 2) (head ++ newline :: newline :: rest) = rest) as Hd.
    { replace (length head + 2)%nat with (length (head ++ [newline; newline]))
        by (rewrite length_app; cbn; lia).
      replace (head ++ newline :: newline :: rest)
        with ((head ++ [newline; newline]) ++ rest) by (by rewrite <- app_assoc).
      by rewrite drop_app_length. }
    rewrite Hd. split_and!; [|intros msg; split|done].
    + split; [done|]. intros H. apply indexBlankLine_None in H. congruence.
    + intros [= <-]. eauto.
    + intros (head' & Heq & Hno').
      assert (Some (length head) = Some (length head')) as [= Hlen].
      { rewrite <- Hi. apply indexBlankLine_Some. eauto. }
      f_equal. 
      assert (head ++ newline :: newline :: rest = head' ++ newline :: newline :: msg)
        as Heq' by done.
      apply app_inj_1 in Heq' as [_ Heq']; [|done]. by injection Heq'.
  - split_and!; [|intros msg; split|done].
    + split; [|done]. intros _. by apply indexBlankLine_None.
    + done.
    + intros (head & -> & Hno).
      assert (indexBlankLine (head ++ newline :: newline :: msg) = Some (length head))
        as Hs by (apply indexBlankLine_Some; eauto).
      congruence.
Qed.

(** X20: with a prefix that holds a byte other than [0-9a-f], such as an
    uppercase letter, [main] never returns early on the ground that the
    current hash has the prefix: it compares the bytes as they are,
    while the workers lower the prefix. *)
Theorem early_return_compares_case (c : config) :
  forallb Hex.isLowerHex (hash c) = true →
  forallb Hex.isLowerHex (prefix c) = false →
  main c ≠ Ok None.
Proof.
  intros Hh Hp Hm. unfold main in Hm.
  destruct (checkPrefix (prefix c)); cbn [mbind outcome_bind] in Hm; try done.
  destruct (Strconv.HasPrefix (hash c) (prefix c)) eqn:Hpre.
  - apply HexProps.HasPrefix_lower in Hpre; [congruence|done].
  - cbn in Hm. by destruct (noBlankLine (obj c)).
Qed.

Lemma early_return_compares_case_witness :
  main (Config (lit "0C") false 2 (lit "0ccb7d16bad98ffdcecef7b1087ca6ecbb7a9a41")
               Samples.commitTwoMatches 12)
  ≠ Ok None.
Proof. apply early_return_compares_case; vm_compute; reflexivity. Defined.

End GitProps.
